(** * Gibson-Lanni PSF generator (generate_movie/microscPSF.py)

    A shallow embedding of the module and the proofs of its specification.

    Numbers.  A Python float that the module receives (a microscope
    parameter, a wavelength, a pixel size, a sample of an input array) is a
    real number: rounding and overflow are not modelled.  A number that
    numpy computes is a [float64]: either a finite value [Val x], or
    [NaNInf], which stands for IEEE NaN and for plus or minus infinity, the
    results numpy gives (with a warning, without raising) for a division by
    zero and for the square root of a negative number.  The two are not
    told apart; an operation with a [NaNInf] operand gives [NaNInf], and
    comparisons and maxima treat it as NaN.  This is IEEE arithmetic but
    for two cases of an infinite operand, where IEEE gives a number: a
    number divided by an infinity is 0, and the greater of a number and
    minus infinity is the number.  Rounding decides at a denominator that
    is 0 and at a square root whose radicand changes sign: the statements
    about the zero denominator of the radial transform are on the values
    that reach it, and those about the square roots of the phase keep away
    from the edge of the pupil by a relative margin ([radicand_margin]).
    The length of [numpy.arange] is taken in exact arithmetic.

    Errors.  Python raises where numpy does not: a missing dictionary key,
    a float division by zero, [math.sqrt] of a negative number, operands
    that do not broadcast.  A function of the module returns a [result]:
    the value, or the exception raised.

    Objects.  Part I gives the module twice: as functions from values to
    results, on which the statements about what is computed are proved
    (Part II), and as computations on a store of mutable objects, with
    references, views and writes in place, on which the statement about
    what is written is proved (Part III).  Part IV relates the two: the
    computations on the store return what the functions return.  Part V
    is about the functions again: the errors they raise, their edge cases,
    and how they compose. *)

From Stdlib Require Import Reals Lra Lia ZArith Sorted.
From stdpp Require Import base gmap strings list.

Set Default Proof Using "Type".

Local Open Scope R_scope.

(* ================================================================= *)
(** * Part I: the embedding *)
(* ================================================================= *)

(** ** Python exceptions and the result monad *)

Inductive pyerr : Type :=
| KeyError (key : string)
| ZeroDivisionError
| ValueError
| AttributeError
| IndexError
| TypeError
| LinAlgError.

Inductive result (A : Type) : Type :=
| Ok (a : A)
| Raise (e : pyerr).
Arguments Ok {A} a.
Arguments Raise {A} e.

Definition bind {A B} (m : result A) (f : A → result B) : result B :=
  match m with
  | Ok a => f a
  | Raise e => Raise e
  end.

Notation "x <- m ;; k" := (bind m (λ x, k))
  (at level 100, m at next level, right associativity).

Definition raises {A} (m : result A) : Prop := ∃ e, m = Raise e.

(** ** Scalars *)

Inductive float64 : Type :=
| Val (x : R)
| NaNInf.

Inductive binop : Type := Add | Sub | Mul | Div.

(** Arithmetic of numpy on float64: it never raises. *)
Definition f64_op (op : binop) (a b : float64) : float64 :=
  match a, b with
  | Val x, Val y =>
      match op with
      | Add => Val (x + y)
      | Sub => Val (x - y)
      | Mul => Val (x * y)
      | Div => if Req_dec_T y 0 then NaNInf else Val (x / y)
      end
  | _, _ => NaNInf
  end.

Declare Scope f64_scope.
Delimit Scope f64_scope with f64.
Bind Scope f64_scope with float64.
Notation "a + b" := (f64_op Add a b) : f64_scope.
Notation "a - b" := (f64_op Sub a b) : f64_scope.
Notation "a * b" := (f64_op Mul a b) : f64_scope.
Notation "a / b" := (f64_op Div a b) : f64_scope.

Definition f64_sqrt (a : float64) : float64 :=
  match a with
  | Val x => if Rlt_dec x 0 then NaNInf else Val (sqrt x)
  | NaNInf => NaNInf
  end.

(** A real function of the libraries (cos, sin, exp, the Bessel functions)
    applied to a float64. *)
Definition f64_lift (f : R → R) (a : float64) : float64 :=
  match a with
  | Val x => Val (f x)
  | NaNInf => NaNInf
  end.

Definition f64_max (a b : float64) : float64 :=
  match a, b with
  | Val x, Val y => Val (Rmax x y)
  | _, _ => NaNInf
  end.

Definition is_finite (a : float64) : Prop := ∃ x, a = Val x.

(** Comparison of a computed number with a finite one; false on NaN. *)
Definition f64_ltb (a : float64) (y : R) : bool :=
  match a with
  | Val x => if Rlt_dec x y then true else false
  | NaNInf => false
  end.

Definition f64_gtb (a : float64) (y : R) : bool :=
  match a with
  | Val x => if Rlt_dec y x then true else false
  | NaNInf => false
  end.

(** ** Complex numbers (complex128): a real and an imaginary part *)

Definition complex128 : Type := float64 * float64.

Definition c_of_real (x : float64) : complex128 := (x, Val 0).

Definition c_add (a b : complex128) : complex128 :=
  ((a.1 + b.1)%f64, (a.2 + b.2)%f64).

Definition c_mul (a b : complex128) : complex128 :=
  ((a.1 * b.1 - a.2 * b.2)%f64, (a.1 * b.2 + a.2 * b.1)%f64).

Definition c_exp (z : complex128) : complex128 :=
  ((f64_lift exp z.1 * f64_lift cos z.2)%f64,
   (f64_lift exp z.1 * f64_lift sin z.2)%f64).

Definition c_abs (z : complex128) : float64 :=
  f64_sqrt (z.1 * z.1 + z.2 * z.2)%f64.

Definition c_finite (z : complex128) : Prop := is_finite z.1 ∧ is_finite z.2.

(** Arithmetic of Python on its own floats: [/] raises on a zero divisor. *)
Definition py_op (op : binop) (x y : R) : result R :=
  match op with
  | Add => Ok (x + y)
  | Sub => Ok (x - y)
  | Mul => Ok (x * y)
  | Div => if Req_dec_T y 0 then Raise ZeroDivisionError else Ok (x / y)
  end.

(** [math.sqrt] *)
Definition math_sqrt (x : R) : result R :=
  if Rlt_dec x 0 then Raise ValueError else Ok (sqrt x).

(** [min] of a non-empty Python list of floats *)
Definition py_min (l : list R) : result R :=
  match l with
  | [] => Raise ValueError
  | x :: l' => Ok (foldl Rmin x l')
  end.

(** The ceiling of a real number, as an integer. *)
Definition ceil (x : R) : Z := (1 - up (- x))%Z.

(** ** numpy arrays

    An array of at most two dimensions: its rank, its shape and its items.
    A 0-d array (a numpy scalar) has shape (1, 1) here, and a 1-D array of
    length n has shape (1, n), which is how numpy aligns them when it
    broadcasts.  [item] is read only inside the shape. *)

Record ndarray (A : Type) : Type := NdArray {
  ndim : nat;
  nrows : nat;
  ncols : nat;
  item : nat → nat → A
}.
Arguments NdArray {A} ndim nrows ncols item.
Arguments ndim {A} _.
Arguments nrows {A} _.
Arguments ncols {A} _.
Arguments item {A} _ _ _.

Definition nd0 {A} (x : A) : ndarray A := NdArray 0 1 1 (λ _ _, x).
Definition nd1 {A} (n : nat) (f : nat → A) : ndarray A := NdArray 1 1 n (λ _ j, f j).
Definition nd2 {A} (r c : nat) (f : nat → nat → A) : ndarray A := NdArray 2 r c f.

(** [numpy.array(l)] for a Python list of floats, and for an input array
    given by its finite samples. *)
Definition np_array (l : list R) : ndarray float64 :=
  nd1 (length l) (λ j, Val (nth j l 0)).

Definition nd_map {A B} (f : A → B) (a : ndarray A) : ndarray B :=
  NdArray (ndim a) (nrows a) (ncols a) (λ i j, f (item a i j)).

(** Broadcasting of one axis: equal lengths, or one of them is 1. *)
Definition bdim (n m : nat) : result nat :=
  if decide (n = m) then Ok n
  else if decide (n = 1%nat) then Ok m
  else if decide (m = 1%nat) then Ok n
  else Raise ValueError.

Definition bidx (n i : nat) : nat := if decide (n = 1%nat) then 0%nat else i.

Definition np_zip {A B C} (f : A → B → C) (a : ndarray A) (b : ndarray B)
  : result (ndarray C) :=
  r <- bdim (nrows a) (nrows b) ;;
  c <- bdim (ncols a) (ncols b) ;;
  Ok (NdArray (Nat.max (ndim a) (ndim b)) r c
        (λ i j, f (item a (bidx (nrows a) i) (bidx (ncols a) j))
                  (item b (bidx (nrows b) i) (bidx (ncols b) j)))).

(** [a.reshape(-1, 1)]: the items in row-major order, as a column. *)
Definition reshape_col {A} (a : ndarray A) : ndarray A :=
  nd2 (nrows a * ncols a) 1
      (λ i _, item a (i / ncols a)%nat (i mod ncols a)%nat).

(** [a.T] *)
Definition transpose {A} (a : ndarray A) : ndarray A :=
  match ndim a with
  | 2%nat => nd2 (ncols a) (nrows a) (λ i j, item a j i)
  | _ => a
  end.

(** [a[i, :]], the items of row i of a 2-D array. *)
Definition row {A} (a : ndarray A) (i : nat) : list A :=
  (λ j, item a i j) <$> seq 0 (ncols a).

(** The items of an array in row-major order ([a.ravel()]). *)
Definition ravel {A} (a : ndarray A) : list A :=
  concat (row a <$> seq 0 (nrows a)).

(** [numpy.max]: raises on an array without items. *)
Definition np_max (a : ndarray float64) : result float64 :=
  match ravel a with
  | [] => Raise ValueError
  | x :: l => Ok (foldl f64_max x l)
  end.

(** [numpy.arange(start, stop, step)] on floats: ceil((stop - start)/step)
    items start + i*step; the length is a division of Python floats. *)
Definition arange (start stop step : R) : result (list R) :=
  if Req_dec_T step 0 then Raise ZeroDivisionError
  else Ok ((λ i, start + INR i * step) <$> seq 0 (Z.to_nat (ceil ((stop - start) / step)))).

(** [numpy.linspace(start, stop, num)] for num > 1: num - 1 steps, and the
    last item is [stop] itself. *)
Definition linspace (start stop : R) (num : nat) : list R :=
  let step := (stop - start) / INR (num - 1) in
  ((λ i, INR i * step + start) <$> seq 0 (num - 1)) ++ [stop].

(** ** Python values and expressions

    The module's arithmetic is on operands that are Python floats or numpy
    arrays, and what an operator does depends on which: between two Python
    floats it is Python's, otherwise numpy's, with broadcasting. *)

Inductive value : Type :=
| PyFloat (x : R)
| Np (a : ndarray float64).

Definition to_np (v : value) : ndarray float64 :=
  match v with
  | PyFloat x => nd0 (Val x)
  | Np a => a
  end.

Definition val_op (op : binop) (a b : value) : result value :=
  match a, b with
  | PyFloat x, PyFloat y => x <- py_op op x y ;; Ok (PyFloat x)
  | _, _ => c <- np_zip (f64_op op) (to_np a) (to_np b) ;; Ok (Np c)
  end.

(** [x op= y], the operator in place.  On a Python float it is [x = x op y];
    on an array the result is written to the array, and numpy raises
    ValueError unless it has the rank and the shape of the array. *)
Definition val_iop (op : binop) (x y : value) : result value :=
  match x with
  | PyFloat _ => val_op op x y
  | Np a =>
      c <- np_zip (f64_op op) a (to_np y) ;;
      if decide (ndim c = ndim a ∧ nrows c = nrows a ∧ ncols c = ncols a)
      then Ok (Np c)
      else Raise ValueError
  end.

(** An expression evaluates its left operand first. *)
Definition expr_op (op : binop) (a b : result value) : result value :=
  x <- a ;; y <- b ;; val_op op x y.

(** [numpy.sqrt(e)]: also on a Python float the result is a numpy scalar. *)
Definition np_sqrt (e : result value) : result value :=
  v <- e ;; Ok (Np (nd_map f64_sqrt (to_np v))).

(** A library function that is applied item by item ([scipy.special.j0]). *)
Definition np_apply (f : R → R) (e : result value) : result value :=
  v <- e ;; Ok (Np (nd_map (f64_lift f) (to_np v))).

(** [e.reshape(-1, 1)], a method of arrays only. *)
Definition as_array (v : value) : result (ndarray float64) :=
  match v with
  | PyFloat _ => Raise AttributeError
  | Np a => Ok a
  end.

Definition expr_reshape_col (e : result value) : result value :=
  v <- e ;; a <- as_array v ;; Ok (Np (reshape_col a)).

Definition lit (x : R) : result value := Ok (PyFloat x).
Definition arr (a : ndarray float64) : result value := Ok (Np a).
Definition var (v : value) : result value := Ok v.

Declare Scope py_scope.
Delimit Scope py_scope with py.
Bind Scope py_scope with result.
Notation "a + b" := (expr_op Add a b) : py_scope.
Notation "a - b" := (expr_op Sub a b) : py_scope.
Notation "a * b" := (expr_op Mul a b) : py_scope.
Notation "a / b" := (expr_op Div a b) : py_scope.
Coercion lit : R >-> result.
Coercion var : value >-> result.

(** [mp[key]] *)
Definition getitem (mp : gmap string R) (key : string) : result R :=
  match mp !! key with
  | Some x => Ok x
  | None => Raise (KeyError key)
  end.

(** ** Microscope parameters

    A parameter set gives the eleven keys the module reads; [dict_of] is
    the Python dictionary that holds it. *)

Record params : Type := Params {
  p_NA : R; p_M : R; p_ng0 : R; p_ng : R; p_ni0 : R; p_ni : R; p_ns : R;
  p_ti0 : R; p_tg : R; p_tg0 : R; p_zd0 : R
}.

Definition dict_of (p : params) : gmap string R :=
  list_to_map
    [("NA"%string, p_NA p); ("M"%string, p_M p); ("ng0"%string, p_ng0 p);
     ("ng"%string, p_ng p); ("ni0"%string, p_ni0 p); ("ni"%string, p_ni p);
     ("ns"%string, p_ns p); ("ti0"%string, p_ti0 p); ("tg"%string, p_tg p);
     ("tg0"%string, p_tg0 p); ("zd0"%string, p_zd0 p)].

(** The oil-immersion objective of the specification's end-to-end example. *)
Definition example_params : params :=
  {| p_NA := 1.4; p_M := 100; p_ng0 := 1.515; p_ng := 1.515;
     p_ni0 := 1.515; p_ni := 1.515; p_ns := 1.33;
     p_ti0 := 150; p_tg := 170; p_tg0 := 170; p_zd0 := 150000 |}.

(** ** The module *)

Definition num_basis : nat := 100.
Definition rho_samples : nat := 1000.


(** [calcRv(dxy, xy_size, sampling=2)] *)
Definition calcRv (dxy : R) (xy_size : Z) (sampling : R) : result (list R) :=
  s <- math_sqrt (0.5 * IZR xy_size * IZR xy_size) ;;
  let rv_max := s + 1 in
  step <- py_op Div dxy sampling ;;
  arange 0 (rv_max * dxy) step.

(** [configure(mp, wvl)] *)
Definition configure (mp : gmap string R) (wvl : R) : result (value * R) :=
  let min_wavelength := 0.436 in
  NA <- getitem mp "NA" ;;
  scaling_factor <-
    (NA * (3 * arr (np_array ((λ i, INR i) <$> seq 1 num_basis)) - 2)
       * min_wavelength / wvl)%py ;;
  NA <- getitem mp "NA" ;;
  ng0 <- getitem mp "ng0" ;;
  ng <- getitem mp "ng" ;;
  ni0 <- getitem mp "ni0" ;;
  ni <- getitem mp "ni" ;;
  ns <- getitem mp "ns" ;;
  m <- py_min [NA; ng0; ng; ni0; ni; ns] ;;
  NA' <- getitem mp "NA" ;;
  max_rho <- py_op Div m NA' ;;
  Ok (scaling_factor, max_rho).

(** [deltaFocus(mp, zd)] *)
Definition deltaFocus (mp : gmap string R) (zd : R) : result R :=
  NA <- getitem mp "NA" ;;
  zd0 <- getitem mp "zd0" ;;
  M <- getitem mp "M" ;;
  a <- py_op Div (NA * zd0) M ;;
  zd0 <- getitem mp "zd0" ;;
  zd0' <- getitem mp "zd0" ;;
  py_op Div (a * a * (zd0 - zd)) (2.0 * zd0' * zd).

(** [OPD(mp, rho, ti, pz, wvl, zd)] *)
Definition OPD (mp : gmap string R) (rho ti pz : value) (wvl : R) (zd : value)
  : result value :=
  NA <- getitem mp "NA" ;;
  ns <- getitem mp "ns" ;;
  ng0 <- getitem mp "ng0" ;;
  ng <- getitem mp "ng" ;;
  ni0 <- getitem mp "ni0" ;;
  ni <- getitem mp "ni" ;;
  ti0 <- getitem mp "ti0" ;;
  tg <- getitem mp "tg" ;;
  tg0 <- getitem mp "tg0" ;;
  zd0 <- getitem mp "zd0" ;;
  M <- getitem mp "M" ;;
  a <- py_op Div (NA * zd0) M ;;
  k <- py_op Div (2.0 * PI) wvl ;;
  OPDs <- (pz * np_sqrt (ns * ns - NA * NA * rho * rho))%py ;;
  OPDi <- (ti * np_sqrt (ni * ni - NA * NA * rho * rho)
          - ti0 * np_sqrt (ni0 * ni0 - NA * NA * rho * rho))%py ;;
  OPDg <- (tg * np_sqrt (ng * ng - NA * NA * rho * rho)
          - tg0 * np_sqrt (ng0 * ng0 - NA * NA * rho * rho))%py ;;
  OPDt <- (a * a * (zd0 - zd) * rho * rho / (2.0 * zd0 * zd))%py ;;
  (k * (OPDs + OPDi + OPDg + OPDt))%py.

(** ** The libraries behind the engine

    [scipy.special.j0], [scipy.special.j1], [numpy.linalg.lstsq] and
    [scipy.integrate.quad] are not code of the repository.  The Bessel
    functions are real functions.  Of [lstsq(a, b)] the proofs use one
    property: for finite 2-D operands with as many rows, it returns a
    finite 2-D solution with one row per column of [a] and one column per
    column of [b].  [quad] is a deterministic integrator: from the bounds
    and the values of the integrand it has seen, it asks for the value at
    one more point or gives its estimate, and after [quad_limit]
    evaluations it gives the estimate it has.  [interp1d_nonfinite] is
    what scipy's interpolation gives when an abscissa is not finite. *)

Definition finite_array (a : ndarray float64) : Prop :=
  ∀ i j, (i < nrows a)%nat → (j < ncols a)%nat → is_finite (item a i j).

Definition c_finite_array (a : ndarray complex128) : Prop :=
  ∀ i j, (i < nrows a)%nat → (j < ncols a)%nat → c_finite (item a i j).

Class NumLib : Type := {
  j0 : R → R;
  j1 : R → R;
  lstsq : ndarray float64 → ndarray complex128 → result (ndarray complex128);
  lstsq_finite : ∀ a b,
    ndim a = 2%nat → ndim b = 2%nat → nrows a = nrows b →
    finite_array a → c_finite_array b →
    ∃ x, lstsq a b = Ok x ∧ ndim x = 2%nat ∧ nrows x = ncols a ∧
         ncols x = ncols b ∧ c_finite_array x;
  quad_limit : nat;
  quad_next : R → R → list (R * float64) → R + float64;
  quad_finish : R → R → list (R * float64) → float64;
  interp1d_nonfinite :
    list float64 → list float64 → list float64 → result (list float64)
}.

(** [a.dot(b)] of a real and a complex 2-D array. *)
Definition np_dot (a : ndarray float64) (b : ndarray complex128)
  : result (ndarray complex128) :=
  if decide (ncols a = nrows b) then
    Ok (nd2 (nrows a) (ncols b)
          (λ i j, foldl c_add (Val 0, Val 0)
                    ((λ l, c_mul (c_of_real (item a i l)) (item b l j))
                       <$> seq 0 (ncols a))))
  else Raise ValueError.

(** ** scipy.interpolate.interp1d, linear, with its default bounds check

    The samples are sorted by abscissa (a stable sort); a call raises
    ValueError when a new abscissa is below the first or above the last
    sample, and interpolates linearly between neighbours otherwise.  The
    neighbours are the ones scipy takes when the abscissae increase
    strictly and the samples are finite, which the statements about
    interpolated values assume. *)

Fixpoint insert_pt (p : R * float64) (l : list (R * float64)) : list (R * float64) :=
  match l with
  | [] => [p]
  | q :: l' => if Rle_dec p.1 q.1 then p :: l else q :: insert_pt p l'
  end.

Definition sort_pts (l : list (R * float64)) : list (R * float64) :=
  foldr insert_pt [] l.

Fixpoint lin_eval (pts : list (R * float64)) (x : R) : float64 :=
  match pts with
  | [] => NaNInf
  | p0 :: rest =>
      match rest with
      | [] => p0.2
      | p1 :: _ =>
          if Rle_dec x p1.1
          then (p0.2 + (p1.2 - p0.2) / Val (p1.1 - p0.1) * Val (x - p0.1))%f64
          else lin_eval rest x
      end
  end.

Definition interp_call (pts : list (R * float64)) (x_new : list float64)
  : result (list float64) :=
  match pts with
  | [] => Raise ValueError
  | p0 :: _ =>
      let lo := p0.1 in
      let hi := (List.last pts p0).1 in
      if existsb (λ x, f64_ltb x lo || f64_gtb x hi) x_new
      then Raise ValueError
      else Ok ((λ x, match x with
                      | Val v => lin_eval pts v
                      | NaNInf => NaNInf
                      end) <$> x_new)
  end.

Definition interp1d (x : list R) (y : list float64)
  : result (list float64 → result (list float64)) :=
  if decide (length x = length y) then
    match x with
    | [] => Raise ValueError
    | _ => Ok (interp_call (sort_pts (zip x y)))
    end
  else Raise ValueError.

(** [for i in range(n)], collecting what each round gives. *)
Fixpoint for_range {A} (f : nat → result A) (start n : nat) : result (list A) :=
  match n with
  | O => Ok []
  | S n' => x <- f start ;; l <- for_range f (S start) n' ;; Ok (x :: l)
  end.

(** [numpy.array(l).reshape(r, c)] *)
Definition reshape2 (r c : nat) (l : list float64) : ndarray float64 :=
  nd2 r c (λ i j, nth (i * c + j) l NaNInf).

(** The grid of pixel radii that [psfRZToPSFXYZ] builds first, for a
    number of pixels that is not negative: the distance of each pixel
    centre (x + 0.5, y + 0.5) to the centre of the grid, times the pixel
    size. *)
Definition pixel_radii (dxy : R) (xy_size : Z) : result value :=
  let c_xy := IZR xy_size * 0.5 in
  let n := Z.to_nat xy_size in
  let xy0 := Np (nd2 n n (λ i _, Val (INR i + 0.5))) in
  let xy1 := Np (nd2 n n (λ _ j, Val (INR j + 0.5))) in
  (dxy * np_sqrt ((xy1 - c_xy) * (xy1 - c_xy) + (xy0 - c_xy) * (xy0 - c_xy)))%py.

(** [psfRZToPSFXYZ(dxy, xy_size, rv, PSF_rz)]: the volume, one 2-D slice
    per axial sample.  [numpy.mgrid], the first thing that is called,
    raises ValueError for a negative number of pixels. *)
Definition psfRZToPSFXYZ (dxy : R) (xy_size : Z) (rv : list R)
    (PSF_rz : ndarray float64) : result (list (ndarray float64)) :=
  let n := Z.to_nat xy_size in
  _ <- (if (xy_size <? 0)%Z then Raise ValueError else Ok tt) ;;
  r_pixel <- pixel_radii dxy xy_size ;;
  n_z <- match ndim PSF_rz with
         | 0%nat => Raise IndexError
         | 1%nat => Ok (ncols PSF_rz)
         | _ => Ok (nrows PSF_rz)
         end ;;
  for_range
    (λ i,
       _ <- (if decide (ndim PSF_rz = 2%nat) then Ok tt else Raise IndexError) ;;
       psf_rz_interp <- interp1d rv (row PSF_rz i) ;;
       y <- psf_rz_interp (ravel (to_np r_pixel)) ;;
       Ok (reshape2 n n y))
    0 n_z.

(** The radius of the pixel (x, y) as the specification states it. *)
Definition pixel_radius (dxy : R) (xy_size : Z) (x y : nat) : R :=
  dxy * sqrt ((INR x + 0.5 - IZR xy_size / 2) ^ 2
              + (INR y + 0.5 - IZR xy_size / 2) ^ 2).

Section Engine.

Context {lib : NumLib}.

(** [gLZRScan(mp, pz, rv, zd, zv, normalize, wvl)]; the four arrays are
    given by their samples. *)
Definition gLZRScan (mp : gmap string R) (pz rv zd zv : list R)
    (normalize : bool) (wvl : R) : result (ndarray float64) :=
  cfg <- configure mp wvl ;;
  let scaling_factor := cfg.1 in
  let max_rho := cfg.2 in
  let rho := np_array (linspace 0.0 max_rho rho_samples) in
  NA <- getitem mp "NA" ;;
  zd0 <- getitem mp "zd0" ;;
  M <- getitem mp "M" ;;
  s <- math_sqrt (M * M + NA * NA) ;;
  a <- py_op Div (NA * zd0) s ;;
  k <- py_op Div (2.0 * PI) wvl ;;
  ti0 <- getitem mp "ti0" ;;
  ti <- (expr_reshape_col (arr (np_array zv)) + ti0)%py ;;
  pz <- expr_reshape_col (arr (np_array pz)) ;;
  zd <- expr_reshape_col (arr (np_array zd)) ;;
  opdt <- OPD mp (Np rho) ti pz wvl zd ;;
  let phase :=
    nd_map (λ x, c_exp (c_mul (Val 0, Val 1) (c_of_real x))) (to_np opdt) in
  J <- np_apply j0 (expr_reshape_col scaling_factor * arr rho)%py ;;
  C <- lstsq (transpose (to_np J)) (transpose phase) ;;
  M <- getitem mp "M" ;;
  rv <- (arr (np_array rv) * M)%py ;;
  b <- (k * a * expr_reshape_col rv / zd)%py ;;
  denom <- (scaling_factor * scaling_factor - b * b)%py ;;
  Rt <- (scaling_factor * np_apply j1 (scaling_factor * max_rho)
           * np_apply j0 (b * max_rho) * max_rho
         - b * np_apply j0 (scaling_factor * max_rho)
           * np_apply j1 (b * max_rho) * max_rho)%py ;;
  Rt <- val_iop Div Rt denom ;;
  RC <- np_dot (to_np Rt) C ;;
  let PSF_rz := transpose (nd_map (λ z, (c_abs z * c_abs z)%f64) RC) in
  if normalize then
    m <- np_max PSF_rz ;;
    Ok (nd_map (λ x, (x / m)%f64) PSF_rz)
  else Ok PSF_rz.

(** [zd = mp["zd0"] if zd is None] *)
Definition default_zd (mp : gmap string R) (zd : option R) : result R :=
  match zd with
  | None => getitem mp "zd0"
  | Some z => Ok z
  end.

Definition gLZRCameraScan (mp : gmap string R) (rv zd : list R)
    (normalize : bool) (pz wvl zv : R) : result (ndarray float64) :=
  gLZRScan mp [pz] rv zd [zv] normalize wvl.

Definition gLZRFocalScan (mp : gmap string R) (rv zv : list R)
    (normalize : bool) (pz wvl : R) (zd : option R) : result (ndarray float64) :=
  zd <- default_zd mp zd ;;
  gLZRScan mp [pz] rv [zd] zv normalize wvl.

Definition gLZRParticleScan (mp : gmap string R) (rv pz : list R)
    (normalize : bool) (wvl : R) (zd : option R) (zv : R)
  : result (ndarray float64) :=
  zd <- default_zd mp zd ;;
  gLZRScan mp pz rv [zd] [zv] normalize wvl.

Definition gLXYZCameraScan (mp : gmap string R) (dxy : R) (xy_size : Z)
    (zd : list R) (normalize : bool) (pz wvl zv : R)
  : result (list (ndarray float64)) :=
  rv <- calcRv dxy xy_size 2 ;;
  PSF_rz <- gLZRCameraScan mp rv zd normalize pz wvl zv ;;
  psfRZToPSFXYZ dxy xy_size rv PSF_rz.

Definition gLXYZFocalScan (mp : gmap string R) (dxy : R) (xy_size : Z)
    (zv : list R) (normalize : bool) (pz wvl : R) (zd : option R)
  : result (list (ndarray float64)) :=
  rv <- calcRv dxy xy_size 2 ;;
  PSF_rz <- gLZRFocalScan mp rv zv normalize pz wvl zd ;;
  psfRZToPSFXYZ dxy xy_size rv PSF_rz.

Definition gLXYZParticleScan (mp : gmap string R) (dxy : R) (xy_size : Z)
    (pz : list R) (normalize : bool) (wvl : R) (zd : option R) (zv : R)
  : result (list (ndarray float64)) :=
  rv <- calcRv dxy xy_size 2 ;;
  PSF_rz <- gLZRParticleScan mp rv pz normalize wvl zd zv ;;
  psfRZToPSFXYZ dxy xy_size rv PSF_rz.

(** [scipy.integrate.quad(f, a, b)[0]] *)
Fixpoint quad_loop (fuel : nat) (f : R → result float64) (a b : R)
    (seen : list (R * float64)) : result float64 :=
  match fuel with
  | O => Ok (quad_finish a b seen)
  | S fuel' =>
      match quad_next a b seen with
      | inl x => y <- f x ;; quad_loop fuel' f a b (seen ++ [(x, y)])
      | inr estimate => Ok estimate
      end
  end.

Definition quad (f : R → result float64) (a b : R) : result float64 :=
  quad_loop quad_limit f a b [].

(** The integrand of [slowGL], the complex number t3, for the values k, a,
    ti and rv that [slowGL] has computed. *)
Definition slowGL_t3 (mp : gmap string R) (k a rv ti pz wvl zd rho : R)
  : result complex128 :=
  t1 <- py_op Div (k * a * rho * rv) zd ;;
  let t2 := Val (j0 t1) in
  opd <- OPD mp (PyFloat rho) (PyFloat ti) (PyFloat pz) wvl (PyFloat zd) ;;
  let phase := c_exp (c_mul (Val 0, Val 1) (c_of_real (item (to_np opd) 0 0))) in
  Ok (c_mul (c_mul (c_of_real t2) phase) (c_of_real (Val rho))).

(** [slowGL(mp, max_rho, rv, zv, pz, wvl, zd)] *)
Definition slowGL (mp : gmap string R) (max_rho rv zv pz wvl zd : R)
  : result float64 :=
  NA <- getitem mp "NA" ;;
  zd0 <- getitem mp "zd0" ;;
  M <- getitem mp "M" ;;
  s <- math_sqrt (M * M + NA * NA) ;;
  a <- py_op Div (NA * zd0) s ;;
  k <- py_op Div (2.0 * PI) wvl ;;
  ti0 <- getitem mp "ti0" ;;
  let ti := zv + ti0 in
  M <- getitem mp "M" ;;
  let rv := rv * M in
  let integral_fn_imag rho :=
    (t3 <- slowGL_t3 mp k a rv ti pz wvl zd rho ;; Ok t3.2) in
  let integral_fn_real rho :=
    (t3 <- slowGL_t3 mp k a rv ti pz wvl zd rho ;; Ok t3.1) in
  int_i <- quad integral_fn_imag 0.0 max_rho ;;
  int_r <- quad integral_fn_real 0.0 max_rho ;;
  t1 <- py_op Div (k * a * a) (zd * zd) ;;
  Ok (Val t1 * (int_r * int_r + int_i * int_i))%f64.

(** The grid that the two nested loops of the slow scans fill. *)
Definition slow_grid (n_z n_r : nat) (f : nat → nat → result float64)
  : result (ndarray float64) :=
  rows <- for_range (λ i, for_range (λ j, f i j) 0 n_r) 0 n_z ;;
  Ok (nd2 n_z n_r (λ i j, nth j (nth i rows []) NaNInf)).

(** [gLZRFocalScanSlow(mp, rv, zv, normalize, pz, wvl, zd)] *)
Definition gLZRFocalScanSlow (mp : gmap string R) (rv zv : list R)
    (normalize : bool) (pz wvl : R) (zd : option R) : result (ndarray float64) :=
  zd <- default_zd mp zd ;;
  cfg <- configure mp wvl ;;
  let max_rho := cfg.2 in
  psf_rz <- slow_grid (length zv) (length rv)
              (λ i j, slowGL mp max_rho (nth j rv 0) (nth i zv 0) pz wvl zd) ;;
  if normalize then
    m <- np_max psf_rz ;;
    Ok (nd_map (λ x, (x / m)%f64) psf_rz)
  else Ok psf_rz.

(** [gLZRParticleScanSlow(mp, rv, pz, normalize, wvl, zd, zv)] *)
Definition gLZRParticleScanSlow (mp : gmap string R) (rv pz : list R)
    (normalize : bool) (wvl : R) (zd : option R) (zv : R)
  : result (ndarray float64) :=
  zd <- default_zd mp zd ;;
  cfg <- configure mp wvl ;;
  let max_rho := cfg.2 in
  psf_rz <- slow_grid (length pz) (length rv)
              (λ i j, slowGL mp max_rho (nth j rv 0) zv (nth i pz 0) wvl zd) ;;
  if normalize then
    m <- np_max psf_rz ;;
    Ok (nd_map (λ x, (x / m)%f64) psf_rz)
  else Ok psf_rz.

End Engine.

(** ** The last two steps of [gLZRScan], on their own

    The radial transform (lines 211 to 213) and the intensity (lines 217 to
    223) as functions of the values they read, so that a statement can be
    about the arrays [scaling_factor], [b] and [C] that reach them;
    [gLZRScan_blocks] shows that [gLZRScan] ends with the two. *)

Section Blocks.

Context {lib : NumLib}.

(** [denom = scaling_factor * scaling_factor - b * b], the numerator [R]
    of the closed form, and [R /= denom]. *)
Definition radial_transform (scaling_factor b : value) (max_rho : R)
  : result value :=
  denom <- (scaling_factor * scaling_factor - b * b)%py ;;
  Rt <- (scaling_factor * np_apply j1 (scaling_factor * max_rho)
           * np_apply j0 (b * max_rho) * max_rho
         - b * np_apply j0 (scaling_factor * max_rho)
           * np_apply j1 (b * max_rho) * max_rho)%py ;;
  val_iop Div Rt denom.

(** [PSF_rz = (numpy.abs(R.dot(C))**2).T], divided by its greatest value
    when [normalize] is set. *)
Definition intensity_grid (Rt : value) (C : ndarray complex128)
    (normalize : bool) : result (ndarray float64) :=
  RC <- np_dot (to_np Rt) C ;;
  let PSF_rz := transpose (nd_map (λ z, (c_abs z * c_abs z)%f64) RC) in
  if normalize then
    m <- np_max PSF_rz ;;
    Ok (nd_map (λ x, (x / m)%f64) PSF_rz)
  else Ok PSF_rz.

End Blocks.

(** ** The radial transform, item by item

    The quantities of the radial engine for one basis index m (from 0),
    one radius sample rv_j and the camera position zd: the scaling factor,
    the wavenumber k, the aperture radius a, the defocus term
    b = k a (rv_j M) / zd, and the closed-form transform
    R = [sf J1(sf mr) J0(b mr) mr - b J0(sf mr) J1(b mr) mr] / (sf^2 - b^2);
    then the intensity |sum_m R_m C_m|^2 for the coefficients C of one
    axial sample. *)

Definition engine_sf (p : params) (wvl : R) (m : nat) : R :=
  p_NA p * (3 * INR (1 + m) - 2) * 0.436 / wvl.

Definition engine_k (wvl : R) : R := 2.0 * PI / wvl.

Definition engine_a (p : params) : R :=
  p_NA p * p_zd0 p / sqrt (p_M p * p_M p + p_NA p * p_NA p).

Definition engine_b (p : params) (wvl zd rv_j : R) : float64 :=
  (Val (engine_k wvl * engine_a p) * Val (rv_j * p_M p) / Val zd)%f64.

Definition radial_item `{NumLib} (sf b : float64) (max_rho : R) : float64 :=
  ((sf * f64_lift j1 (sf * Val max_rho) * f64_lift j0 (b * Val max_rho)
       * Val max_rho
    - b * f64_lift j0 (sf * Val max_rho) * f64_lift j1 (b * Val max_rho)
       * Val max_rho)
   / (sf * sf - b * b))%f64.

Definition psf_item (Rrow : nat → float64) (Ccol : nat → complex128) : float64 :=
  let z := foldl c_add (Val 0, Val 0)
             ((λ l, c_mul (c_of_real (Rrow l)) (Ccol l)) <$> seq 0 num_basis) in
  (c_abs z * c_abs z)%f64.

(** What the engine needs of a parameter set: a positive NA, refractive
    indices that are not negative, M and zd0 not zero.  Every physical
    parameter set, with all its values positive, has this. *)
Definition valid_params (p : params) : Prop :=
  0 < p_NA p ∧ p_M p ≠ 0 ∧ p_zd0 p ≠ 0 ∧
  0 <= p_ng0 p ∧ 0 <= p_ng p ∧ 0 <= p_ni0 p ∧ 0 <= p_ni p ∧ 0 <= p_ns p.

(** ** The phase aberration as the specification states it

    For one pupil sample rho and one axial sample (ti, pz, zd):
    k (OPD_sample + OPD_immersion + OPD_coverslip + OPD_defocus), with
    k = 2 pi / wvl and the aperture radius a = NA zd0 / M. *)

Section OPD_spec.

Variables (p : params) (wvl : R) (rho ti pz zd : float64).

Definition spec_k : R := 2 * PI / wvl.

Definition spec_a : R := p_NA p * p_zd0 p / p_M p.

Definition spec_root (n : R) : float64 :=
  f64_sqrt (Val (n ^ 2) - Val (p_NA p ^ 2) * (rho * rho))%f64.

Definition OPD_sample : float64 := (pz * spec_root (p_ns p))%f64.

Definition OPD_immersion : float64 :=
  (ti * spec_root (p_ni p) - Val (p_ti0 p) * spec_root (p_ni0 p))%f64.

Definition OPD_coverslip : float64 :=
  (Val (p_tg p) * spec_root (p_ng p) - Val (p_tg0 p) * spec_root (p_ng0 p))%f64.

Definition OPD_defocus : float64 :=
  (Val (spec_a ^ 2) * (Val (p_zd0 p) - zd) * (rho * rho)
     / (Val (2 * p_zd0 p) * zd))%f64.

Definition OPD_spec : float64 :=
  (Val spec_k * (OPD_sample + OPD_immersion + OPD_coverslip + OPD_defocus))%f64.

End OPD_spec.

(** ** Quantities that the statements and the proofs name *)

(** The item of an array at an index of a shape it broadcasts to. *)
Definition bitem {A} (a : ndarray A) (i j : nat) : A :=
  item a (bidx (nrows a) i) (bidx (ncols a) j).

Definition is_np (v : value) : Prop :=
  match v with Np _ => True | PyFloat _ => False end.

(** [evals np e d r c g]: the expression [e] evaluates without raising, to
    a value of rank d and shape (r, c) whose item at an index (i, j) of any
    shape it broadcasts to is [g i j]; the value is an array when [np] is
    set. *)
Definition evals (np : bool) (e : result value) (d r c : nat)
    (g : nat → nat → float64) : Prop :=
  ∃ v, e = Ok v ∧ (np = true → is_np v) ∧
       ndim (to_np v) = d ∧ nrows (to_np v) = r ∧ ncols (to_np v) = c ∧
       ∀ i j, (bidx r i < r)%nat → (bidx c j < c)%nat → bitem (to_np v) i j = g i j.

(** The items that [OPD] computes, operation by operation. *)
Definition OPD_item (p : params) (wvl : R) (rho ti pz zd : float64) : float64 :=
  let NA := p_NA p in
  let a := NA * p_zd0 p / p_M p in
  let k := 2.0 * PI / wvl in
  let root n := f64_sqrt (Val n * Val n - Val NA * Val NA * rho * rho)%f64 in
  let OPDs := (pz * root (p_ns p))%f64 in
  let OPDi := (ti * root (p_ni p) - Val (p_ti0 p) * root (p_ni0 p))%f64 in
  let OPDg := (Val (p_tg p) * root (p_ng p) - Val (p_tg0 p) * root (p_ng0 p))%f64 in
  let OPDt := (Val a * Val a * (Val (p_zd0 p) - zd) * rho * rho
               / (Val 2.0 * Val (p_zd0 p) * zd))%f64 in
  (Val k * (OPDs + OPDi + OPDg + OPDt))%f64.

(** The least of the six values that [configure] compares. *)
Definition min6 (p : params) : R :=
  Rmin (Rmin (Rmin (Rmin (Rmin (p_NA p) (p_ng0 p)) (p_ng p)) (p_ni0 p)) (p_ni p))
       (p_ns p).

(** The number of radius samples: ceil (2 (sqrt (xy_size^2 / 2) + 1)). *)
Definition rv_size (xy_size : Z) : nat :=
  Z.to_nat (ceil (2 * (sqrt (0.5 * IZR xy_size * IZR xy_size) + 1))).

(** The order of the samples of an interpolation, by abscissa. *)
Definition pt_lt (p q : R * float64) : Prop := p.1 < q.1.

Definition c_nan : complex128 := (NaNInf, NaNInf).
Definition c_zero : complex128 := (Val 0, Val 0).

(** The defocus term b, when the camera position is not zero. *)
Definition engine_b_real (p : params) (wvl zd rv_j : R) : R :=
  engine_k wvl * engine_a p * (rv_j * p_M p) / zd.

(** A relative margin for the radicand [n*n - NA*NA*rho*rho] of [OPD].
    float64 rounds each of its products and the difference by 2^-53 at
    most, relatively; 2^-50 covers them, so that on either side of the
    margin the sign of the radicand is the same with and without
    rounding. *)
Definition radicand_margin : R := / 2 ^ 50.

(** The pupil sample x is inside the pupil of a medium of index n by the
    margin; and outside of it by the margin. *)
Definition inside_pupil (NA x n : R) : Prop :=
  (NA * x) ^ 2 * (1 + radicand_margin) <= n ^ 2.

Definition outside_pupil (NA x n : R) : Prop :=
  n ^ 2 * (1 + radicand_margin) < (NA * x) ^ 2.

(** The oil-immersion objective over a sample medium of index 0: max_rho,
    and with it the whole pupil, is 0. *)
Definition dark_params : params :=
  {| p_NA := 1.4; p_M := 100; p_ng0 := 1.515; p_ng := 1.515;
     p_ni0 := 1.515; p_ni := 1.515; p_ns := 0;
     p_ti0 := 150; p_tg := 170; p_tg0 := 170; p_zd0 := 150000 |}.

(** A statement about the engine over every library that meets the
    contract. *)
Definition for_every_lib (P : NumLib → Prop) : Prop := ∀ lib : NumLib, P lib.

(** The call [r] raises nothing and returns a grid of the shape of [g]
    in which every item is not a number. *)
Definition returns_nan_grid (g : ndarray float64)
    (r : result (ndarray float64)) : Prop :=
  ∃ g', r = Ok g' ∧
    ndim g' = ndim g ∧ nrows g' = nrows g ∧ ncols g' = ncols g ∧
    ∀ i j, item g' i j = NaNInf.

(** The keys in the order in which [OPD] and [configure] read them. *)
Definition OPD_keys : list string :=
  ["NA"; "ns"; "ng0"; "ng"; "ni0"; "ni"; "ti0"; "tg"; "tg0"; "zd0"; "M"]%string.

Definition configure_keys : list string :=
  ["NA"; "ng0"; "ng"; "ni0"; "ni"; "ns"]%string.

(** [key] is the first key of the list [keys] that the dictionary lacks. *)
Definition first_missing (mp : gmap string R) (keys : list string)
    (key : string) : Prop :=
  ∃ before after, keys = before ++ key :: after ∧
    Forall (λ k, is_Some (mp !! k)) before ∧ mp !! key = None.


(** ** The contract of the libraries can be met

    A library whose least-squares solution is always zero and whose
    integrator gives 0 without a look at the integrand. *)

Definition zero_lstsq (a : ndarray float64) (b : ndarray complex128)
  : result (ndarray complex128) :=
  Ok (nd2 (ncols a) (ncols b) (λ _ _, (Val 0, Val 0))).

Lemma zero_lstsq_finite a b :
  ndim a = 2%nat → ndim b = 2%nat → nrows a = nrows b →
  finite_array a → c_finite_array b →
  ∃ x, zero_lstsq a b = Ok x ∧ ndim x = 2%nat ∧ nrows x = ncols a ∧
       ncols x = ncols b ∧ c_finite_array x.
Proof.
  intros _ _ _ _ _. eexists. split; [reflexivity|]. do 3 (split; [done|]).
  intros i j _ _. split; by eexists.
Qed.

Definition trivial_lib : NumLib :=
  {| j0 := λ _, 1;
     j1 := λ _, 0;
     lstsq := zero_lstsq;
     lstsq_finite := zero_lstsq_finite;
     quad_limit := 0;
     quad_next := λ _ _ _, inr (Val 0);
     quad_finish := λ _ _ _, Val 0;
     interp1d_nonfinite := λ _ _ x_new, Ok x_new |}.

(** A second library that meets the contract: Bessel functions that are 1
    everywhere, a least-squares solution whose first row is 1 and the
    others 0, and an integrator that gives 1 without a look at the
    integrand.  With it the intensities are not all 0. *)

Definition first_row_lstsq (a : ndarray float64) (b : ndarray complex128)
  : result (ndarray complex128) :=
  Ok (nd2 (ncols a) (ncols b)
        (λ i _, if decide (i = 0%nat) then (Val 1, Val 0) else (Val 0, Val 0))).

Lemma first_row_lstsq_finite a b :
  ndim a = 2%nat → ndim b = 2%nat → nrows a = nrows b →
  finite_array a → c_finite_array b →
  ∃ x, first_row_lstsq a b = Ok x ∧ ndim x = 2%nat ∧ nrows x = ncols a ∧
       ncols x = ncols b ∧ c_finite_array x.
Proof.
  intros _ _ _ _ _. eexists. split; [reflexivity|]. do 3 (split; [done|]).
  intros i j _ _. cbn [nd2 item]. destruct (decide (i = 0%nat)); split; by eexists.
Qed.

Definition unit_lib : NumLib :=
  {| j0 := λ _, 1;
     j1 := λ _, 1;
     lstsq := first_row_lstsq;
     lstsq_finite := first_row_lstsq_finite;
     quad_limit := 0;
     quad_next := λ _ _ _, inr (Val 1);
     quad_finish := λ _ _ _, Val 1;
     interp1d_nonfinite := λ _ _ x_new, Ok x_new |}.

(** ** The module on a store

    The functions once more, on mutable objects.  The Python objects that
    a caller can share with the module are in a store: the dictionary of
    parameters and the real arrays.  An array object is a reference: the
    location of a buffer, and the views (reshape, transpose, row) through
    which the buffer is read and written.  A numpy operator reads its
    operands and allocates its result; a reshape or a transpose gives a
    view of the same buffer (numpy copies in some cases: a view is the
    case in which a write would reach the caller); [x op= y] writes to the
    buffer of x.  Complex arrays and Python floats are values: nothing in
    the module writes to them.  The library functions do not write to
    their arguments.  A computation takes the store and gives the store
    after it, with the value returned or the exception raised. *)

Module Heap.

Abbreviation loc := positive.

(** The objects in the store. *)
Inductive obj : Type :=
| ODict (d : gmap string R)
| OArr (a : ndarray float64).

Abbreviation store := (gmap loc obj).

(** [a.reshape(-1, 1)], [a.T] and [a[i, :]]. *)
Inductive view : Type :=
| VReshapeCol
| VTranspose
| VRow (i : nat).

Record ref : Type := Ref { base : loc; views : list view }.

(** What a view shows of its base, and the base after a write through
    the view. *)
Definition view_get (v : view) (a : ndarray float64) : ndarray float64 :=
  match v with
  | VReshapeCol => reshape_col a
  | VTranspose => transpose a
  | VRow i => nd1 (ncols a) (λ j, item a i j)
  end.

Definition view_put (v : view) (a new : ndarray float64) : ndarray float64 :=
  match v with
  | VReshapeCol =>
      NdArray (ndim a) (nrows a) (ncols a) (λ i j, item new (i * ncols a + j) 0)
  | VTranspose => transpose new
  | VRow k =>
      NdArray (ndim a) (nrows a) (ncols a)
        (λ i j, if decide (i = k) then item new 0 j else item a i j)
  end.

Fixpoint get_through (vs : list view) (a : ndarray float64) : ndarray float64 :=
  match vs with
  | [] => a
  | v :: vs' => get_through vs' (view_get v a)
  end.

Fixpoint put_through (vs : list view) (a new : ndarray float64) : ndarray float64 :=
  match vs with
  | [] => new
  | v :: vs' => view_put v a (put_through vs' (view_get v a) new)
  end.

(** Computations on the store. *)
Definition M (A : Type) : Type := store → store * result A.

Definition ret {A} (a : A) : M A := λ σ, (σ, Ok a).

Definition mbind {A B} (m : M A) (k : A → M B) : M B :=
  λ σ, match m σ with
       | (σ', Ok a) => k a σ'
       | (σ', Raise e) => (σ', Raise e)
       end.

Notation "x <~ m ;; k" := (mbind m (λ x, k))
  (at level 100, m at next level, right associativity).

(** A computation that does not touch the store. *)
Definition lift {A} (r : result A) : M A := λ σ, (σ, r).

(** A new array, at a location that the store does not use. *)
Definition alloc (a : ndarray float64) : M ref :=
  λ σ, let l := fresh (dom σ) in (<[l := OArr a]> σ, Ok (Ref l [])).

Definition load (h : ref) : M (ndarray float64) :=
  λ σ, match σ !! base h with
       | Some (OArr a) => (σ, Ok (get_through (views h) a))
       | _ => (σ, Raise TypeError)
       end.

Definition store_through (h : ref) (new : ndarray float64) : M unit :=
  λ σ, match σ !! base h with
       | Some (OArr a) =>
           (<[base h := OArr (put_through (views h) a new)]> σ, Ok tt)
       | _ => (σ, Raise TypeError)
       end.

(** [mp[key]] *)
Definition dict_get (mp : loc) (key : string) : M R :=
  λ σ, match σ !! mp with
       | Some (ODict d) => (σ, getitem d key)
       | _ => (σ, Raise TypeError)
       end.

(** An operand: a Python float, or a reference to an array. *)
Inductive hvalue : Type :=
| HFloat (x : R)
| HArr (h : ref).

(** The value of an operand in the store, and a new object for a value. *)
Definition h_val (v : hvalue) : M value :=
  match v with
  | HFloat x => ret (PyFloat x)
  | HArr h => a <~ load h ;; ret (Np a)
  end.

Definition h_new (v : value) : M hvalue :=
  match v with
  | PyFloat x => ret (HFloat x)
  | Np a => h <~ alloc a ;; ret (HArr h)
  end.

(** A numpy operator: operands read, the result in a new array. *)
Definition h_op (op : binop) (a b : M hvalue) : M hvalue :=
  x <~ a ;; y <~ b ;;
  vx <~ h_val x ;; vy <~ h_val y ;;
  r <~ lift (val_op op vx vy) ;;
  h_new r.

Definition h_sqrt (e : M hvalue) : M hvalue :=
  x <~ e ;; v <~ h_val x ;; r <~ lift (np_sqrt (Ok v)) ;; h_new r.

Definition h_apply (f : R → R) (e : M hvalue) : M hvalue :=
  x <~ e ;; v <~ h_val x ;; r <~ lift (np_apply f (Ok v)) ;; h_new r.

(** A view of an array: the same buffer. *)
Definition h_view (w : view) (e : M hvalue) : M hvalue :=
  x <~ e ;;
  match x with
  | HFloat _ => lift (Raise AttributeError)
  | HArr h => ret (HArr (Ref (base h) (views h ++ [w])))
  end.

Definition same_shape (a b : ndarray float64) : Prop :=
  ndim a = ndim b ∧ nrows a = nrows b ∧ ncols a = ncols b.

(** [x op= y]: on an array, the result is written to the buffer of x. *)
Definition h_iop (op : binop) (x y : hvalue) : M hvalue :=
  match x with
  | HFloat u =>
      vy <~ h_val y ;; r <~ lift (val_op op (PyFloat u) vy) ;; h_new r
  | HArr h =>
      a <~ load h ;; vy <~ h_val y ;;
      c <~ lift (np_zip (f64_op op) a (to_np vy)) ;;
      _ <~ lift (if decide (same_shape c a) then Ok tt else Raise ValueError) ;;
      _ <~ store_through h c ;;
      ret (HArr h)
  end.

Definition hlit (x : R) : M hvalue := ret (HFloat x).
Definition hvar (v : hvalue) : M hvalue := ret v.

Declare Scope hpy_scope.
Delimit Scope hpy_scope with hpy.
Bind Scope hpy_scope with M.
Notation "a + b" := (h_op Add a b) : hpy_scope.
Notation "a - b" := (h_op Sub a b) : hpy_scope.
Notation "a * b" := (h_op Mul a b) : hpy_scope.
Notation "a / b" := (h_op Div a b) : hpy_scope.
Coercion hlit : R >-> M.
Coercion hvar : hvalue >-> M.

(** [for i in range(n)] *)
Fixpoint h_for {A} (f : nat → M A) (start n : nat) : M (list A) :=
  match n with
  | O => ret []
  | S n' => x <~ f start ;; l <~ h_for f (S start) n' ;; ret (x :: l)
  end.

Definition OPD (mp : loc) (rho ti pz : hvalue) (wvl : R) (zd : hvalue)
  : M hvalue :=
  NA <~ dict_get mp "NA" ;;
  ns <~ dict_get mp "ns" ;;
  ng0 <~ dict_get mp "ng0" ;;
  ng <~ dict_get mp "ng" ;;
  ni0 <~ dict_get mp "ni0" ;;
  ni <~ dict_get mp "ni" ;;
  ti0 <~ dict_get mp "ti0" ;;
  tg <~ dict_get mp "tg" ;;
  tg0 <~ dict_get mp "tg0" ;;
  zd0 <~ dict_get mp "zd0" ;;
  M <~ dict_get mp "M" ;;
  a <~ lift (py_op Div (NA * zd0) M) ;;
  k <~ lift (py_op Div (2.0 * PI) wvl) ;;
  OPDs <~ (pz * h_sqrt (ns * ns - NA * NA * rho * rho))%hpy ;;
  OPDi <~ (ti * h_sqrt (ni * ni - NA * NA * rho * rho)
          - ti0 * h_sqrt (ni0 * ni0 - NA * NA * rho * rho))%hpy ;;
  OPDg <~ (tg * h_sqrt (ng * ng - NA * NA * rho * rho)
          - tg0 * h_sqrt (ng0 * ng0 - NA * NA * rho * rho))%hpy ;;
  OPDt <~ (a * a * (zd0 - zd) * rho * rho / (2.0 * zd0 * zd))%hpy ;;
  (k * (OPDs + OPDi + OPDg + OPDt))%hpy.


Definition configure (mp : loc) (wvl : R) : M (hvalue * R) :=
  let min_wavelength := 0.436 in
  NA <~ dict_get mp "NA" ;;
  ar <~ h_new (Np (np_array ((λ i, INR i) <$> seq 1 num_basis))) ;;
  scaling_factor <~ (NA * (3 * ar - 2) * min_wavelength / wvl)%hpy ;;
  NA <~ dict_get mp "NA" ;;
  ng0 <~ dict_get mp "ng0" ;;
  ng <~ dict_get mp "ng" ;;
  ni0 <~ dict_get mp "ni0" ;;
  ni <~ dict_get mp "ni" ;;
  ns <~ dict_get mp "ns" ;;
  m <~ lift (py_min [NA; ng0; ng; ni0; ni; ns]) ;;
  NA' <~ dict_get mp "NA" ;;
  max_rho <~ lift (py_op Div m NA') ;;
  ret (scaling_factor, max_rho).

Definition calcRv (dxy : R) (xy_size : Z) (sampling : R) : M ref :=
  rv <~ lift (calcRv dxy xy_size sampling) ;;
  alloc (np_array rv).

(** The abscissae of an interpolation, when all are finite. *)
Definition finite_samples (l : list float64) : option (list R) :=
  mapM (λ v, match v with Val x => Some x | NaNInf => None end) l.

(** [vol[i, :, :]], a slice of a volume kept as the list of its slices. *)
Definition slice_of (vol : list ref) (i : nat) : M ref :=
  lift (match vol !! i with
        | Some s => Ok s
        | None => Raise IndexError
        end).

Section Engine.
Context {lib : NumLib}.

Definition interp1d_arr (x : ndarray float64) (y : list float64)
  : result (list float64 → result (list float64)) :=
  if decide (ndim x = 1%nat) then
    match finite_samples (row x 0) with
    | Some xs => interp1d xs y
    | None => Ok (interp1d_nonfinite (row x 0) y)
    end
  else Raise ValueError.

(** The right-hand side of [PSF_xyz[i,:,:] = ...]: the row i of the
    radial grid, interpolated at the pixel radii. *)
Definition interp_row (n : nat) (rv PSF_rz : ref) (r_pixel : hvalue) (i : nat)
  : M (ndarray float64) :=
  P <~ load PSF_rz ;;
  _ <~ lift (if decide (ndim P = 2%nat) then Ok tt else Raise IndexError) ;;
  x <~ load rv ;;
  y <~ load (Ref (base PSF_rz) (views PSF_rz ++ [VRow i])) ;;
  psf_rz_interp <~ lift (interp1d_arr x (row y 0)) ;;
  rp <~ h_val r_pixel ;;
  y_new <~ lift (psf_rz_interp (ravel (to_np rp))) ;;
  ret (reshape2 n n y_new).

Definition psfRZToPSFXYZ (dxy : R) (xy_size : Z) (rv PSF_rz : ref)
  : M (list ref) :=
  let c_xy := IZR xy_size * 0.5 in
  let n := Z.to_nat xy_size in
  _ <~ lift (if (xy_size <? 0)%Z then Raise ValueError else Ok tt) ;;
  xy0 <~ h_new (Np (nd2 n n (λ i _, Val (INR i + 0.5)))) ;;
  xy1 <~ h_new (Np (nd2 n n (λ _ j, Val (INR j + 0.5)))) ;;
  r_pixel <~ (dxy * h_sqrt ((xy1 - c_xy) * (xy1 - c_xy)
                            + (xy0 - c_xy) * (xy0 - c_xy)))%hpy ;;
  P <~ load PSF_rz ;;
  n_z <~ lift (match ndim P with
               | 0%nat => Raise IndexError
               | 1%nat => Ok (ncols P)
               | _ => Ok (nrows P)
               end) ;;
  PSF_xyz <~ h_for (λ _, alloc (nd2 n n (λ _ _, Val 0))) 0 n_z ;;
  _ <~ h_for
         (λ i,
            g <~ interp_row n rv PSF_rz r_pixel i ;;
            slice <~ slice_of PSF_xyz i ;;
            store_through slice g)
         0 n_z ;;
  ret PSF_xyz.

Definition gLZRScan (mp : loc) (pz rv zd zv : ref) (normalize : bool) (wvl : R)
  : M ref :=
  cfg <~ configure mp wvl ;;
  let scaling_factor := cfg.1 in
  let max_rho := cfg.2 in
  rho <~ h_new (Np (np_array (linspace 0.0 max_rho rho_samples))) ;;
  NA <~ dict_get mp "NA" ;;
  zd0 <~ dict_get mp "zd0" ;;
  M <~ dict_get mp "M" ;;
  s <~ lift (math_sqrt (M * M + NA * NA)) ;;
  a <~ lift (py_op Div (NA * zd0) s) ;;
  k <~ lift (py_op Div (2.0 * PI) wvl) ;;
  ti0 <~ dict_get mp "ti0" ;;
  ti <~ (h_view VReshapeCol (HArr zv) + ti0)%hpy ;;
  pz <~ h_view VReshapeCol (HArr pz) ;;
  zd <~ h_view VReshapeCol (HArr zd) ;;
  opdt <~ OPD mp rho ti pz wvl zd ;;
  opdt_v <~ h_val opdt ;;
  let phase :=
    nd_map (λ x, c_exp (c_mul (Val 0, Val 1) (c_of_real x))) (to_np opdt_v) in
  J <~ h_apply j0 (h_view VReshapeCol scaling_factor * rho)%hpy ;;
  J_v <~ h_val J ;;
  C <~ lift (lstsq (transpose (to_np J_v)) (transpose phase)) ;;
  M <~ dict_get mp "M" ;;
  rv <~ (HArr rv * M)%hpy ;;
  b <~ (k * a * h_view VReshapeCol rv / zd)%hpy ;;
  denom <~ (scaling_factor * scaling_factor - b * b)%hpy ;;
  Rt <~ (scaling_factor * h_apply j1 (scaling_factor * max_rho)
           * h_apply j0 (b * max_rho) * max_rho
         - b * h_apply j0 (scaling_factor * max_rho)
           * h_apply j1 (b * max_rho) * max_rho)%hpy ;;
  Rt <~ h_iop Div Rt denom ;;
  R_v <~ h_val Rt ;;
  RC <~ lift (np_dot (to_np R_v) C) ;;
  sq <~ alloc (nd_map (λ z, (c_abs z * c_abs z)%f64) RC) ;;
  let PSF_rz := Ref (base sq) (views sq ++ [VTranspose]) in
  if normalize then
    g <~ load PSF_rz ;;
    m <~ lift (np_max g) ;;
    m <~ alloc (nd0 m) ;;
    _ <~ h_iop Div (HArr PSF_rz) (HArr m) ;;
    ret PSF_rz
  else ret PSF_rz.

Definition default_zd (mp : loc) (zd : option R) : M R :=
  match zd with
  | None => dict_get mp "zd0"
  | Some z => ret z
  end.

Definition gLZRCameraScan (mp : loc) (rv zd : ref) (normalize : bool)
    (pz wvl zv : R) : M ref :=
  pz <~ alloc (np_array [pz]) ;;
  zv <~ alloc (np_array [zv]) ;;
  gLZRScan mp pz rv zd zv normalize wvl.

Definition gLZRFocalScan (mp : loc) (rv zv : ref) (normalize : bool)
    (pz wvl : R) (zd : option R) : M ref :=
  zd <~ default_zd mp zd ;;
  pz <~ alloc (np_array [pz]) ;;
  zd <~ alloc (np_array [zd]) ;;
  gLZRScan mp pz rv zd zv normalize wvl.

Definition gLZRParticleScan (mp : loc) (rv pz : ref) (normalize : bool)
    (wvl : R) (zd : option R) (zv : R) : M ref :=
  zd <~ default_zd mp zd ;;
  zd <~ alloc (np_array [zd]) ;;
  zv <~ alloc (np_array [zv]) ;;
  gLZRScan mp pz rv zd zv normalize wvl.

Definition gLXYZCameraScan (mp : loc) (dxy : R) (xy_size : Z) (zd : ref)
    (normalize : bool) (pz wvl zv : R) : M (list ref) :=
  rv <~ calcRv dxy xy_size 2 ;;
  PSF_rz <~ gLZRCameraScan mp rv zd normalize pz wvl zv ;;
  psfRZToPSFXYZ dxy xy_size rv PSF_rz.

Definition gLXYZFocalScan (mp : loc) (dxy : R) (xy_size : Z) (zv : ref)
    (normalize : bool) (pz wvl : R) (zd : option R) : M (list ref) :=
  rv <~ calcRv dxy xy_size 2 ;;
  PSF_rz <~ gLZRFocalScan mp rv zv normalize pz wvl zd ;;
  psfRZToPSFXYZ dxy xy_size rv PSF_rz.

Definition gLXYZParticleScan (mp : loc) (dxy : R) (xy_size : Z) (pz : ref)
    (normalize : bool) (wvl : R) (zd : option R) (zv : R) : M (list ref) :=
  rv <~ calcRv dxy xy_size 2 ;;
  PSF_rz <~ gLZRParticleScan mp rv pz normalize wvl zd zv ;;
  psfRZToPSFXYZ dxy xy_size rv PSF_rz.

Fixpoint quad_loop (fuel : nat) (f : R → M float64) (a b : R)
    (seen : list (R * float64)) : M float64 :=
  match fuel with
  | O => ret (quad_finish a b seen)
  | S fuel' =>
      match quad_next a b seen with
      | inl x => y <~ f x ;; quad_loop fuel' f a b (seen ++ [(x, y)])
      | inr estimate => ret estimate
      end
  end.

Definition quad (f : R → M float64) (a b : R) : M float64 :=
  quad_loop quad_limit f a b [].

Definition slowGL_t3 (mp : loc) (k a rv ti pz wvl zd rho : R) : M complex128 :=
  t1 <~ lift (py_op Div (k * a * rho * rv) zd) ;;
  let t2 := Val (j0 t1) in
  opd <~ OPD mp (HFloat rho) (HFloat ti) (HFloat pz) wvl (HFloat zd) ;;
  opd_v <~ h_val opd ;;
  let phase := c_exp (c_mul (Val 0, Val 1) (c_of_real (item (to_np opd_v) 0 0))) in
  ret (c_mul (c_mul (c_of_real t2) phase) (c_of_real (Val rho))).

Definition slowGL (mp : loc) (max_rho rv zv pz wvl zd : R) : M float64 :=
  NA <~ dict_get mp "NA" ;;
  zd0 <~ dict_get mp "zd0" ;;
  M <~ dict_get mp "M" ;;
  s <~ lift (math_sqrt (M * M + NA * NA)) ;;
  a <~ lift (py_op Div (NA * zd0) s) ;;
  k <~ lift (py_op Div (2.0 * PI) wvl) ;;
  ti0 <~ dict_get mp "ti0" ;;
  let ti := zv + ti0 in
  M <~ dict_get mp "M" ;;
  let rv := rv * M in
  let integral_fn_imag rho :=
    (t3 <~ slowGL_t3 mp k a rv ti pz wvl zd rho ;; ret t3.2) in
  let integral_fn_real rho :=
    (t3 <~ slowGL_t3 mp k a rv ti pz wvl zd rho ;; ret t3.1) in
  int_i <~ quad integral_fn_imag 0.0 max_rho ;;
  int_r <~ quad integral_fn_real 0.0 max_rho ;;
  t1 <~ lift (py_op Div (k * a * a) (zd * zd)) ;;
  ret (Val t1 * (int_r * int_r + int_i * int_i))%f64.

End Engine.

(** ** The frame

    A reference is fresh for a store when its buffer is not in the store.
    [keeps_store m fresh]: from any store, the computation [m] leaves
    every object of the store at its location and with its value, whether
    it returns or raises, and what it returns is fresh for that store.
    [frames] is the same from any store that extends a first store. *)

Definition fresh_ref (σ : store) (h : ref) : Prop := base h ∉ dom σ.

Definition fresh_value (σ : store) (v : hvalue) : Prop :=
  match v with
  | HFloat _ => True
  | HArr h => fresh_ref σ h
  end.

Definition no_ref {A} (σ : store) (a : A) : Prop := True.

Definition keeps_store {A} (m : M A) (fresh : store → A → Prop) : Prop :=
  ∀ σ,
    (∀ l o, σ !! l = Some o → (m σ).1 !! l = Some o) ∧
    (∀ a, (m σ).2 = Ok a → fresh σ a).

Definition frames {A} (σ0 : store) (m : M A) (Q : A → Prop) : Prop :=
  ∀ σ, σ0 ⊆ σ → σ0 ⊆ (m σ).1 ∧ ∀ a, (m σ).2 = Ok a → Q a.

(** ** The store version and the functions

    [holds σ hv v]: in the store σ the operand hv reads as the value v.
    [refines rel σ1 m e]: from any store that extends σ1, the computation
    m only adds objects to the store, and it raises the exception that the
    expression e raises, or returns what e returns, up to rel.  [agrees]
    is the same without the first part, for computations that write in
    place.  [arr_equiv] is the equality of two arrays, item by item inside
    their common shape. *)

Definition holds (σ : store) (hv : hvalue) (v : value) : Prop :=
  match hv, v with
  | HFloat x, PyFloat y => x = y
  | HArr h, Np a =>
      ∃ b, σ !! base h = Some (OArr b) ∧ get_through (views h) b = a
  | _, _ => False
  end.

(** A reference to a whole buffer, not a view of one. *)
Definition plain (hv : hvalue) : Prop :=
  match hv with
  | HFloat _ => True
  | HArr h => views h = []
  end.

Definition owns (σ : store) (hv : hvalue) (v : value) : Prop :=
  holds σ hv v ∧ plain hv.

Definition arr_equiv (a b : ndarray float64) : Prop :=
  ndim a = ndim b ∧ nrows a = nrows b ∧ ncols a = ncols b ∧
  ∀ i j, (i < nrows a)%nat → (j < ncols a)%nat → item a i j = item b i j.

Definition holds_grid (σ : store) (h : ref) (g : ndarray float64) : Prop :=
  ∃ g', holds σ (HArr h) (Np g') ∧ arr_equiv g' g.

Definition same {A} (σ : store) (x y : A) : Prop := x = y.

Definition outcome {A B} (rel : store → A → B → Prop)
    (x : store * result A) (e : result B) : Prop :=
  match e with
  | Ok b => ∃ a, x.2 = Ok a ∧ rel x.1 a b
  | Raise err => x.2 = Raise err
  end.

Definition refines {A B} (rel : store → A → B → Prop) (σ1 : store)
    (m : M A) (e : result B) : Prop :=
  ∀ σ, σ1 ⊆ σ → σ ⊆ (m σ).1 ∧ outcome rel (m σ) e.

Definition agrees {A B} (rel : store → A → B → Prop) (σ1 : store)
    (m : M A) (e : result B) : Prop :=
  ∀ σ, σ1 ⊆ σ → outcome rel (m σ) e.

Definition stable {A B} (rel : store → A → B → Prop) : Prop :=
  ∀ σ σ' a b, σ ⊆ σ' → rel σ a b → rel σ' a b.

Definition holds_cfg (σ : store) (c : hvalue * R) (c' : value * R) : Prop :=
  holds σ c.1 c'.1 ∧ c.2 = c'.2.

(** A volume, kept as the list of the references to its slices, shows
    the list of the slices. *)
Definition holds_volume (σ : store) (hs : list ref)
    (gs : list (ndarray float64)) : Prop :=
  Forall2 (λ h g, holds σ (HArr h) (Np g)) hs gs.

End Heap.

(* ================================================================= *)
(** * Part II: lemmas and theorems *)
(* ================================================================= *)

(** ** The ceiling *)

Lemma ceil_spec x : IZR (ceil x) - 1 < x <= IZR (ceil x).
Proof.
  unfold ceil. destruct (archimed (- x)) as [H1 H2].
  rewrite minus_IZR. lra.
Qed.

Lemma ceil_pos x : 0 < x → (0 < ceil x)%Z.
Proof.
  intros Hx. destruct (ceil_spec x) as [_ H].
  apply lt_IZR. lra.
Qed.

Lemma ceil_unique x n : IZR n - 1 < x <= IZR n → ceil x = n.
Proof.
  intros [H1 H2]. destruct (ceil_spec x) as [H3 H4].
  assert (IZR (ceil x) < IZR n + 1) as H5 by lra.
  assert (IZR n < IZR (ceil x) + 1) as H6 by lra.
  rewrite <- plus_IZR in H5, H6. apply lt_IZR in H5, H6. lia.
Qed.

(** ** Python operations that succeed *)

Lemma py_div_ok x y : y ≠ 0 → py_op Div x y = Ok (x / y).
Proof. intros. unfold py_op. by destruct (Req_dec_T y 0). Qed.

Lemma math_sqrt_ok x : 0 <= x → math_sqrt x = Ok (sqrt x).
Proof. intros. unfold math_sqrt. destruct (Rlt_dec x 0); [lra|done]. Qed.

Lemma getitem_NA p : getitem (dict_of p) "NA" = Ok (p_NA p).
Proof. reflexivity. Qed.
Lemma getitem_M p : getitem (dict_of p) "M" = Ok (p_M p).
Proof. reflexivity. Qed.
Lemma getitem_ng0 p : getitem (dict_of p) "ng0" = Ok (p_ng0 p).
Proof. reflexivity. Qed.
Lemma getitem_ng p : getitem (dict_of p) "ng" = Ok (p_ng p).
Proof. reflexivity. Qed.
Lemma getitem_ni0 p : getitem (dict_of p) "ni0" = Ok (p_ni0 p).
Proof. reflexivity. Qed.
Lemma getitem_ni p : getitem (dict_of p) "ni" = Ok (p_ni p).
Proof. reflexivity. Qed.
Lemma getitem_ns p : getitem (dict_of p) "ns" = Ok (p_ns p).
Proof. reflexivity. Qed.
Lemma getitem_ti0 p : getitem (dict_of p) "ti0" = Ok (p_ti0 p).
Proof. reflexivity. Qed.
Lemma getitem_tg p : getitem (dict_of p) "tg" = Ok (p_tg p).
Proof. reflexivity. Qed.
Lemma getitem_tg0 p : getitem (dict_of p) "tg0" = Ok (p_tg0 p).
Proof. reflexivity. Qed.
Lemma getitem_zd0 p : getitem (dict_of p) "zd0" = Ok (p_zd0 p).
Proof. reflexivity. Qed.

Ltac getitems :=
  rewrite ?getitem_NA, ?getitem_M, ?getitem_ng0, ?getitem_ng, ?getitem_ni0,
    ?getitem_ni, ?getitem_ns, ?getitem_ti0, ?getitem_tg, ?getitem_tg0,
    ?getitem_zd0;
  cbn [bind].

(** ** Broadcasting *)

Lemma bdim_same n : bdim n n = Ok n.
Proof. unfold bdim. by rewrite decide_True. Qed.

Lemma bdim_1_l n : bdim 1 n = Ok n.
Proof.
  unfold bdim. destruct (decide (1%nat = n)); [by subst|]. by rewrite decide_True.
Qed.

Lemma bdim_1_r n : bdim n 1 = Ok n.
Proof.
  unfold bdim. destruct (decide (n = 1%nat)); [done|]. by rewrite decide_True.
Qed.

Lemma bdim_inv n m k :
  bdim n m = Ok k → (n = m ∧ k = n) ∨ (n = 1%nat ∧ k = m) ∨ (m = 1%nat ∧ k = n).
Proof. unfold bdim. repeat case_decide; intros [=]; subst; auto. Qed.

Lemma bidx_1 i : bidx 1 i = 0%nat.
Proof. done. Qed.

Lemma bidx_lt n i : (i < n)%nat → bidx n i = i.
Proof. unfold bidx. case_decide; [lia|done]. Qed.

Lemma bidx_idem n i : bidx n (bidx n i) = bidx n i.
Proof. unfold bidx. by case_decide. Qed.

(** An index of the broadcast shape, read in an operand. *)
Lemma bidx_operand n m k i :
  bdim n m = Ok k → (bidx k i < k)%nat →
  (bidx n i < n)%nat ∧ (bidx m i < m)%nat ∧
  bidx n (bidx k i) = bidx n i ∧ bidx m (bidx k i) = bidx m i.
Proof.
  intros H Hi. unfold bidx in *.
  apply bdim_inv in H as [[-> ->]|[[-> ->]|[-> ->]]]; repeat case_decide; lia.
Qed.

Lemma np_zip_ok {A B C} (f : A → B → C) a b r c :
  bdim (nrows a) (nrows b) = Ok r → bdim (ncols a) (ncols b) = Ok c →
  np_zip f a b = Ok (NdArray (Nat.max (ndim a) (ndim b)) r c
                       (λ i j, f (bitem a i j) (bitem b i j))).
Proof. intros H1 H2. unfold np_zip. by rewrite H1, H2. Qed.

(** ** Evaluation of expressions *)

Lemma evals_lit x : evals false (lit x) 0 1 1 (λ _ _, Val x).
Proof. exists (PyFloat x). by repeat split. Qed.

Lemma evals_var v :
  evals false (var v) (ndim (to_np v)) (nrows (to_np v)) (ncols (to_np v))
    (bitem (to_np v)).
Proof. exists v. by repeat split. Qed.

Lemma evals_arr a : evals true (arr a) (ndim a) (nrows a) (ncols a) (bitem a).
Proof. exists (Np a). by repeat split. Qed.

Lemma evals_op op n1 n2 e1 e2 d1 r1 c1 g1 d2 r2 c2 g2 r c :
  evals n1 e1 d1 r1 c1 g1 → evals n2 e2 d2 r2 c2 g2 →
  bdim r1 r2 = Ok r → bdim c1 c2 = Ok c →
  (op ≠ Div ∨ n1 || n2 = true) →
  evals (n1 || n2) (expr_op op e1 e2) (Nat.max d1 d2) r c
    (λ i j, f64_op op (g1 i j) (g2 i j)).
Proof.
  intros (v1 & -> & K1 & D1 & R1 & C1 & I1) (v2 & -> & K2 & D2 & R2 & C2 & I2)
    Hr Hc Hop.
  assert (Hz : np_zip (f64_op op) (to_np v1) (to_np v2) = Ok
     (NdArray (Nat.max d1 d2) r c
        (λ i j, f64_op op (bitem (to_np v1) i j) (bitem (to_np v2) i j)))).
  { rewrite <- D1, <- D2. apply np_zip_ok; congruence. }
  assert (Hit : ∀ i j, (bidx r i < r)%nat → (bidx c j < c)%nat →
     f64_op op (bitem (to_np v1) (bidx r i) (bidx c j))
               (bitem (to_np v2) (bidx r i) (bidx c j)) =
     f64_op op (g1 i j) (g2 i j)).
  { intros i j Hi Hj.
    destruct (bidx_operand _ _ _ i Hr Hi) as (Hi1 & Hi2 & Ei1 & Ei2).
    destruct (bidx_operand _ _ _ j Hc Hj) as (Hj1 & Hj2 & Ej1 & Ej2).
    rewrite <- I1, <- I2 by done. unfold bitem.
    by rewrite R1, C1, R2, C2, Ei1, Ei2, Ej1, Ej2. }
  cbn [expr_op bind].
  destruct v1 as [x|a], v2 as [y|b]; cbn [val_op]; try rewrite Hz; cbn [bind].
  - destruct n1, n2; try (exfalso; first [by apply K1 | by apply K2]).
    cbn in D1, R1, C1, D2, R2, C2. subst.
    rewrite bdim_same in Hr, Hc. injection Hr as <-. injection Hc as <-.
    destruct op; try (destruct Hop as [?|?]; done); cbn [py_op bind];
      (eexists; split; [reflexivity|]; split; [done|]; split; [done|];
       split; [done|]; split; [done|];
       intros i j Hi Hj; rewrite <- (Hit i j) by done; done).
  - eexists; split; [reflexivity|]. repeat split; done.
  - eexists; split; [reflexivity|]. repeat split; done.
  - eexists; split; [reflexivity|]. repeat split; done.
Qed.

Lemma evals_iop op n2 x y d1 d2 r c g1 g2 :
  evals true (var x) d1 r c g1 → evals n2 (var y) d2 r c g2 →
  Nat.max d1 d2 = d1 →
  evals true (val_iop op x y) d1 r c (λ i j, f64_op op (g1 i j) (g2 i j)).
Proof.
  intros H1 H2 Hd.
  assert (Hop := evals_op op true n2 (var x) (var y) d1 r c g1 d2 r c g2 r c
                   H1 H2 (bdim_same r) (bdim_same c)
                   (or_intror eq_refl)).
  destruct H1 as (x' & [= <-] & K1 & D1 & R1 & C1 & _).
  destruct x as [u|a]; [by destruct K1|]. cbn [to_np] in *.
  destruct Hop as (v & E & K & Dv & Rv & Cv & Iv).
  cbn [expr_op var bind val_op to_np] in E. cbn [val_iop].
  destruct (np_zip (f64_op op) a (to_np y)) as [cc|e]; cbn [bind] in *; [|done].
  injection E as <-. cbn [to_np] in *.
  rewrite decide_True by (rewrite Dv, Rv, Cv, D1, R1, C1, Hd; done).
  exists (Np cc). split; [done|]. cbn [to_np]. rewrite Hd in Dv. done.
Qed.

Lemma evals_map (f : float64 → float64) n e d r c g :
  evals n e d r c g →
  evals true (v <- e ;; Ok (Np (nd_map f (to_np v)))) d r c (λ i j, f (g i j)).
Proof.
  intros (v & -> & K & Dd & Rr & Cc & I). cbn [bind].
  eexists; split; [reflexivity|]. repeat split; try done.
  intros i j Hi Hj. rewrite <- I by done. done.
Qed.

Lemma evals_sqrt n e d r c g :
  evals n e d r c g → evals true (np_sqrt e) d r c (λ i j, f64_sqrt (g i j)).
Proof. apply evals_map. Qed.

Lemma evals_apply f n e d r c g :
  evals n e d r c g → evals true (np_apply f e) d r c (λ i j, f64_lift f (g i j)).
Proof. apply evals_map. Qed.

(** A 1-D array reshaped to a column. *)
Lemma evals_reshape_col e d c g :
  evals true e d 1 c g → evals true (expr_reshape_col e) 2 c 1 (λ i _, g 0%nat i).
Proof.
  intros (v & -> & K & Dd & Rr & Cc & I). destruct v as [x|a]; [by destruct K|].
  cbn in Rr, Cc. cbn [expr_reshape_col bind as_array].
  eexists; split; [reflexivity|]. cbn [to_np]. repeat split.
  - cbn. rewrite Rr, Cc. lia.
  - intros i j Hi Hj. rewrite <- I by (rewrite ?bidx_1; done || lia).
    unfold bitem. cbn. rewrite Rr, Cc, Nat.mul_1_l, bidx_1 in *.
    by rewrite Nat.div_small, Nat.mod_small by done.
Qed.

Lemma evals_ext n n' e d d' r c g g' :
  evals n e d r c g → n = n' → d = d' →
  (∀ i j, (bidx r i < r)%nat → (bidx c j < c)%nat → g i j = g' i j) →
  evals n' e d' r c g'.
Proof.
  intros (v & -> & K & Dd & Rr & Cc & I) <- <- H. exists v. repeat split; try done.
  intros i j Hi Hj. rewrite I by done. by apply H.
Qed.

Lemma evals_bind {B} n e d r c g (k : value → result B) :
  evals n e d r c g → ∃ v, bind e k = k v ∧ evals n (var v) d r c g.
Proof. intros (v & -> & H). exists v. split; [done|]. by exists v. Qed.

(** What an evaluation says about the array it returns. *)
Lemma evals_inv e d r c g :
  evals true e d r c g →
  ∃ a, e = Ok (Np a) ∧ ndim a = d ∧ nrows a = r ∧ ncols a = c ∧
       ∀ i j, (i < r)%nat → (j < c)%nat → item a i j = g i j.
Proof.
  intros (v & -> & K & Dd & Rr & Cc & I). destruct v as [x|a]; [by destruct K|].
  exists a. repeat split; try done. intros i j Hi Hj.
  rewrite <- I by (by rewrite bidx_lt). unfold bitem. cbn [to_np] in *.
  by rewrite Rr, Cc, !bidx_lt.
Qed.

Ltac max_le :=
  solve [ apply Nat.le_refl | apply Nat.le_0_l
        | apply Nat.max_le_iff; left; max_le
        | apply Nat.max_le_iff; right; max_le ].

(** Two nests of [max] over the same ranks. *)
Ltac max_eq :=
  rewrite ?Nat.max_0_l, ?Nat.max_0_r, ?Nat.max_id;
  apply Nat.le_antisymm; repeat apply Nat.max_lub; max_le.

Ltac solve_bdim :=
  repeat match goal with
         | H : nrows _ = _ |- _ => rewrite H
         | H : ncols _ = _ |- _ => rewrite H
         end;
  first [ eassumption | apply bdim_same | apply bdim_1_l | apply bdim_1_r ].

Ltac eval_expr :=
  lazymatch goal with
  | |- evals _ (lit _) _ _ _ _ => apply evals_lit
  | |- evals _ (var _) _ _ _ _ => first [ eassumption | apply evals_var ]
  | |- evals _ (arr _) _ _ _ _ => apply evals_arr
  | |- evals _ (np_sqrt _) _ _ _ _ => eapply evals_sqrt; eval_expr
  | |- evals _ (np_apply _ _) _ _ _ _ => eapply evals_apply; eval_expr
  | |- evals _ (expr_reshape_col _) _ _ _ _ => eapply evals_reshape_col; eval_expr
  | |- evals _ (val_iop _ _ _) _ _ _ _ =>
      eapply evals_iop; [ eassumption | eassumption | reflexivity ]
  | |- evals _ (expr_op _ _ _) _ _ _ _ =>
      eapply evals_op;
      [ eval_expr | eval_expr | solve_bdim | solve_bdim
      | first [ left; discriminate | right; reflexivity ] ]
  end.

(** Evaluate the first expression that the goal binds. *)
Ltac eval_bind H :=
  lazymatch goal with
  | |- context [bind ?e ?k] =>
      let v := fresh "v" in
      let E := fresh "E" in
      let H0 := fresh "H" in
      eassert (H0 : evals _ e _ _ _ _) by eval_expr;
      rewrite ?Nat.max_0_l, ?Nat.max_0_r, ?Nat.max_id in H0;
      destruct (evals_bind _ _ _ _ _ _ k H0) as (v & E & H);
      rewrite E; clear E H0
  end.

(** ** OPD *)

Lemma OPD_eval p wvl rho ti pz zd r1 r :
  p_M p ≠ 0 → wvl ≠ 0 →
  nrows rho = 1%nat →
  ncols (to_np ti) = 1%nat → ncols (to_np pz) = 1%nat → ncols (to_np zd) = 1%nat →
  bdim (nrows (to_np pz)) (nrows (to_np ti)) = Ok r1 →
  bdim r1 (nrows (to_np zd)) = Ok r →
  evals true (OPD (dict_of p) (Np rho) ti pz wvl zd)
    (Nat.max (ndim rho)
       (Nat.max (ndim (to_np ti)) (Nat.max (ndim (to_np pz)) (ndim (to_np zd)))))
    r (ncols rho)
    (λ i j, OPD_item p wvl (bitem rho i j) (bitem (to_np ti) i j)
              (bitem (to_np pz) i j) (bitem (to_np zd) i j)).
Proof.
  intros HM Hw Hrho Hti Hpz Hzd Hb1 Hb2.
  unfold OPD. getitems.
  rewrite !py_div_ok by done. cbn [bind].
  change (var (Np rho)) with (arr rho).
  eval_bind H1. eval_bind H2. eval_bind H3. eval_bind H4.
  eapply evals_ext; [eval_expr | reflexivity | max_eq |].
  intros i j Hi Hj. reflexivity.
Qed.

(** The code's order of operations gives the formula of the specification. *)
Lemma OPD_item_spec p wvl rho ti pz zd :
  OPD_item p wvl rho ti pz zd = OPD_spec p wvl rho ti pz zd.
Proof.
  assert (Hroot : ∀ n,
    f64_sqrt (Val n * Val n - Val (p_NA p) * Val (p_NA p) * rho * rho)%f64
    = spec_root p rho n).
  { intros n. unfold spec_root. destruct rho as [x|]; [|done].
    cbn [f64_op]. do 2 f_equal. ring. }
  unfold OPD_item, OPD_spec, OPD_sample, OPD_immersion, OPD_coverslip, OPD_defocus.
  cbn zeta. rewrite !Hroot.
  f_equal; [f_equal; unfold spec_k; lra|]. f_equal.
  unfold spec_a. destruct zd as [z|], rho as [x|]; try done.
  cbn [f64_op].
  replace (2.0 * p_zd0 p * z) with (2 * p_zd0 p * z) by lra.
  destruct (Req_dec_T (2 * p_zd0 p * z) 0) as [E|E]; [done|].
  f_equal. f_equal. ring.
Qed.

(** C4.  For a parameter set with M <> 0, a wavelength wvl <> 0, a 1-D
    array rho and axial arguments ti, pz, zd that are Python floats or
    columns that broadcast to r rows, OPD returns an array of shape
    (r, len rho) whose item (i, j) is
    k (OPD_sample + OPD_immersion + OPD_coverslip + OPD_defocus) at rho[j]
    and at the i-th axial sample, with k = 2 pi / wvl and a = NA zd0 / M. *)
Theorem OPD_returns_formula p wvl rho ti pz zd r1 r :
  p_M p ≠ 0 → wvl ≠ 0 →
  nrows rho = 1%nat →
  ncols (to_np ti) = 1%nat → ncols (to_np pz) = 1%nat → ncols (to_np zd) = 1%nat →
  bdim (nrows (to_np pz)) (nrows (to_np ti)) = Ok r1 →
  bdim r1 (nrows (to_np zd)) = Ok r →
  ∃ out, OPD (dict_of p) (Np rho) ti pz wvl zd = Ok (Np out) ∧
    nrows out = r ∧ ncols out = ncols rho ∧
    ∀ i j, (i < r)%nat → (j < ncols rho)%nat →
      item out i j =
        OPD_spec p wvl (item rho 0 j) (bitem (to_np ti) i 0)
          (bitem (to_np pz) i 0) (bitem (to_np zd) i 0).
Proof.
  intros HM Hw Hrho Hti Hpz Hzd Hb1 Hb2.
  destruct (evals_inv _ _ _ _ _ (OPD_eval p wvl rho ti pz zd r1 r HM Hw Hrho Hti Hpz Hzd Hb1 Hb2))
    as (out & E & _ & Hr & Hc & Hitem).
  exists out. repeat split; try done.
  intros i j Hi Hj. rewrite Hitem, OPD_item_spec by done.
  unfold bitem. rewrite Hrho, Hti, Hpz, Hzd, !bidx_1.
  by rewrite (bidx_lt (ncols rho) j).
Qed.

Lemma OPD_returns_formula_witness :
  ∃ out,
    OPD (dict_of example_params) (Np (np_array [0; 0.5])) (PyFloat 150)
      (PyFloat 0) 0.6 (PyFloat 150000) = Ok (Np out) ∧
    nrows out = 1%nat ∧ ncols out = 2%nat ∧
    ∀ i j, (i < 1)%nat → (j < 2)%nat →
      item out i j =
        OPD_spec example_params 0.6 (item (np_array [0; 0.5]) 0 j)
          (Val 150) (Val 0) (Val 150000).
Proof.
  apply (OPD_returns_formula example_params 0.6 (np_array [0; 0.5])
           (PyFloat 150) (PyFloat 0) (PyFloat 150000) 1 1);
    first [ reflexivity | cbn; lra ].
Defined.

Lemma radicand_margin_pos : 0 < radicand_margin.
Proof. unfold radicand_margin. apply Rinv_0_lt_compat. apply pow_lt. lra. Qed.

Lemma radicand_margin_le : radicand_margin <= 1.
Proof.
  unfold radicand_margin.
  pose proof (pow_R1_Rle 2 50 ltac:(lra)) as H50.
  pose proof (Rinv_le_contravar 1 (2 ^ 50) ltac:(lra) H50) as Hi.
  by rewrite Rinv_1 in Hi.
Qed.

Lemma inside_pupil_radicand NA x n :
  inside_pupil NA x n → 0 <= n * n - NA * NA * x * x.
Proof.
  unfold inside_pupil. pose proof radicand_margin_pos as Hm.
  pose proof (pow2_ge_0 (NA * x)) as Hsq. intros H. nra.
Qed.

Lemma outside_pupil_radicand NA x n :
  outside_pupil NA x n → n * n - NA * NA * x * x < 0.
Proof.
  unfold outside_pupil. pose proof radicand_margin_pos as Hm.
  pose proof (pow2_ge_0 n) as Hsq. intros H. nra.
Qed.

(** The phase of a matched system at the design coverslip offset, with
    the particle on the coverslip: the three square roots decide between
    the defocus phase and NaN. *)
Lemma OPD_item_matched p wvl x zd :
  p_ni p = p_ni0 p → p_ng p = p_ng0 p → p_tg p = p_tg0 p →
  let v := OPD_item p wvl (Val x) (Val (p_ti0 p)) (Val 0) (Val zd) in
  let a := p_NA p * p_zd0 p / p_M p in
  let rad n := n * n - p_NA p * p_NA p * x * x in
  (0 <= rad (p_ns p) → 0 <= rad (p_ni p) → 0 <= rad (p_ng p) →
   2.0 * p_zd0 p * zd ≠ 0 →
   v = Val (2.0 * PI / wvl
            * (a * a * (p_zd0 p - zd) * x * x / (2.0 * p_zd0 p * zd)))) ∧
  (rad (p_ns p) < 0 ∨ rad (p_ni p) < 0 ∨ rad (p_ng p) < 0
   ∨ 2.0 * p_zd0 p * zd = 0 → v = NaNInf).
Proof.
  intros Hni Hng Htg v a rad. unfold v, OPD_item. cbn zeta.
  rewrite <- Hni, <- Hng, <- Htg. cbn [f64_op]. unfold f64_sqrt.
  fold (rad (p_ns p)) (rad (p_ni p)) (rad (p_ng p)).
  destruct (Rlt_dec (rad (p_ns p)) 0) as [H1|H1];
    [split; [intros; lra|done]|].
  destruct (Rlt_dec (rad (p_ni p)) 0) as [H2|H2];
    [split; [intros; lra|done]|].
  destruct (Rlt_dec (rad (p_ng p)) 0) as [H3|H3];
    [split; [intros; lra|done]|].
  cbn [f64_op].
  destruct (Req_dec_T (2.0 * p_zd0 p * zd) 0) as [E|E];
    [split; [intros; lra|done]|].
  split; [|intros [?|[?|[?|?]]]; lra].
  intros _ _ _ _. f_equal. fold a. lra.
Qed.

(** C6, as the code has it.  For a parameter set whose actual values
    equal the design values (ni = ni0, ng = ng0, tg = tg0), with M and wvl
    not zero, and for a 1-D array rho, OPD(mp, rho, ti0, 0, wvl, zd0) is an
    array of the shape of rho in which each item is exactly 0 or is NaN.
    It is 0 where the sample is a number inside the pupil of the three
    media by the margin, (NA rho)^2 (1 + 2^-50) <= n^2 for n = ns, ni and
    ng, and zd0 is not zero.  It is NaN where the sample is outside the
    pupil of one of them by the margin, n^2 (1 + 2^-50) < (NA rho)^2.
    Closer to the edge of a pupil than the margin, the rounding of the
    radicand n*n - NA*NA*rho*rho decides between the two. *)
Theorem OPD_zero_matched p wvl rho :
  p_ni p = p_ni0 p → p_ng p = p_ng0 p → p_tg p = p_tg0 p →
  p_M p ≠ 0 → wvl ≠ 0 →
  nrows rho = 1%nat →
  ∃ out,
    OPD (dict_of p) (Np rho) (PyFloat (p_ti0 p)) (PyFloat 0) wvl
      (PyFloat (p_zd0 p)) = Ok (Np out) ∧
    ndim out = ndim rho ∧ nrows out = 1%nat ∧ ncols out = ncols rho ∧
    ∀ j, (j < ncols rho)%nat →
      (item out 0 j = Val 0 ∨ item out 0 j = NaNInf) ∧
      ∀ x, item rho 0 j = Val x →
        (p_zd0 p ≠ 0 →
         inside_pupil (p_NA p) x (p_ns p) → inside_pupil (p_NA p) x (p_ni p) →
         inside_pupil (p_NA p) x (p_ng p) → item out 0 j = Val 0) ∧
        (outside_pupil (p_NA p) x (p_ns p) ∨ outside_pupil (p_NA p) x (p_ni p)
         ∨ outside_pupil (p_NA p) x (p_ng p) → item out 0 j = NaNInf).
Proof.
  intros Hni Hng Htg HM Hw Hrho.
  destruct (evals_inv _ _ _ _ _
     (OPD_eval p wvl rho (PyFloat (p_ti0 p)) (PyFloat 0) (PyFloat (p_zd0 p)) 1 1
        HM Hw Hrho eq_refl eq_refl eq_refl eq_refl eq_refl))
    as (out & E & Hd & Hr & Hc & Hitem).
  exists out. split; [done|]. split; [rewrite Hd; cbn; lia|].
  do 2 (split; [done|]). intros j Hj.
  assert (Ej : item out 0 j
               = OPD_item p wvl (item rho 0 j) (Val (p_ti0 p)) (Val 0)
                   (Val (p_zd0 p))).
  { rewrite Hitem by lia. unfold bitem.
    rewrite Hrho, !bidx_1, (bidx_lt (ncols rho) j) by done. reflexivity. }
  rewrite Ej.
  assert (Hzero : ∀ x, p_zd0 p ≠ 0 →
            2.0 * PI / wvl
            * (p_NA p * p_zd0 p / p_M p * (p_NA p * p_zd0 p / p_M p)
               * (p_zd0 p - p_zd0 p) * x * x / (2.0 * p_zd0 p * p_zd0 p)) = 0).
  { intros x _. replace (p_zd0 p - p_zd0 p) with 0 by lra. unfold Rdiv. ring. }
  split.
  - destruct (item rho 0 j) as [x|]; [|by right].
    destruct (OPD_item_matched p wvl x (p_zd0 p) Hni Hng Htg) as [Hin Hout].
    cbn zeta in Hin, Hout.
    destruct (Rlt_dec (p_ns p * p_ns p - p_NA p * p_NA p * x * x) 0);
      [right; apply Hout; tauto|].
    destruct (Rlt_dec (p_ni p * p_ni p - p_NA p * p_NA p * x * x) 0);
      [right; apply Hout; tauto|].
    destruct (Rlt_dec (p_ng p * p_ng p - p_NA p * p_NA p * x * x) 0);
      [right; apply Hout; tauto|].
    destruct (Req_dec_T (2.0 * p_zd0 p * p_zd0 p) 0) as [E0|E0];
      [right; apply Hout; tauto|].
    left. rewrite Hin by lra. f_equal. apply Hzero.
    intros E1. apply E0. rewrite E1. ring.
  - intros x ->.
    destruct (OPD_item_matched p wvl x (p_zd0 p) Hni Hng Htg) as [Hin Hout].
    cbn zeta in Hin, Hout. split.
    + intros Hzd0 H1 H2 H3. rewrite Hin; try by apply inside_pupil_radicand.
      * f_equal. by apply Hzero.
      * intros E0. assert (p_zd0 p * p_zd0 p = 0) as H0 by lra.
        destruct (Rmult_integral _ _ H0); done.
    + intros Ho. apply Hout.
      destruct Ho as [Ho|[Ho|Ho]]; apply outside_pupil_radicand in Ho; tauto.
Qed.

Lemma OPD_zero_matched_witness :
  ∃ out,
    OPD (dict_of example_params) (Np (np_array [0; 0.5; 2])) (PyFloat 150)
      (PyFloat 0) 0.6 (PyFloat 150000) = Ok (Np out) ∧
    ndim out = 1%nat ∧ nrows out = 1%nat ∧ ncols out = 3%nat ∧
    item out 0 0 = Val 0 ∧ item out 0 1 = Val 0 ∧ item out 0 2 = NaNInf.
Proof.
  destruct (OPD_zero_matched example_params 0.6 (np_array [0; 0.5; 2]))
    as (out & E & Hd & Hr & Hc & H); try first [ reflexivity | cbn; lra ].
  exists out. do 4 (split; [done|]).
  pose proof radicand_margin_le as Hm. pose proof radicand_margin_pos as Hm0.
  split; [|split].
  - destruct (H 0%nat ltac:(cbn; lia)) as [_ H0].
    destruct (H0 0 eq_refl) as [Hin _].
    apply Hin; [cbn; lra|unfold inside_pupil; cbn; nra..].
  - destruct (H 1%nat ltac:(cbn; lia)) as [_ H1].
    destruct (H1 0.5 eq_refl) as [Hin _].
    apply Hin; [cbn; lra|unfold inside_pupil; cbn; nra..].
  - destruct (H 2%nat ltac:(cbn; lia)) as [_ H2].
    destruct (H2 2 eq_refl) as [_ Hout].
    apply Hout. left. unfold outside_pupil. cbn. nra.
Defined.

(** C6, as stated, fails outside the pupil: at rho = 2 the sample-medium
    square root is of 1.33^2 - 1.4^2 * 4 < 0, numpy gives NaN for it, and
    0 * NaN is NaN, not 0. *)
Lemma OPD_zero_counterexample :
  ∃ out,
    OPD (dict_of example_params) (Np (np_array [2])) (PyFloat 150)
      (PyFloat 0) 0.6 (PyFloat 150000) = Ok (Np out) ∧
    item out 0 0 = NaNInf ∧ item out 0 0 ≠ Val 0.
Proof.
  assert (Hev := OPD_eval example_params 0.6 (np_array [2]) (PyFloat 150)
                   (PyFloat 0) (PyFloat 150000) 1 1).
  destruct (evals_inv _ _ _ _ _ (Hev ltac:(cbn; lra) ltac:(lra) eq_refl eq_refl
                                   eq_refl eq_refl eq_refl eq_refl))
    as (out & E & _ & _ & _ & Hitem).
  exists out. split; [exact E|].
  assert (item out 0 0 = NaNInf) as ->; [|done].
  rewrite Hitem by (cbn; lia).
  change (bitem (np_array [2]) 0 0) with (Val 2).
  change (bitem (to_np (PyFloat 0)) 0 0) with (Val 0).
  unfold OPD_item. cbn zeta.
  assert (f64_sqrt (Val (p_ns example_params) * Val (p_ns example_params)
                    - Val (p_NA example_params) * Val (p_NA example_params)
                      * Val 2 * Val 2)%f64 = NaNInf) as ->.
  { cbn [f64_op example_params p_ns p_NA]. unfold f64_sqrt.
    destruct (Rlt_dec (1.33 * 1.33 - 1.4 * 1.4 * 2 * 2) 0) as [_|H]; [done|lra]. }
  reflexivity.
Qed.

(** ** configure *)

Lemma nth_fmap_seq {A} (f : nat → A) a n j d :
  (j < n)%nat → nth j (f <$> seq a n) d = f (a + j)%nat.
Proof.
  intros Hj. rewrite nth_lookup, list_lookup_fmap.
  by rewrite (proj2 (lookup_seq a n j (a + j)%nat)).
Qed.

(** What [configure] returns, for the engine's proofs. *)
Lemma configure_eval p wvl :
  p_NA p ≠ 0 → wvl ≠ 0 →
  ∃ sf, configure (dict_of p) wvl = Ok (Np sf, min6 p / p_NA p) ∧
    ndim sf = 1%nat ∧ nrows sf = 1%nat ∧ ncols sf = num_basis ∧
    ∀ j, (j < num_basis)%nat →
      item sf 0 j = Val (p_NA p * (3 * INR (1 + j) - 2) * 0.436 / wvl).
Proof.
  intros HNA Hw. unfold configure. cbn zeta. getitems.
  eval_bind H. getitems.
  apply evals_inv in H as (sf & [= ->] & Hd & Hr & Hc & Hitem).
  cbn [py_min foldl bind]. rewrite py_div_ok by done. cbn [bind].
  exists sf. split; [reflexivity|].
  assert (ncols sf = num_basis) as Hc'.
  { rewrite Hc. cbn [np_array nd1 ncols]. by rewrite length_fmap, length_seq. }
  repeat split; try done.
  intros j Hj. rewrite Hitem by (rewrite <- ?Hc, ?Hc'; lia).
  unfold bitem. cbn [np_array nd1 nrows ncols item f64_op].
  rewrite bidx_lt by (by rewrite length_fmap, length_seq).
  rewrite nth_fmap_seq by done.
  by destruct (Req_dec_T wvl 0).
Qed.

(** C5.  For a parameter set with NA <> 0 and a wavelength wvl <> 0,
    configure returns the 1-D array of the num_basis = 100 scaling factors
    sf_m = NA (3m - 2) 0.436 / wvl, m = 1..100, and
    max_rho = min(NA, ng0, ng, ni0, ni, ns) / NA. *)
Theorem configure_spec p wvl :
  p_NA p ≠ 0 → wvl ≠ 0 →
  ∃ sf, configure (dict_of p) wvl = Ok (Np sf, min6 p / p_NA p) ∧
    ndim sf = 1%nat ∧ nrows sf = 1%nat ∧ ncols sf = 100%nat ∧
    ∀ m, (1 <= m <= 100)%nat →
      item sf 0 (m - 1) = Val (p_NA p * (3 * INR m - 2) * 0.436 / wvl).
Proof.
  intros HNA Hw.
  destruct (configure_eval p wvl HNA Hw) as (sf & E & Hd & Hr & Hc & Hitem).
  exists sf. repeat split; try done.
  intros m Hm. rewrite Hitem by (unfold num_basis; lia).
  by replace (1 + (m - 1))%nat with m by lia.
Qed.

Lemma configure_spec_witness :
  ∃ sf, configure (dict_of example_params) 0.6
          = Ok (Np sf, min6 example_params / p_NA example_params) ∧
    ndim sf = 1%nat ∧ nrows sf = 1%nat ∧ ncols sf = 100%nat ∧
    ∀ m, (1 <= m <= 100)%nat →
      item sf 0 (m - 1)
        = Val (p_NA example_params * (3 * INR m - 2) * 0.436 / 0.6).
Proof. apply (configure_spec example_params 0.6); cbn; lra. Defined.

(** [min6] is the minimum of the six values. *)
Lemma min6_spec p :
  let l := [p_NA p; p_ng0 p; p_ng p; p_ni0 p; p_ni p; p_ns p] in
  min6 p ∈ l ∧ ∀ x, x ∈ l → min6 p <= x.
Proof.
  cbn zeta. unfold min6. split.
  - repeat (apply Rmin_case); set_solver.
  - intros x Hx. rewrite !elem_of_cons, elem_of_nil in Hx.
    unfold Rmin. repeat destruct (Rle_dec _ _);
      destruct Hx as [->|[->|[->|[->|[->|[->|[]]]]]]]; lra.
Qed.

(** ** calcRv *)

Lemma calcRv_eval dxy xy_size :
  dxy ≠ 0 →
  calcRv dxy xy_size 2 = Ok ((λ i, 0 + INR i * (dxy / 2)) <$> seq 0 (rv_size xy_size)).
Proof.
  intros Hd. unfold calcRv.
  rewrite math_sqrt_ok by nra. cbn [bind].
  rewrite py_div_ok by lra. cbn [bind].
  unfold arange. destruct (Req_dec_T (dxy / 2) 0) as [E|_]; [lra|].
  unfold rv_size. do 5 f_equal. by field.
Qed.

Lemma rv_size_lower xy_size :
  2 * (sqrt (0.5 * IZR xy_size * IZR xy_size) + 1) <= INR (rv_size xy_size).
Proof.
  unfold rv_size.
  set (x := 2 * (sqrt (0.5 * IZR xy_size * IZR xy_size) + 1)).
  assert (0 < x) as Hx.
  { unfold x. pose proof (sqrt_pos (0.5 * IZR xy_size * IZR xy_size)). lra. }
  pose proof (ceil_pos x Hx) as Hc. destruct (ceil_spec x) as [_ Hs].
  rewrite INR_IZR_INZ, Z2Nat.id by lia. done.
Qed.

Lemma rv_size_pos xy_size : (2 <= rv_size xy_size)%nat.
Proof.
  pose proof (rv_size_lower xy_size) as H.
  pose proof (sqrt_pos (0.5 * IZR xy_size * IZR xy_size)).
  apply INR_le. cbn. lra.
Qed.



(** The 17 radius samples of the specification's example. *)
Lemma calcRv_example :
  calcRv 0.1 10 2 = Ok ((λ i, 0 + INR i * (0.1 / 2)) <$> seq 0 17).
Proof.
  rewrite calcRv_eval by lra. do 3 f_equal. unfold rv_size.
  replace (0.5 * 10 * 10) with 50 by lra.
  assert (7 < sqrt 50 <= 7.5) as [H1 H2].
  { split.
    - rewrite <- (sqrt_square 7) at 1 by lra. apply sqrt_lt_1; lra.
    - rewrite <- (sqrt_square 7.5) by lra. apply sqrt_le_1; lra. }
  rewrite (ceil_unique _ 17); [done|lra].
Qed.

(** ** The Cartesian projection *)

Lemma for_range_ok {A} (f : nat → result A) (P : A → Prop) start n :
  (∀ i, (start <= i < start + n)%nat → ∃ x, f i = Ok x ∧ P x) →
  ∃ l, for_range f start n = Ok l ∧ length l = n ∧ Forall P l.
Proof.
  revert start. induction n as [|n IH]; intros start H.
  - exists []. by repeat split.
  - destruct (H start) as (x & Ex & Px); [lia|].
    destruct (IH (S start)) as (l & El & Hl & HP).
    { intros i Hi. apply H. lia. }
    exists (x :: l). cbn [for_range]. rewrite Ex. cbn [bind]. rewrite El.
    cbn [bind]. repeat split; [by cbn; rewrite Hl | by constructor].
Qed.

Lemma sort_pts_sorted l : Sorted pt_lt l → sort_pts l = l.
Proof.
  induction 1 as [|p l Hs IH Hd]; [done|].
  cbn [sort_pts foldr]. fold (sort_pts l). rewrite IH.
  destruct Hd as [|q l' Hpq]; [done|].
  cbn [insert_pt]. unfold pt_lt in Hpq.
  destruct (Rle_dec p.1 q.1); [done|lra].
Qed.

Lemma zip_sorted (xs : list R) (ys : list float64) :
  Sorted Rlt xs → Sorted pt_lt (zip xs ys).
Proof.
  intros H. revert ys. induction H as [|x xs Hs IH Hd]; intros ys; [constructor|].
  destruct ys as [|y ys]; [constructor|]. cbn [zip zip_with].
  constructor; [apply IH|].
  destruct Hd as [|x' xs' Hx]; [constructor|].
  destruct ys as [|y' ys']; [constructor|]. by constructor.
Qed.

Lemma progression_sorted (h : R) a n :
  0 < h → Sorted Rlt ((λ i, 0 + INR i * h) <$> seq a n).
Proof.
  intros Hh. revert a. induction n as [|n IH]; intros a; [constructor|].
  cbn [seq fmap list_fmap]. constructor; [apply IH|].
  destruct n as [|n]; cbn [seq fmap list_fmap]; constructor.
  rewrite S_INR. lra.
Qed.

Lemma last_zip (xs : list R) (ys : list float64) d :
  length xs = length ys → xs ≠ [] →
  (List.last (zip xs ys) d).1 = List.last xs d.1.
Proof.
  revert ys. induction xs as [|x xs IH]; intros ys Hl Hne; [done|].
  destruct ys as [|y ys]; [done|]. destruct xs as [|x' xs].
  - by destruct ys.
  - destruct ys as [|y' ys]; [done|].
    change (zip (x :: x' :: xs) (y :: y' :: ys))
      with ((x, y) :: zip (x' :: xs) (y' :: ys)).
    cbn [zip zip_with]. cbn [List.last].
    apply (IH (y' :: ys)); [cbn in Hl |- *; lia|done].
Qed.

Lemma last_progression (f : nat → R) n d :
  List.last (f <$> seq 0 (S n)) d = f n.
Proof.
  replace (S n) with (n + 1)%nat by lia.
  rewrite seq_app, fmap_app. cbn [seq fmap list_fmap].
  by rewrite last_last.
Qed.

Lemma elem_of_concat_seq {A} (f : nat → list A) s n x :
  x ∈ concat (f <$> seq s n) → ∃ i, (s <= i < s + n)%nat ∧ x ∈ f i.
Proof.
  revert s. induction n as [|n IH]; intros s; cbn [seq fmap list_fmap concat].
  - by intros ?%elem_of_nil.
  - rewrite elem_of_app. intros [H|H].
    + exists s. split; [lia|done].
    + destruct (IH _ H) as (i & Hi & Hx). exists i. split; [lia|done].
Qed.

Lemma length_concat_seq {A} (f : nat → list A) c s n :
  (∀ i, length (f i) = c) → length (concat (f <$> seq s n)) = (n * c)%nat.
Proof.
  intros Hf. revert s. induction n as [|n IH]; intros s; [done|].
  cbn [seq fmap list_fmap concat]. rewrite length_app, Hf. cbn in IH.
  rewrite IH. lia.
Qed.

Lemma elem_of_ravel {A} (a : ndarray A) x :
  x ∈ ravel a → ∃ i j, (i < nrows a)%nat ∧ (j < ncols a)%nat ∧ x = item a i j.
Proof.
  intros (i & Hi & Hx)%elem_of_concat_seq.
  apply list_elem_of_fmap in Hx as (j & -> & Hj).
  apply elem_of_seq in Hj. exists i, j. repeat split; lia.
Qed.

Lemma item_in_ravel {A} (a : ndarray A) i j :
  (i < nrows a)%nat → (j < ncols a)%nat → item a i j ∈ ravel a.
Proof.
  intros Hi Hj. apply list_elem_of_In, in_concat. exists (row a i). split.
  - apply list_elem_of_In, list_elem_of_fmap. exists i.
    split; [done|]. apply elem_of_seq. lia.
  - apply list_elem_of_In, list_elem_of_fmap. exists j.
    split; [done|]. apply elem_of_seq. lia.
Qed.

Lemma length_ravel {A} (a : ndarray A) :
  length (ravel a) = (nrows a * ncols a)%nat.
Proof.
  apply length_concat_seq. intros i. unfold row.
  by rewrite length_fmap, length_seq.
Qed.

Lemma pixel_radii_items dxy xy_size :
  ∃ rp, pixel_radii dxy xy_size = Ok (Np rp) ∧ ndim rp = 2%nat ∧
    nrows rp = Z.to_nat xy_size ∧ ncols rp = Z.to_nat xy_size ∧
    ∀ y x, (y < Z.to_nat xy_size)%nat → (x < Z.to_nat xy_size)%nat →
      item rp y x = Val (pixel_radius dxy xy_size x y).
Proof.
  unfold pixel_radii. cbn zeta.
  lazymatch goal with
  | |- ex (λ rp, ?e = _ ∧ _) => eassert (H : evals true e 2 _ _ _)
  end.
  { eapply evals_ext; [eval_expr | reflexivity | reflexivity |].
    intros i j _ _. reflexivity. }
  apply evals_inv in H as (rp & E & Hd & Hr & Hc & Hitem).
  exists rp. repeat split; try done.
  intros y x Hy Hx. rewrite Hitem by done.
  unfold bitem. cbn [to_np nd2 nrows ncols item f64_op].
  rewrite !bidx_lt by done. unfold f64_sqrt, pixel_radius.
  match goal with |- context [Rlt_dec ?a 0] => destruct (Rlt_dec a 0) as [Hneg|_] end.
  { exfalso. clear -Hneg.
    pose proof (Rle_0_sqr (INR x + 0.5 - IZR xy_size * 0.5)) as H1.
    pose proof (Rle_0_sqr (INR y + 0.5 - IZR xy_size * 0.5)) as H2.
    unfold Rsqr in *. lra. }
  cbn [f64_op]. do 3 f_equal. lra.
Qed.

(** Every pixel radius lies between the first and the last radius sample. *)
Lemma pixel_radius_bound dxy xy_size x y :
  0 < dxy → (1 <= xy_size)%Z →
  (x < Z.to_nat xy_size)%nat → (y < Z.to_nat xy_size)%nat →
  0 <= pixel_radius dxy xy_size x y <= INR (rv_size xy_size - 1) * (dxy / 2).
Proof.
  intros Hd Hxy Hx Hy. unfold pixel_radius.
  set (N := IZR xy_size).
  assert (HN : INR (Z.to_nat xy_size) = N).
  { rewrite INR_IZR_INZ, Z2Nat.id by lia. done. }
  assert (Hx' : INR x <= N - 1).
  { rewrite <- HN. apply le_INR in Hx. rewrite S_INR in Hx. lra. }
  assert (Hy' : INR y <= N - 1).
  { rewrite <- HN. apply le_INR in Hy. rewrite S_INR in Hy. lra. }
  pose proof (pos_INR x). pose proof (pos_INR y).
  set (q := (INR x + 0.5 - N / 2) ^ 2 + (INR y + 0.5 - N / 2) ^ 2).
  assert (1 <= N) as HN1 by (apply (IZR_le 1); lia).
  assert (∀ t, 0 <= t <= N - 1 → (t + 0.5 - N / 2) ^ 2 <= ((N - 1) / 2) ^ 2) as Hsq.
  { intros t [Ht0 Ht1].
    assert (0 <= ((N - 1) / 2 - (t + 0.5 - N / 2)) * ((N - 1) / 2 + (t + 0.5 - N / 2)))
      by (apply Rmult_le_pos; lra).
    lra. }
  pose proof (Hsq (INR x) ltac:(lra)) as Hqx.
  pose proof (Hsq (INR y) ltac:(lra)) as Hqy.
  pose proof (pow2_ge_0 (INR x + 0.5 - N / 2)) as Hpx.
  pose proof (pow2_ge_0 (INR y + 0.5 - N / 2)) as Hpy.
  assert (0 <= q <= 0.5 * N * N) as [Hq0 Hq1] by (unfold q; split; nra).
  pose proof (sqrt_pos q) as Hs0.
  pose proof (sqrt_le_1_alt _ _ Hq1) as Hs1.
  pose proof (rv_size_lower xy_size) as Hlow. fold N in Hlow.
  pose proof (rv_size_pos xy_size) as Hpos.
  rewrite minus_INR by lia. cbn [INR].
  split; nra.
Qed.

Lemma psfRZToPSFXYZ_ok dxy xy_size PSF_rz :
  0 < dxy → (1 <= xy_size)%Z →
  ndim PSF_rz = 2%nat → ncols PSF_rz = rv_size xy_size →
  ∃ vol,
    psfRZToPSFXYZ dxy xy_size
      ((λ i, 0 + INR i * (dxy / 2)) <$> seq 0 (rv_size xy_size)) PSF_rz = Ok vol ∧
    length vol = nrows PSF_rz ∧
    Forall (λ s, ndim s = 2%nat ∧ nrows s = Z.to_nat xy_size ∧
                 ncols s = Z.to_nat xy_size) vol.
Proof.
  intros Hd Hxy Hnd Hnc. unfold psfRZToPSFXYZ. cbn zeta.
  destruct (xy_size <? 0)%Z eqn:E; [apply Z.ltb_lt in E; lia|]. cbn [bind].
  destruct (pixel_radii_items dxy xy_size) as (rp & -> & _ & Hr & Hc & Hitem).
  cbn [bind]. rewrite Hnd. cbn [bind].
  apply for_range_ok. intros i _.
  rewrite decide_True by done. cbn [bind].
  pose proof (rv_size_pos xy_size) as Hpos.
  destruct (rv_size xy_size) as [|m] eqn:Em; [lia|].
  remember ((λ i, 0 + INR i * (dxy / 2)) <$> seq 0 (S m)) as rv eqn:Erv.
  assert (Hlen : length rv = length (row PSF_rz i)).
  { subst rv. unfold row. by rewrite !length_fmap, !length_seq. }
  assert (Hsorted : Sorted Rlt rv) by (subst rv; apply progression_sorted; lra).
  assert (Hlastrv : ∀ d, List.last rv d = INR m * (dxy / 2)).
  { intros d. subst rv. rewrite last_progression. lra. }
  assert (Hhd : ∃ rv', rv = (0 + INR 0 * (dxy / 2)) :: rv') by (subst rv; by eexists).
  destruct Hhd as (rv' & Hrv). clear Erv.
  destruct (row PSF_rz i) as [|y0 y'] eqn:Ey; [by rewrite Hrv in Hlen|].
  unfold interp1d. rewrite decide_True by done.
  rewrite sort_pts_sorted by (by apply zip_sorted).
  assert (Hlast : ∀ d, (List.last (zip rv (y0 :: y')) d).1 = INR m * (dxy / 2)).
  { intros d. rewrite last_zip by (done || by rewrite Hrv). apply Hlastrv. }
  destruct rv as [|x0 rv'']; [done|]. injection Hrv as -> ->. cbn [bind].
  unfold interp_call.
  match goal with
  | |- context [zip (?x0 :: ?a) ?b] =>
      remember (zip (x0 :: a) b) as pts eqn:Epts;
      assert (Hpts : ∃ pts', pts = (x0, y0) :: pts') by (subst pts; by eexists)
  end.
  destruct Hpts as (pts' & Hpts). clear Epts. subst pts. cbv iota.
  match goal with |- context [existsb ?f ?l] => destruct (existsb f l) eqn:Eb end.
  { exfalso. apply existsb_exists in Eb as (v & Hin & Hv).
    apply list_elem_of_In, elem_of_ravel in Hin as (a & b & Ha & Hb & ->).
    cbn [to_np] in *. rewrite Hr in Ha. rewrite Hc in Hb.
    rewrite Hitem in Hv by done.
    destruct (pixel_radius_bound dxy xy_size b a Hd Hxy Hb Ha) as [B0 B1].
    rewrite Em in B1. replace (S m - 1)%nat with m in B1 by lia.
    rewrite Hlast in Hv. cbn [fst f64_ltb f64_gtb] in Hv.
    repeat destruct (Rlt_dec _ _) in Hv; cbn in Hv; try done; lra. }
  cbn [bind]. eexists. split; [reflexivity|]. done.
Qed.

(** C9.  For dxy > 0 and xy_size >= 1, every pixel radius that
    psfRZToPSFXYZ computes lies between the first sample, 0, and the last
    sample of calcRv(dxy, xy_size); so the interpolation of any radial
    grid with one column per sample never leaves the sampled range:
    psfRZToPSFXYZ returns its volume, it does not raise. *)
Theorem pixel_radii_within_rv dxy xy_size :
  0 < dxy → (1 <= xy_size)%Z →
  ∃ rv rp rmax,
    calcRv dxy xy_size 2 = Ok rv ∧ last rv = Some rmax ∧
    pixel_radii dxy xy_size = Ok (Np rp) ∧
    (∀ x y, (x < Z.to_nat xy_size)%nat → (y < Z.to_nat xy_size)%nat →
       item rp y x = Val (pixel_radius dxy xy_size x y) ∧
       0 <= pixel_radius dxy xy_size x y <= rmax) ∧
    (∀ PSF_rz, ndim PSF_rz = 2%nat → ncols PSF_rz = length rv →
       ∃ vol, psfRZToPSFXYZ dxy xy_size rv PSF_rz = Ok vol ∧
              length vol = nrows PSF_rz).
Proof.
  intros Hd Hxy. rewrite calcRv_eval by lra.
  destruct (pixel_radii_items dxy xy_size) as (rp & E & _ & _ & _ & Hitem).
  pose proof (rv_size_pos xy_size) as Hpos.
  exists ((λ i, 0 + INR i * (dxy / 2)) <$> seq 0 (rv_size xy_size)), rp,
         (INR (rv_size xy_size - 1) * (dxy / 2)).
  split; [done|]. split; [|split; [done|split]].
  - rewrite fmap_last, last_lookup, length_seq.
    replace (Init.Nat.pred (rv_size xy_size)) with (rv_size xy_size - 1)%nat by lia.
    rewrite (proj2 (lookup_seq 0 _ _ (rv_size xy_size - 1)%nat)) by lia.
    cbn. f_equal. lra.
  - intros x y Hx Hy. split; [by apply Hitem|].
    by apply pixel_radius_bound.
  - intros PSF_rz Hnd Hnc. rewrite length_fmap, length_seq in Hnc.
    destruct (psfRZToPSFXYZ_ok dxy xy_size PSF_rz Hd Hxy Hnd Hnc)
      as (vol & Ev & Hl & _).
    by exists vol.
Qed.

Lemma pixel_radii_within_rv_witness :
  ∃ rv rp rmax,
    calcRv 0.1 3 2 = Ok rv ∧ last rv = Some rmax ∧
    pixel_radii 0.1 3 = Ok (Np rp) ∧
    (∀ x y, (x < Z.to_nat 3)%nat → (y < Z.to_nat 3)%nat →
       item rp y x = Val (pixel_radius 0.1 3 x y) ∧
       0 <= pixel_radius 0.1 3 x y <= rmax) ∧
    (∀ PSF_rz, ndim PSF_rz = 2%nat → ncols PSF_rz = length rv →
       ∃ vol, psfRZToPSFXYZ 0.1 3 rv PSF_rz = Ok vol ∧
              length vol = nrows PSF_rz).
Proof. apply (pixel_radii_within_rv 0.1 3); [lra|lia]. Defined.

(** ** The radial engine *)

Lemma length_linspace a b n : (1 <= n)%nat → length (linspace a b n) = n.
Proof.
  intros Hn. unfold linspace. rewrite length_app, length_fmap, length_seq.
  cbn [length]. lia.
Qed.

(** The pupil samples lie in [0, max_rho]. *)
Lemma linspace_range b n j :
  0 <= b → (2 <= n)%nat → (j < n)%nat → 0 <= nth j (linspace 0.0 b n) 0 <= b.
Proof.
  intros Hb Hn Hj. unfold linspace.
  assert (0 < INR (n - 1)) as Hpos by (apply (lt_INR 0); lia).
  destruct (decide (j < n - 1)%nat) as [Hlt|Hge].
  - rewrite app_nth1 by (by rewrite length_fmap, length_seq).
    rewrite nth_fmap_seq by done. cbn [Nat.add].
    assert (INR j <= INR (n - 1)) as Hle by (apply le_INR; lia).
    pose proof (pos_INR j) as Hj0.
    replace 0.0 with 0 by lra.
    pose proof (Rinv_0_lt_compat _ Hpos) as Hq.
    assert (INR (n - 1) * / INR (n - 1) = 1) as H1 by (apply Rinv_r; lra).
    unfold Rdiv. generalize dependent (/ INR (n - 1)). intros q Hq H1.
    assert (0 <= INR j * q) by nra.
    assert (INR j * q <= 1) by nra.
    split; nra.
  - rewrite app_nth2 by (rewrite length_fmap, length_seq; lia).
    rewrite length_fmap, length_seq.
    replace (j - (n - 1))%nat with 0%nat by lia. cbn. lra.
Qed.

Lemma evals_var_inv n v d r c g :
  evals n (var v) d r c g →
  (n = true → is_np v) ∧ ndim (to_np v) = d ∧ nrows (to_np v) = r ∧
  ncols (to_np v) = c ∧
  ∀ i j, (bidx r i < r)%nat → (bidx c j < c)%nat → bitem (to_np v) i j = g i j.
Proof. intros (v' & [= <-] & H). exact H. Qed.

Lemma evals_of_array a d r c g :
  ndim a = d → nrows a = r → ncols a = c →
  (∀ i j, (i < r)%nat → (j < c)%nat → item a i j = g i j) →
  evals true (var (Np a)) d r c (λ i j, g (bidx r i) (bidx c j)).
Proof.
  intros Hd Hr Hc Hi. exists (Np a). repeat split; try done.
  intros i j Hi' Hj'. unfold bitem. cbn [to_np]. rewrite Hr, Hc. by apply Hi.
Qed.

Lemma OPD_item_finite p wvl x t z d :
  wvl ≠ 0 → 2.0 * p_zd0 p * d ≠ 0 →
  (p_NA p * x) ^ 2 <= p_ns p ^ 2 → (p_NA p * x) ^ 2 <= p_ni p ^ 2 →
  (p_NA p * x) ^ 2 <= p_ni0 p ^ 2 → (p_NA p * x) ^ 2 <= p_ng p ^ 2 →
  (p_NA p * x) ^ 2 <= p_ng0 p ^ 2 →
  is_finite (OPD_item p wvl (Val x) (Val t) (Val z) (Val d)).
Proof.
  intros Hw Hd H1 H2 H3 H4 H5. unfold OPD_item, is_finite. cbn zeta.
  cbn [f64_op]. unfold f64_sqrt.
  repeat match goal with
         | |- context [Rlt_dec ?a 0] =>
             destruct (Rlt_dec a 0); [exfalso; lra|]
         end.
  cbn [f64_op]. destruct (Req_dec_T (2.0 * p_zd0 p * d) 0); [done|].
  eexists. reflexivity.
Qed.

Lemma evals_var_item n v d r c g i j :
  evals n (var v) d r c g → (i < r)%nat → (j < c)%nat →
  item (to_np v) i j = g i j.
Proof.
  intros (_ & _ & Hr & Hc & Hi)%evals_var_inv Hlt1 Hlt2.
  rewrite <- Hi by (by rewrite bidx_lt). unfold bitem.
  by rewrite Hr, Hc, !bidx_lt.
Qed.

Lemma transpose_2d {A} (a : ndarray A) :
  ndim a = 2%nat → transpose a = nd2 (ncols a) (nrows a) (λ i j, item a j i).
Proof. intros H. unfold transpose. by rewrite H. Qed.

Lemma fmap_seq_ext {A} (f g : nat → A) s n :
  (∀ i, (s <= i < s + n)%nat → f i = g i) → f <$> seq s n = g <$> seq s n.
Proof.
  revert s. induction n as [|n IH]; intros s H; [done|].
  cbn [seq fmap list_fmap]. f_equal; [apply H; lia|].
  apply IH. intros i Hi. apply H. lia.
Qed.

Section EngineProofs.
Context {lib : NumLib}.

Lemma gLZRScan_eval p pz rv zdv zv wvl r :
  valid_params p → wvl ≠ 0 → zdv ≠ 0 →
  bdim (length pz) (length zv) = Ok r →
  ∃ C PSF,
    gLZRScan (dict_of p) pz rv [zdv] zv false wvl = Ok PSF ∧
    ndim PSF = 2%nat ∧ nrows PSF = r ∧ ncols PSF = length rv ∧
    nrows C = num_basis ∧ ncols C = r ∧ c_finite_array C ∧
    ∀ i j, (i < r)%nat → (j < length rv)%nat →
      item PSF i j =
        psf_item (λ m, radial_item (Val (engine_sf p wvl m))
                         (engine_b p wvl zdv (nth j rv 0)) (min6 p / p_NA p))
                 (λ m, item C m i).
Proof.
  intros (HNA & HM & Hzd0 & Hng0 & Hng & Hni0 & Hni & Hns) Hw Hzd Hb.
  unfold gLZRScan.
  destruct (configure_eval p wvl ltac:(lra) Hw) as (sf & -> & Hsfd & Hsfr & Hsfc & Hsf).
  cbn [bind fst snd]. cbn zeta. getitems.
  assert (0 < sqrt (p_M p * p_M p + p_NA p * p_NA p)) as Hsq.
  { apply sqrt_lt_R0. nra. }
  rewrite math_sqrt_ok by nra. cbn [bind].
  rewrite !py_div_ok by (done || lra). cbn [bind].
  eval_bind Hti. eval_bind Hpz. eval_bind Hzdv.
  cbn [np_array nd1 ncols] in Hti, Hpz, Hzdv. cbn [length] in Hzdv.
  destruct (evals_var_inv _ _ _ _ _ _ Hti) as (_ & Dti & Rti & Cti & Iti).
  destruct (evals_var_inv _ _ _ _ _ _ Hpz) as (_ & Dpz & Rpz & Cpz & Ipz).
  destruct (evals_var_inv _ _ _ _ _ _ Hzdv) as (_ & Dzd & Rzd & Czd & Izd).
  set (max_rho := min6 p / p_NA p) in *.
  set (rho := np_array (linspace 0.0 max_rho rho_samples)) in *.
  assert (Hmr : 0 <= max_rho).
  { unfold max_rho, Rdiv. apply Rmult_le_pos;
      [unfold min6; repeat apply Rmin_glb; lra
      |apply Rlt_le, Rinv_0_lt_compat; lra]. }
  assert (Hrhoc : ncols rho = rho_samples).
  { unfold rho. cbn [np_array nd1 ncols].
    by rewrite length_linspace by (unfold rho_samples; lia). }
  assert (Hrho : ∀ i j, (j < rho_samples)%nat →
            ∃ x, bitem rho i j = Val x ∧ 0 <= x <= max_rho).
  { intros i j Hj. unfold bitem. rewrite Hrhoc, (bidx_lt _ j) by done.
    eexists. split; [reflexivity|].
    apply linspace_range; [done|unfold rho_samples; lia|done]. }
  pose proof (OPD_eval p wvl rho v v0 v1 r r HM Hw eq_refl Cti Cpz Czd
                ltac:(by rewrite Rpz, Rti)
                ltac:(rewrite Rzd; apply bdim_1_r)) as HOPD.
  rewrite Dti, Dpz, Dzd, Hrhoc in HOPD. cbn [Nat.max rho np_array nd1 ndim] in HOPD.
  lazymatch goal with
  | |- context [bind (OPD ?a ?b ?c ?d ?e ?f) ?k] =>
      destruct (evals_bind _ _ _ _ _ _ k HOPD) as (opdt & -> & Hopdt)
  end.
  clear HOPD.
  assert (Hsfev : evals true (var (Np sf)) 1 1 num_basis
            (λ i j, Val (engine_sf p wvl (bidx num_basis j)))).
  { apply (evals_of_array sf 1 1 num_basis (λ _ j, Val (engine_sf p wvl j))); try done.
    intros i j Hi Hj. assert (i = 0%nat) as -> by lia. by apply Hsf. }
  eval_bind HJ.
  destruct (evals_var_inv _ _ _ _ _ _ HJ) as (_ & DJ & RJ & CJ & _).
  destruct (evals_var_inv _ _ _ _ _ _ Hopdt) as (_ & Dop & Rop & Cop & _).
  rewrite (transpose_2d (to_np v2)) by done.
  rewrite (transpose_2d (nd_map _ (to_np opdt))) by done.
  cbn [nd_map nrows ncols item]. rewrite RJ, CJ, Rop, Cop.
  lazymatch goal with
  | |- context [lstsq ?a ?b] =>
      destruct (lstsq_finite a b) as (C & -> & DC & RC & CC & FC)
  end; try done.
  { intros i j Hi Hj. cbn [nd2 nrows ncols item] in *.
    rewrite (evals_var_item _ _ _ _ _ _ _ _ HJ) by done.
    destruct (Hrho j i Hi) as (x & -> & _). cbn [f64_op f64_lift]. by eexists. }
  { intros i j Hi Hj. cbn [nd2 nrows ncols item] in *.
    rewrite (evals_var_item _ _ _ _ _ _ _ _ Hopdt) by done.
    destruct (Hrho j i Hi) as (x & -> & Hx0 & Hx1).
    assert (bidx r j < r)%nat as Hj' by (by rewrite bidx_lt).
    destruct (bidx_operand _ _ _ j Hb Hj') as (Hjp & Hjz & _ & _).
    rewrite Iti, Ipz, Izd by (rewrite ?bidx_1; done || lia).
    unfold bitem at 1 2 3. cbn [np_array nd1 nrows ncols item f64_op].
    change (nth (bidx (length [zdv]) j) [zdv] 0) with zdv.
    assert (Hfin : is_finite (OPD_item p wvl (Val x)
                (Val (nth (bidx (length zv) j) zv 0 + p_ti0 p))
                (Val (nth (bidx (length pz) j) pz 0)) (Val zdv))).
    { assert (p_NA p * x <= min6 p) as Hle.
      { unfold max_rho in Hx1. apply (Rmult_le_compat_l (p_NA p)) in Hx1; [|lra].
        replace (p_NA p * (min6 p / p_NA p)) with (min6 p) in Hx1 by (field; lra).
        done. }
      assert (0 <= p_NA p * x) as Hge by (apply Rmult_le_pos; lra).
      assert (Hsq2 : ∀ n, 0 <= n → min6 p <= n → (p_NA p * x) ^ 2 <= n ^ 2).
      { intros n Hn0 Hn. clear -Hle Hge Hn0 Hn. nra. }
      destruct (min6_spec p) as [_ Hmin]. cbn zeta in Hmin.
      assert (Hm : ∀ n, n ∈ [p_NA p; p_ng0 p; p_ng p; p_ni0 p; p_ni p; p_ns p] →
                   min6 p <= n) by exact Hmin.
      apply OPD_item_finite; [exact Hw| |apply Hsq2..]; try assumption.
      - intros E. apply Rmult_integral in E as [E|E]; [|done].
        apply Rmult_integral in E as [E|E]; [lra|done].
      - apply Hm. rewrite !elem_of_cons. tauto.
      - apply Hm. rewrite !elem_of_cons. tauto.
      - apply Hm. rewrite !elem_of_cons. tauto.
      - apply Hm. rewrite !elem_of_cons. tauto.
      - apply Hm. rewrite !elem_of_cons. tauto. }
    destruct Hfin as (o & ->).
    cbn [c_of_real c_mul c_exp fst snd f64_op f64_lift]. 
    split; eexists; reflexivity. }
  cbn [nd2 ncols] in RC, CC. cbn [bind].
  eval_bind Hrv0. eval_bind Hbb. eval_bind Hden. eval_bind HRn. eval_bind HRt.
  cbn [np_array nd1 ncols nrows] in HRt.
  destruct (evals_var_inv _ _ _ _ _ _ HRt) as (_ & DRt & RRt & CRt & _).
  unfold np_dot. rewrite decide_True by (by rewrite CRt, RC). cbn [bind].
  exists C. eexists. split; [reflexivity|].
  cbn [transpose nd_map nd2 ndim nrows ncols item].
  do 6 (split; [done|]).
  intros i j Hi Hj. unfold psf_item. cbn zeta. rewrite CRt.
  erewrite (fmap_seq_ext _ _ 0 num_basis); [reflexivity|].
  intros l Hl. cbn beta.
  rewrite (evals_var_item _ _ _ _ _ _ j l HRt) by lia.
  rewrite (bidx_lt num_basis l) by lia.
  unfold radial_item, engine_b, engine_k, engine_a, bitem.
  cbn [np_array nd1 nrows ncols item length].
  rewrite (bidx_lt (length rv) j) by done.
  reflexivity.
Qed.

Lemma bind_assoc {A B C} (m : result A) (f : A → result B) (g : B → result C) :
  bind (bind m f) g = bind m (λ x, bind (f x) g).
Proof. by destruct m. Qed.

Lemma bind_ext {A B} (m : result A) (f g : A → result B) :
  (∀ x, f x = g x) → bind m f = bind m g.
Proof. intros H. destruct m; [apply H|done]. Qed.

(** The normalised run is the plain run followed by the division by the
    maximum. *)
Lemma gLZRScan_normalize mp pz rv zd zv wvl :
  gLZRScan mp pz rv zd zv true wvl =
  (g <- gLZRScan mp pz rv zd zv false wvl ;;
   m <- np_max g ;;
   Ok (nd_map (λ x, (x / m)%f64) g)).
Proof.
  unfold gLZRScan.
  repeat (rewrite bind_assoc; apply bind_ext; intros ?; cbn zeta).
  reflexivity.
Qed.

End EngineProofs.

(** ** Maxima and sums *)

Lemma np_max_empty a : (nrows a * ncols a = 0)%nat → np_max a = Raise ValueError.
Proof.
  intros H. unfold np_max. pose proof (length_ravel a) as Hl. rewrite H in Hl.
  by destruct (ravel a).
Qed.

Lemma np_max_nonempty a : (0 < nrows a * ncols a)%nat → ∃ m, np_max a = Ok m.
Proof.
  intros H. unfold np_max. pose proof (length_ravel a) as Hl.
  destruct (ravel a); [cbn in Hl; lia|]. by eexists.
Qed.

Lemma np_max_single a : nrows a = 1%nat → ncols a = 1%nat → np_max a = Ok (item a 0 0).
Proof. intros Hr Hc. unfold np_max, ravel, row. by rewrite Hr, Hc. Qed.

Lemma f64_div_zero x : (x / Val 0)%f64 = NaNInf.
Proof. destruct x as [x|]; [|done]. cbn. by destruct (Req_dec_T 0 0). Qed.

Lemma c_add_nan_r z : c_add z c_nan = c_nan.
Proof. destruct z as [[?|] [?|]]; reflexivity. Qed.

Lemma foldl_c_add_nan l acc : c_nan ∈ l → foldl c_add acc l = c_nan.
Proof.
  assert (Hnan : ∀ l, foldl c_add c_nan l = c_nan).
  { clear. induction l as [|x l IH]; [done|]. exact IH. }
  revert acc. induction l as [|x l IH]; intros acc Hin.
  - by apply elem_of_nil in Hin.
  - apply elem_of_cons in Hin as [<-|Hin]; cbn [foldl].
    + rewrite c_add_nan_r. apply Hnan.
    + by apply IH.
Qed.

Lemma foldl_c_add_zero l : Forall (λ z, z = c_zero) l → foldl c_add c_zero l = c_zero.
Proof.
  induction 1 as [|x l -> _ IH]; [done|]. cbn [foldl].
  replace (c_add c_zero c_zero) with c_zero; [done|].
  unfold c_add, c_zero. cbn. by rewrite Rplus_0_l.
Qed.

(** A transform that is zero on finite coefficients gives a zero intensity. *)
Lemma psf_item_zero Rrow Ccol :
  (∀ m, (m < num_basis)%nat → Rrow m = Val 0 ∧ c_finite (Ccol m)) →
  psf_item Rrow Ccol = Val 0.
Proof.
  intros H. unfold psf_item. cbn zeta.
  fold c_zero. rewrite foldl_c_add_zero.
  - unfold c_abs, c_zero. cbn [fst snd f64_op f64_sqrt].
    destruct (Rlt_dec (0 * 0 + 0 * 0) 0); [lra|]. cbn [f64_op].
    f_equal. replace (0 * 0 + 0 * 0) with 0 by lra. rewrite sqrt_0. lra.
  - apply Forall_fmap, Forall_forall. intros m Hm%elem_of_seq. cbn.
    destruct (H m ltac:(lia)) as (-> & (cr & Hcr) & (ci & Hci)).
    destruct (Ccol m) as [c1 c2]. cbn in Hcr, Hci. subst.
    unfold c_mul, c_of_real, c_zero. cbn. f_equal; f_equal; lra.
Qed.

Lemma foldl_f64_max_nan l x : NaNInf ∈ x :: l → foldl f64_max x l = NaNInf.
Proof.
  assert (Hnan : ∀ l, foldl f64_max NaNInf l = NaNInf).
  { clear. induction l as [|y l IH]; [done|]. exact IH. }
  revert x. induction l as [|y l IH]; intros x Hin.
  - apply elem_of_cons in Hin as [<-|Hin]; [done|]. by apply elem_of_nil in Hin.
  - cbn [foldl]. apply elem_of_cons in Hin as [<-|Hin]; [apply Hnan|].
    apply elem_of_cons in Hin as [<-|Hin].
    + destruct x; apply Hnan.
    + apply IH. by apply elem_of_cons; right.
Qed.

(** [numpy.max] propagates a NaN. *)
Lemma np_max_nan a i j :
  (i < nrows a)%nat → (j < ncols a)%nat → item a i j = NaNInf →
  np_max a = Ok NaNInf.
Proof.
  intros Hi Hj Hij. unfold np_max.
  assert (NaNInf ∈ ravel a) as Hin.
  { rewrite <- Hij. by apply item_in_ravel. }
  destruct (ravel a) as [|x l]; [by apply elem_of_nil in Hin|].
  by rewrite foldl_f64_max_nan.
Qed.

Lemma f64_div_nan x : (x / NaNInf)%f64 = NaNInf.
Proof. by destruct x. Qed.

(** ** The radial transform at its singular and at its dark points *)

Lemma engine_b_val p wvl zd x :
  zd ≠ 0 → engine_b p wvl zd x = Val (engine_b_real p wvl zd x).
Proof.
  intros Hzd. unfold engine_b, engine_b_real. cbn [f64_op].
  by destruct (Req_dec_T zd 0).
Qed.

Lemma engine_sf_pos p wvl m : valid_params p → 0 < wvl → 0 < engine_sf p wvl m.
Proof.
  intros (HNA & _) Hw. unfold engine_sf. rewrite S_INR.
  pose proof (pos_INR m) as Hm.
  apply Rdiv_lt_0_compat; [|done]. nra.
Qed.

Section Transform.
Context {lib : NumLib}.

(** Where sf^2 = b^2 the division is by zero. *)
Lemma radial_item_singular sf b mr :
  sf * sf = b * b → radial_item (Val sf) (Val b) mr = NaNInf.
Proof.
  intros H. unfold radial_item. cbn [f64_op f64_lift].
  destruct (Req_dec_T (sf * sf - b * b) 0); [done|lra].
Qed.

(** With an empty pupil, on the axis, the transform is 0. *)
Lemma radial_item_dark sf :
  sf ≠ 0 → radial_item (Val sf) (Val 0) 0 = Val 0.
Proof.
  intros H. unfold radial_item. cbn [f64_op f64_lift].
  destruct (Req_dec_T (sf * sf - 0 * 0) 0) as [E|_]; [exfalso; nra|].
  f_equal. unfold Rdiv. ring.
Qed.

(** The dark grid: one axial sample, the radius 0. *)
Lemma dark_scan :
  ∃ g, gLZRScan (dict_of dark_params) [0] [0] [150000] [0] false 0.6 = Ok g ∧
    ndim g = 2%nat ∧ nrows g = 1%nat ∧ ncols g = 1%nat ∧
    item g 0 0 = Val 0 ∧ np_max g = Ok (Val 0).
Proof.
  assert (valid_params dark_params) as Hp by (unfold valid_params; cbn; lra).
  destruct (gLZRScan_eval dark_params [0] [0] 150000 [0] 0.6 1 Hp)
    as (C & g & E & Hd & Hr & Hc & HCr & HCc & HCf & Hitem); [lra|lra|done|].
  assert (item g 0 0 = Val 0) as H0.
  { rewrite Hitem by (cbn; lia). apply psf_item_zero. intros m Hm. split.
    - rewrite engine_b_val by lra.
      assert (engine_b_real dark_params 0.6 150000 (nth 0 [0] 0) = 0) as ->.
      { unfold engine_b_real. cbn [nth]. unfold Rdiv. ring. }
      assert (min6 dark_params / p_NA dark_params = 0) as ->.
      { unfold min6, Rmin. cbn [dark_params p_NA p_ng0 p_ng p_ni0 p_ni p_ns].
        repeat destruct (Rle_dec _ _); lra. }
      apply radial_item_dark.
      pose proof (engine_sf_pos dark_params 0.6 m Hp). lra.
    - apply HCf; [by rewrite HCr|rewrite HCc; lia]. }
  exists g. do 4 (split; [done|]). split; [done|].
  by rewrite np_max_single, H0.
Qed.

Lemma gLZRFocalScanSlow_normalize mp rv zv pz wvl zd :
  gLZRFocalScanSlow mp rv zv true pz wvl zd =
  (g <- gLZRFocalScanSlow mp rv zv false pz wvl zd ;;
   m <- np_max g ;;
   Ok (nd_map (λ x, (x / m)%f64) g)).
Proof.
  unfold gLZRFocalScanSlow.
  repeat (rewrite bind_assoc; apply bind_ext; intros ?; cbn zeta).
  reflexivity.
Qed.

Lemma gLZRParticleScanSlow_normalize mp rv pz wvl zd zv :
  gLZRParticleScanSlow mp rv pz true wvl zd zv =
  (g <- gLZRParticleScanSlow mp rv pz false wvl zd zv ;;
   m <- np_max g ;;
   Ok (nd_map (λ x, (x / m)%f64) g)).
Proof.
  unfold gLZRParticleScanSlow.
  repeat (rewrite bind_assoc; apply bind_ext; intros ?; cbn zeta).
  reflexivity.
Qed.

Lemma normalize_zero_max g :
  np_max g = Ok (Val 0) →
  returns_nan_grid g (m <- np_max g ;; Ok (nd_map (λ x, (x / m)%f64) g)).
Proof.
  intros Hm. rewrite Hm. cbn [bind]. eexists. split; [reflexivity|].
  cbn [nd_map ndim nrows ncols item]. do 3 (split; [done|]).
  intros i j. apply f64_div_zero.
Qed.

(** C3, as the code has it.  gLZRScan and the two slow scans have no test
    of the maximum.  When the grid has the global maximum zero and
    normalize is set, they divide the grid by that zero: the call raises
    nothing, and returns a grid of the same shape in which every item is
    0/0, not a number. *)
Theorem normalize_dark_gives_nan :
  (∀ mp pz rv zd zv wvl g,
     gLZRScan mp pz rv zd zv false wvl = Ok g → np_max g = Ok (Val 0) →
     returns_nan_grid g (gLZRScan mp pz rv zd zv true wvl)) ∧
  (∀ mp rv zv pz wvl zd g,
     gLZRFocalScanSlow mp rv zv false pz wvl zd = Ok g → np_max g = Ok (Val 0) →
     returns_nan_grid g (gLZRFocalScanSlow mp rv zv true pz wvl zd)) ∧
  (∀ mp rv pz wvl zd zv g,
     gLZRParticleScanSlow mp rv pz false wvl zd zv = Ok g → np_max g = Ok (Val 0) →
     returns_nan_grid g (gLZRParticleScanSlow mp rv pz true wvl zd zv)).
Proof.
  split; [|split].
  - intros mp pz rv zd zv wvl g Hg Hm.
    rewrite gLZRScan_normalize, Hg. cbn [bind]. by apply normalize_zero_max.
  - intros mp rv zv pz wvl zd g Hg Hm.
    rewrite gLZRFocalScanSlow_normalize, Hg. cbn [bind]. by apply normalize_zero_max.
  - intros mp rv pz wvl zd zv g Hg Hm.
    rewrite gLZRParticleScanSlow_normalize, Hg. cbn [bind].
    by apply normalize_zero_max.
Qed.

End Transform.

(** With that library the slow scans of the example objective, at one
    radius and one axial sample, give the grid whose one item is 0. *)
Lemma slowGL_trivial max_rho rv zv pz :
  ∃ t, @slowGL trivial_lib (dict_of example_params) max_rho rv zv pz 0.6 150000
         = Ok (Val t) ∧ t = 0.
Proof.
  unfold slowGL. getitems.
  rewrite math_sqrt_ok by (cbn; lra). cbn [bind].
  rewrite py_div_ok.
  2:{ pose proof (sqrt_lt_R0 (p_M example_params * p_M example_params
                              + p_NA example_params * p_NA example_params)) as H.
      cbn in *. lra. }
  cbn [bind]. rewrite py_div_ok by lra. cbn [bind]. getitems.
  cbn zeta. unfold quad. cbn [quad_limit trivial_lib quad_loop quad_finish bind].
  rewrite py_div_ok by lra. cbn [bind f64_op].
  eexists. split; [reflexivity|]. ring.
Qed.

Lemma slow_scans_trivial :
  (∃ g, @gLZRFocalScanSlow trivial_lib (dict_of example_params) [0] [0] false 0 0.6 None
          = Ok g ∧ np_max g = Ok (Val 0)) ∧
  (∃ g, @gLZRParticleScanSlow trivial_lib (dict_of example_params) [0] [0] false 0.6 None 0
          = Ok g ∧ np_max g = Ok (Val 0)).
Proof.
  destruct (configure_eval example_params 0.6) as (sf & Ecfg & _); [cbn; lra|lra|].
  split.
  - unfold gLZRFocalScanSlow. cbn [default_zd]. rewrite getitem_zd0. cbn [bind].
    rewrite Ecfg. cbn [bind snd]. cbn zeta.
    unfold slow_grid. cbn [length for_range nth].
    destruct (slowGL_trivial (min6 example_params / p_NA example_params) 0 0 0)
      as (t & Et & ->).
    change (p_zd0 example_params) with 150000. rewrite Et. cbn [bind].
    eexists. split; [reflexivity|]. by rewrite np_max_single.
  - unfold gLZRParticleScanSlow. cbn [default_zd]. rewrite getitem_zd0. cbn [bind].
    rewrite Ecfg. cbn [bind snd]. cbn zeta.
    unfold slow_grid. cbn [length for_range nth].
    destruct (slowGL_trivial (min6 example_params / p_NA example_params) 0 0 0)
      as (t & Et & ->).
    change (p_zd0 example_params) with 150000. rewrite Et. cbn [bind].
    eexists. split; [reflexivity|]. by rewrite np_max_single.
Qed.

Lemma normalize_dark_gives_nan_witness :
  for_every_lib (λ lib, ∃ g,
    gLZRScan (dict_of dark_params) [0] [0] [150000] [0] false 0.6 = Ok g ∧
    np_max g = Ok (Val 0) ∧
    returns_nan_grid g
      (gLZRScan (dict_of dark_params) [0] [0] [150000] [0] true 0.6)) ∧
  (∃ g,
    @gLZRFocalScanSlow trivial_lib (dict_of example_params) [0] [0] false 0 0.6 None
      = Ok g ∧
    np_max g = Ok (Val 0) ∧
    returns_nan_grid g
      (@gLZRFocalScanSlow trivial_lib (dict_of example_params) [0] [0] true 0 0.6 None)) ∧
  (∃ g,
    @gLZRParticleScanSlow trivial_lib (dict_of example_params) [0] [0] false 0.6 None 0
      = Ok g ∧
    np_max g = Ok (Val 0) ∧
    returns_nan_grid g
      (@gLZRParticleScanSlow trivial_lib (dict_of example_params) [0] [0] true 0.6 None 0)).
Proof.
  split; [|split].
  - intros lib. destruct dark_scan as (g & Hg & _ & _ & _ & _ & Hm).
    exists g. split; [exact Hg|]. split; [exact Hm|].
    exact (proj1 normalize_dark_gives_nan _ _ _ _ _ _ g Hg Hm).
  - destruct (proj1 slow_scans_trivial) as (g & Hg & Hm).
    exists g. split; [exact Hg|]. split; [exact Hm|].
    exact (proj1 (proj2 normalize_dark_gives_nan) _ _ _ _ _ _ g Hg Hm).
  - destruct (proj2 slow_scans_trivial) as (g & Hg & Hm).
    exists g. split; [exact Hg|]. split; [exact Hm|].
    exact (proj2 (proj2 normalize_dark_gives_nan) _ _ _ _ _ _ g Hg Hm).
Defined.

(** C3, as stated, fails: on the dark grid, whose maximum is zero, the
    normalised call raises no error and returns a grid whose item is not a
    number. *)
Lemma normalize_dark_counterexample :
  for_every_lib (λ lib, ∃ g g',
    gLZRScan (dict_of dark_params) [0] [0] [150000] [0] false 0.6 = Ok g ∧
    np_max g = Ok (Val 0) ∧
    gLZRScan (dict_of dark_params) [0] [0] [150000] [0] true 0.6 = Ok g' ∧
    item g' 0 0 = NaNInf ∧
    ¬ raises (gLZRScan (dict_of dark_params) [0] [0] [150000] [0] true 0.6)).
Proof.
  intros lib. destruct dark_scan as (g & Hg & _ & _ & _ & _ & Hm).
  exists g. eexists. split; [exact Hg|]. split; [exact Hm|].
  rewrite gLZRScan_normalize, Hg. cbn [bind]. rewrite Hm. cbn [bind].
  split; [reflexivity|]. split; [apply f64_div_zero|].
  intros (e & He). discriminate He.
Qed.

Section Singularity.
Context {lib : NumLib}.

(** [gLZRScan] ends with these two steps. *)
Lemma gLZRScan_blocks mp pz rv zd zv normalize wvl :
  gLZRScan mp pz rv zd zv normalize wvl =
  (cfg <- configure mp wvl ;;
   let scaling_factor := cfg.1 in
   let max_rho := cfg.2 in
   let rho := np_array (linspace 0.0 max_rho rho_samples) in
   NA <- getitem mp "NA" ;;
   zd0 <- getitem mp "zd0" ;;
   M <- getitem mp "M" ;;
   s <- math_sqrt (M * M + NA * NA) ;;
   a <- py_op Div (NA * zd0) s ;;
   k <- py_op Div (2.0 * PI) wvl ;;
   ti0 <- getitem mp "ti0" ;;
   ti <- (expr_reshape_col (arr (np_array zv)) + ti0)%py ;;
   pz <- expr_reshape_col (arr (np_array pz)) ;;
   zd <- expr_reshape_col (arr (np_array zd)) ;;
   opdt <- OPD mp (Np rho) ti pz wvl zd ;;
   let phase :=
     nd_map (λ x, c_exp (c_mul (Val 0, Val 1) (c_of_real x))) (to_np opdt) in
   J <- np_apply j0 (expr_reshape_col scaling_factor * arr rho)%py ;;
   C <- lstsq (transpose (to_np J)) (transpose phase) ;;
   M <- getitem mp "M" ;;
   rv <- (arr (np_array rv) * M)%py ;;
   b <- (k * a * expr_reshape_col rv / zd)%py ;;
   Rt <- radial_transform scaling_factor b max_rho ;;
   intensity_grid Rt C normalize).
Proof.
  unfold gLZRScan, radial_transform, intensity_grid.
  do 17 (apply bind_ext; intros ?; cbn zeta).
  rewrite bind_assoc. apply bind_ext. intros denom.
  rewrite bind_assoc. reflexivity.
Qed.

(** The transform, item by item. *)
Lemma radial_transform_items sf b max_rho :
  ndim sf = 1%nat → nrows sf = 1%nat → ndim b = 2%nat → ncols b = 1%nat →
  ∃ Rt, radial_transform (Np sf) (Np b) max_rho = Ok (Np Rt) ∧
    ndim Rt = 2%nat ∧ nrows Rt = nrows b ∧ ncols Rt = ncols sf ∧
    ∀ j m, (j < nrows b)%nat → (m < ncols sf)%nat →
      item Rt j m = radial_item (item sf 0 m) (item b j 0) max_rho.
Proof.
  intros Hsd Hsr Hbd Hbc.
  assert (Hsf : evals true (var (Np sf)) 1 1 (ncols sf)
                  (λ i j, item sf (bidx 1 i) (bidx (ncols sf) j))).
  { by apply (evals_of_array sf 1 1 (ncols sf) (item sf)). }
  assert (Hb : evals true (var (Np b)) 2 (nrows b) 1
                 (λ i j, item b (bidx (nrows b) i) (bidx 1 j))).
  { by apply (evals_of_array b 2 (nrows b) 1 (item b)). }
  unfold radial_transform.
  eval_bind Hden. eval_bind HRn.
  eassert (HRt : evals _ (val_iop Div v0 v) _ _ _ _) by eval_expr.
  apply evals_inv in HRt as (Rt & -> & Hd & Hr & Hc & Hitem).
  exists Rt. do 4 (split; [done|]).
  intros j m Hj Hm. rewrite Hitem by done.
  rewrite !bidx_1, (bidx_lt _ j), (bidx_lt _ m) by done. reflexivity.
Qed.

(** A transform item that is not finite makes the intensity at its radius
    not finite, at every axial sample; the division by the greatest value
    leaves it so, whatever that value is. *)
Lemma intensity_grid_nan Rt C j m :
  nrows C = ncols Rt → (j < nrows Rt)%nat → (m < ncols Rt)%nat →
  item Rt j m = NaNInf →
  (∃ g, intensity_grid (Np Rt) C false = Ok g ∧
     nrows g = ncols C ∧ ncols g = nrows Rt ∧
     ∀ i, (i < ncols C)%nat → item g i j = NaNInf) ∧
  ((0 < ncols C)%nat →
     ∃ g, intensity_grid (Np Rt) C true = Ok g ∧
       nrows g = ncols C ∧ ncols g = nrows Rt ∧
       ∀ i, (i < ncols C)%nat → item g i j = NaNInf).
Proof.
  intros HC Hj Hm HR. unfold intensity_grid, np_dot. cbn [to_np].
  rewrite decide_True by done. cbn [bind]. cbn zeta.
  rewrite transpose_2d by done. cbn [nd_map nd2 nrows ncols item].
  set (g := nd2 _ _ _).
  assert (Hg : ∀ i, item g i j = NaNInf).
  { intros i. unfold g. cbn [nd2 item].
    rewrite foldl_c_add_nan; [done|].
    apply list_elem_of_fmap. exists m. split; [|apply elem_of_seq; lia].
    by rewrite HR. }
  split; [by exists g|].
  intros Hz.
  destruct (np_max_nonempty g) as (mx & ->); [cbn [g nd2 nrows ncols]; nia|].
  cbn [bind].
  eexists. split; [reflexivity|]. do 2 (split; [done|]).
  intros i _. cbn [nd_map item]. by rewrite Hg.
Qed.

(** C2, as the code has it.  The radial transform of gLZRScan (lines 211
    to 213) has no branch for a zero denominator: R /= denom is evaluated
    directly.  For a 1-D array of scaling factors and a column of defocus
    terms b, the shapes that gLZRScan gives them, wherever an item t of b
    and a scaling factor s have s*s = t*t, so that denom is 0 there, the
    transform raises nothing and its item at (j, m) is x/0, NaN or
    infinite.  The intensity at the radius j is then NaN or infinite at
    every axial sample, in the plain grid and in the normalised one. *)
Theorem singular_denominator_unguarded sf b C max_rho j m s t :
  ndim sf = 1%nat → nrows sf = 1%nat → ndim b = 2%nat → ncols b = 1%nat →
  nrows C = ncols sf →
  (j < nrows b)%nat → (m < ncols sf)%nat →
  item sf 0 m = Val s → item b j 0 = Val t → s * s = t * t →
  ∃ Rt, radial_transform (Np sf) (Np b) max_rho = Ok (Np Rt) ∧
    nrows Rt = nrows b ∧ ncols Rt = ncols sf ∧
    item Rt j m = NaNInf ∧
    (∃ g, intensity_grid (Np Rt) C false = Ok g ∧
       nrows g = ncols C ∧ ncols g = nrows b ∧
       ∀ i, (i < ncols C)%nat → item g i j = NaNInf) ∧
    ((0 < ncols C)%nat →
       ∃ g, intensity_grid (Np Rt) C true = Ok g ∧
         nrows g = ncols C ∧ ncols g = nrows b ∧
         ∀ i, (i < ncols C)%nat → item g i j = NaNInf).
Proof.
  intros Hsd Hsr Hbd Hbc HC Hj Hm Hs Ht Hsq.
  destruct (radial_transform_items sf b max_rho Hsd Hsr Hbd Hbc)
    as (Rt & E & Hd & Hr & Hc & Hitem).
  assert (item Rt j m = NaNInf) as Hnan.
  { rewrite Hitem, Hs, Ht by done. by apply radial_item_singular. }
  exists Rt. do 4 (split; [done|]).
  rewrite <- Hr. apply (intensity_grid_nan Rt C j m); rewrite ?Hr, ?Hc; done.
Qed.

(** The shape of the radial grid, normalised or not. *)
Lemma gLZRScan_shape p pz rv zdv zv wvl r normalize :
  valid_params p → wvl ≠ 0 → zdv ≠ 0 →
  bdim (length pz) (length zv) = Ok r →
  (normalize = true → (0 < r * length rv)%nat) →
  ∃ PSF, gLZRScan (dict_of p) pz rv [zdv] zv normalize wvl = Ok PSF ∧
    ndim PSF = 2%nat ∧ nrows PSF = r ∧ ncols PSF = length rv.
Proof.
  intros Hp Hw Hzd Hb Hn.
  destruct (gLZRScan_eval p pz rv zdv zv wvl r Hp Hw Hzd Hb)
    as (C & PSF & E & Hd & Hr & Hc & _).
  destruct normalize; [|by exists PSF].
  rewrite gLZRScan_normalize, E. cbn [bind].
  destruct (np_max_nonempty PSF) as (mx & ->); [rewrite Hr, Hc; by apply Hn|].
  cbn [bind]. eexists. split; [reflexivity|]. done.
Qed.

(** X31.  For a valid parameter set, dxy > 0, xy_size >= 1, a wavelength
    that is not zero, a camera position that is not given or not zero, and
    n focus offsets zv, with n >= 1 when normalize is set, gLXYZFocalScan
    returns a volume of n slices, each a 2-D array of shape
    (xy_size, xy_size). *)
Theorem gLXYZFocalScan_shape p dxy xy_size zv normalize pz wvl zd :
  valid_params p → 0 < dxy → (1 <= xy_size)%Z → wvl ≠ 0 → zd ≠ Some 0 →
  (normalize = true → zv ≠ []) →
  ∃ vol, gLXYZFocalScan (dict_of p) dxy xy_size zv normalize pz wvl zd = Ok vol ∧
    length vol = length zv ∧
    Forall (λ s, ndim s = 2%nat ∧ nrows s = Z.to_nat xy_size ∧
                 ncols s = Z.to_nat xy_size) vol.
Proof.
  intros Hp Hd Hxy Hw Hzd Hn. unfold gLXYZFocalScan.
  rewrite calcRv_eval by lra. cbn [bind]. unfold gLZRFocalScan.
  assert (∃ z, default_zd (dict_of p) zd = Ok z ∧ z ≠ 0) as (z & -> & Hz).
  { destruct zd as [z|]; cbn [default_zd].
    - exists z. split; [done|]. by intros ->.
    - rewrite getitem_zd0. exists (p_zd0 p). split; [done|]. apply Hp. }
  cbn [bind].
  pose proof (rv_size_pos xy_size) as Hpos.
  destruct (gLZRScan_shape p [pz]
              ((λ i, 0 + INR i * (dxy / 2)) <$> seq 0 (rv_size xy_size))
              z zv wvl (length zv) normalize Hp Hw Hz)
    as (PSF & -> & HPd & HPr & HPc).
  { apply bdim_1_l. }
  { intros Hnorm. rewrite length_fmap, length_seq.
    specialize (Hn Hnorm). destruct zv; [done|]. cbn [length]. lia. }
  cbn [bind]. rewrite length_fmap, length_seq in HPc.
  destruct (psfRZToPSFXYZ_ok dxy xy_size PSF Hd Hxy HPd HPc) as (vol & -> & Hl & Hs).
  exists vol. by rewrite Hl, HPr.
Qed.

End Singularity.

(** The scaling factors of the example objective at 0.6 microns, and a
    defocus term that meets the first of them. *)
Lemma singular_denominator_unguarded_witness :
  for_every_lib (λ lib,
    let sf := np_array ((λ m, engine_sf example_params 0.6 m) <$> seq 0 3) in
    let b := nd2 2 1 (λ j _, Val (INR j * engine_sf example_params 0.6 0)) in
    let C := nd2 3 1 (λ _ _, (Val 1, Val 0)) in
    ∃ Rt, radial_transform (Np sf) (Np b) 0.95 = Ok (Np Rt) ∧
      nrows Rt = nrows b ∧ ncols Rt = ncols sf ∧
      item Rt 1 0 = NaNInf ∧
      (∃ g, intensity_grid (Np Rt) C false = Ok g ∧
         nrows g = ncols C ∧ ncols g = nrows b ∧
         ∀ i, (i < ncols C)%nat → item g i 1 = NaNInf) ∧
      ((0 < ncols C)%nat →
         ∃ g, intensity_grid (Np Rt) C true = Ok g ∧
           nrows g = ncols C ∧ ncols g = nrows b ∧
           ∀ i, (i < ncols C)%nat → item g i 1 = NaNInf)).
Proof.
  intros lib. cbn zeta.
  eapply (singular_denominator_unguarded _ _ _ 0.95 1 0
            (engine_sf example_params 0.6 0) (1 * engine_sf example_params 0.6 0));
    try first [ reflexivity | cbn; lia ].
  lra.
Defined.

(** C2, as stated, fails: for the first three scaling factors of the
    example objective at 0.6 microns and a defocus term equal to the first
    of them, sf^2 = b^2 at the item (0, 0); the transform raises nothing
    and the item it returns there is not finite. *)
Lemma singular_denominator_counterexample :
  for_every_lib (λ lib,
    let sf := np_array ((λ m, engine_sf example_params 0.6 m) <$> seq 0 3) in
    let b := nd2 1 1 (λ _ _, Val (engine_sf example_params 0.6 0)) in
    ∃ Rt, radial_transform (Np sf) (Np b) 0.95 = Ok (Np Rt) ∧
      item Rt 0 0 = NaNInf ∧ ¬ is_finite (item Rt 0 0)).
Proof.
  intros lib. cbn zeta.
  destruct (radial_transform_items
              (np_array ((λ m, engine_sf example_params 0.6 m) <$> seq 0 3))
              (nd2 1 1 (λ _ _, Val (engine_sf example_params 0.6 0))) 0.95)
    as (Rt & E & _ & _ & _ & Hitem); try reflexivity.
  exists Rt. split; [exact E|].
  assert (item Rt 0 0 = NaNInf) as ->.
  { rewrite Hitem by (cbn; lia). apply radial_item_singular. reflexivity. }
  split; [done|]. by intros (x & ?).
Qed.

Lemma gLXYZFocalScan_shape_witness :
  for_every_lib (λ lib,
    ∃ vol, gLXYZFocalScan (dict_of example_params) 0.1 3 [-1; 0; 1] true 0 0.6 None
             = Ok vol ∧
      length vol = length [-1; 0; 1] ∧
      Forall (λ s, ndim s = 2%nat ∧ nrows s = Z.to_nat 3 ∧
                   ncols s = Z.to_nat 3) vol).
Proof.
  intros lib.
  apply (gLXYZFocalScan_shape example_params 0.1 3 [-1; 0; 1] true 0 0.6 None);
    [unfold valid_params; cbn; lra|lra|lia|lra|done|done].
Defined.

(** C8.  With no focus offset and normalize set, which is the default,
    gLXYZFocalScan raises ValueError: the radial grid has no item, and
    numpy.max at line 221 has no greatest value to return.  The same call
    with normalize unset returns the volume of shape (0, 3, 3), the one
    with no slice. *)
Theorem gLXYZFocalScan_no_offset :
  for_every_lib (λ lib,
    gLXYZFocalScan (dict_of example_params) 0.1 3 [] true 0 0.6 None
      = Raise ValueError ∧
    gLXYZFocalScan (dict_of example_params) 0.1 3 [] false 0 0.6 None
      = Ok []).
Proof.
  intros lib.
  assert (valid_params example_params) as Hp by (unfold valid_params; cbn; lra).
  destruct (gLZRScan_eval example_params [0]
              ((λ i, 0 + INR i * (0.1 / 2)) <$> seq 0 (rv_size 3))
              (p_zd0 example_params) [] 0.6 0 Hp)
    as (C & PSF & E & Hd & Hr & Hc & _); [lra|cbn; lra|reflexivity|].
  split.
  - unfold gLXYZFocalScan.
    rewrite calcRv_eval by lra. cbn [bind]. unfold gLZRFocalScan.
    cbn [default_zd]. rewrite getitem_zd0. cbn [bind].
    rewrite gLZRScan_normalize, E.
    cbn [bind]. rewrite np_max_empty by (by rewrite Hr). reflexivity.
  - unfold gLXYZFocalScan.
    rewrite calcRv_eval by lra. cbn [bind]. unfold gLZRFocalScan.
    cbn [default_zd]. rewrite getitem_zd0. cbn [bind]. rewrite E. cbn [bind].
    rewrite length_fmap, length_seq in Hc.
    destruct (psfRZToPSFXYZ_ok 0.1 3 PSF ltac:(lra) ltac:(lia) Hd Hc)
      as (vol & -> & Hl & _).
    rewrite Hr in Hl. by destruct vol.
Qed.

(* ================================================================= *)
(** * Part III: the frame of the module on the store *)
(* ================================================================= *)

Section Frame.
Import Heap.
Context {lib : NumLib}.

Lemma frames_keeps {A} (m : M A) (fresh : store → A → Prop) :
  (∀ σ0, frames σ0 m (fresh σ0)) → keeps_store m fresh.
Proof.
  intros H σ. destruct (H σ σ) as [H1 H2]; [done|]. split; [|done].
  by apply map_subseteq_spec.
Qed.

Lemma frames_weaken {A} σ0 (m : M A) (P Q : A → Prop) :
  frames σ0 m P → (∀ a, P a → Q a) → frames σ0 m Q.
Proof.
  intros H HPQ σ Hσ. destruct (H σ Hσ) as [H1 H2]. split; [done|].
  intros a Ha. by apply HPQ, H2.
Qed.

Lemma frames_ret {A} σ0 (a : A) (Q : A → Prop) : Q a → frames σ0 (ret a) Q.
Proof. intros HQ σ Hσ. split; [done|]. by intros ? [= <-]. Qed.

Lemma frames_lift {A} σ0 (r : result A) : frames σ0 (lift r) (λ _, True).
Proof. intros σ Hσ. by split. Qed.

Lemma frames_bind {A B} σ0 (m : M A) (k : A → M B) P Q :
  frames σ0 m P → (∀ a, P a → frames σ0 (k a) Q) → frames σ0 (mbind m k) Q.
Proof.
  intros Hm Hk σ Hσ. destruct (Hm σ Hσ) as [H1 H2]. unfold mbind.
  destruct (m σ) as [σ1 [a|e]]; cbn [fst snd] in *.
  - by apply (Hk a (H2 a eq_refl) σ1).
  - by split.
Qed.

Lemma frames_alloc σ0 a : frames σ0 (alloc a) (fresh_ref σ0).
Proof.
  intros σ Hσ. unfold alloc. cbn [fst snd].
  pose proof (is_fresh (dom σ)) as Hf.
  assert (σ0 !! fresh (dom σ) = None) as Hnone.
  { apply not_elem_of_dom. intros Hin. apply Hf.
    by apply (subseteq_dom σ0 σ Hσ). }
  split.
  - by apply insert_subseteq_r.
  - intros h [= <-]. unfold fresh_ref. cbn. by apply not_elem_of_dom.
Qed.

Lemma frames_load σ0 h : frames σ0 (load h) (λ _, True).
Proof.
  intros σ Hσ. unfold load. by destruct (σ !! base h) as [[?|?]|].
Qed.

Lemma frames_dict_get σ0 mp key : frames σ0 (dict_get mp key) (λ _, True).
Proof.
  intros σ Hσ. unfold dict_get. by destruct (σ !! mp) as [[?|?]|].
Qed.

Lemma frames_store_through σ0 h a :
  fresh_ref σ0 h → frames σ0 (store_through h a) (λ _, True).
Proof.
  intros Hh σ Hσ. unfold store_through.
  destruct (σ !! base h) as [[?|?]|]; cbn [fst snd]; try done.
  split; [|done]. apply insert_subseteq_r; [|done]. by apply not_elem_of_dom.
Qed.


Lemma frames_hlit σ0 x : frames σ0 (hlit x) (λ _, True).
Proof. by apply frames_ret. Qed.

Lemma frames_hvar σ0 v : frames σ0 (hvar v) (λ _, True).
Proof. by apply frames_ret. Qed.

Lemma frames_h_val σ0 v : frames σ0 (h_val v) (λ _, True).
Proof.
  destruct v; [by apply frames_ret|].
  eapply frames_bind; [apply frames_load|]. intros a _. by apply frames_ret.
Qed.

Lemma frames_h_new σ0 v : frames σ0 (h_new v) (fresh_value σ0).
Proof.
  destruct v; [by apply frames_ret|].
  eapply frames_bind; [apply frames_alloc|]. intros h Hh. by apply frames_ret.
Qed.

Lemma frames_h_op σ0 op a b Pa Pb :
  frames σ0 a Pa → frames σ0 b Pb → frames σ0 (h_op op a b) (fresh_value σ0).
Proof.
  intros Ha Hb. unfold h_op.
  eapply frames_bind; [exact Ha|]. intros x _.
  eapply frames_bind; [exact Hb|]. intros y _.
  eapply frames_bind; [apply frames_h_val|]. intros vx _.
  eapply frames_bind; [apply frames_h_val|]. intros vy _.
  eapply frames_bind; [apply frames_lift|]. intros r _.
  apply frames_h_new.
Qed.

Lemma frames_h_sqrt σ0 e P : frames σ0 e P → frames σ0 (h_sqrt e) (fresh_value σ0).
Proof.
  intros He. unfold h_sqrt.
  eapply frames_bind; [exact He|]. intros x _.
  eapply frames_bind; [apply frames_h_val|]. intros v _.
  eapply frames_bind; [apply frames_lift|]. intros r _.
  apply frames_h_new.
Qed.

Lemma frames_h_apply σ0 f e P :
  frames σ0 e P → frames σ0 (h_apply f e) (fresh_value σ0).
Proof.
  intros He. unfold h_apply.
  eapply frames_bind; [exact He|]. intros x _.
  eapply frames_bind; [apply frames_h_val|]. intros v _.
  eapply frames_bind; [apply frames_lift|]. intros r _.
  apply frames_h_new.
Qed.

Lemma frames_h_view σ0 w e P : frames σ0 e P → frames σ0 (h_view w e) (λ _, True).
Proof.
  intros He. unfold h_view.
  eapply frames_bind; [exact He|]. intros [x|h] _.
  - apply frames_lift.
  - by apply frames_ret.
Qed.

Lemma frames_h_iop σ0 op x y :
  fresh_value σ0 x → frames σ0 (h_iop op x y) (fresh_value σ0).
Proof.
  intros Hx. destruct x as [u|h]; cbn [h_iop].
  - eapply frames_bind; [apply frames_h_val|]. intros vy _.
    eapply frames_bind; [apply frames_lift|]. intros r _.
    apply frames_h_new.
  - eapply frames_bind; [apply frames_load|]. intros a _.
    eapply frames_bind; [apply frames_h_val|]. intros vy _.
    eapply frames_bind; [apply frames_lift|]. intros c _.
    eapply frames_bind; [apply frames_lift|]. intros _ _.
    eapply frames_bind; [by apply frames_store_through|]. intros _ _.
    by apply frames_ret.
Qed.

Lemma frames_h_for {A} σ0 (f : nat → M A) P start n :
  (∀ i, frames σ0 (f i) P) → frames σ0 (h_for f start n) (Forall P).
Proof.
  intros Hf. revert start. induction n as [|n IH]; intros start; cbn [h_for].
  - by apply frames_ret.
  - eapply frames_bind; [apply Hf|]. intros x Hx.
    eapply frames_bind; [apply IH|]. intros l Hl.
    apply frames_ret. by constructor.
Qed.

Lemma frames_slice_of σ0 vol i :
  Forall (fresh_ref σ0) vol → frames σ0 (slice_of vol i) (fresh_ref σ0).
Proof.
  intros Hvol σ Hσ. unfold slice_of, lift. cbn [fst snd]. split; [done|].
  intros s Hs. destruct (vol !! i) as [s'|] eqn:E; [|done].
  injection Hs as <-. by eapply Forall_lookup_1.
Qed.

Ltac post :=
  cbn beta;
  first [ exact I
        | eassumption
        | unfold fresh_value, fresh_ref in *; cbn [base views fst snd] in *;
          first [ eassumption | tauto ] ].

Ltac frame_op :=
  cbn zeta;
  lazymatch goal with
  | |- frames _ (mbind _ _) _ =>
      eapply frames_bind; [frame_op | intros ? ?; frame_op]
  | |- frames _ (h_op _ _ _) _ => eapply frames_h_op; frame_op
  | |- frames _ (h_sqrt _) _ => eapply frames_h_sqrt; frame_op
  | |- frames _ (h_apply _ _) _ => eapply frames_h_apply; frame_op
  | |- frames _ (h_view _ _) _ => eapply frames_h_view; frame_op
  | |- frames _ (hlit _) _ => apply frames_hlit
  | |- frames _ (hvar _) _ => apply frames_hvar
  | |- frames _ (lift _) _ => apply frames_lift
  | |- frames _ (dict_get _ _) _ => apply frames_dict_get
  | |- frames _ (load _) _ => apply frames_load
  | |- frames _ (alloc _) _ => apply frames_alloc
  | |- frames _ (h_new _) _ => apply frames_h_new
  | |- frames _ (h_val _) _ => apply frames_h_val
  | |- frames _ (h_iop _ _ _) _ => apply frames_h_iop; post
  | |- frames _ (store_through _ _) _ => apply frames_store_through; post
  | |- frames _ (slice_of _ _) _ => apply frames_slice_of; post
  | |- frames _ (ret _) _ => refine (frames_ret _ _ (λ _, True) I)
  | |- _ => eauto with frames
  end.

Ltac frame :=
  cbn zeta;
  lazymatch goal with
  | |- frames _ (mbind _ _) _ =>
      eapply frames_bind; [frame_op | intros ? ?; frame]
  | |- frames _ (ret _) _ => apply frames_ret; post
  | |- frames _ (if ?b then _ else _) _ => destruct b; frame
  | |- frames _ (match ?x with _ => _ end) _ => destruct x; frame
  | |- _ => eapply frames_weaken; [frame_op | intros ? ?; post]
  end.

Create HintDb frames.

Lemma frames_OPD σ0 mp rho ti pz wvl zd :
  frames σ0 (OPD mp rho ti pz wvl zd) (fresh_value σ0).
Proof. unfold OPD. frame. Qed.
#[local] Hint Resolve frames_OPD : frames.

Lemma frames_configure σ0 mp wvl :
  frames σ0 (configure mp wvl) (λ cfg, fresh_value σ0 cfg.1).
Proof. unfold configure. frame. Qed.
#[local] Hint Resolve frames_configure : frames.

Lemma frames_calcRv σ0 dxy xy_size sampling :
  frames σ0 (calcRv dxy xy_size sampling) (fresh_ref σ0).
Proof. unfold calcRv. frame. Qed.
#[local] Hint Resolve frames_calcRv : frames.



Lemma frames_interp_row σ0 n rv PSF_rz r_pixel i :
  frames σ0 (interp_row n rv PSF_rz r_pixel i) (λ _, True).
Proof. unfold interp_row. frame. Qed.

#[local] Hint Resolve frames_interp_row : frames.

Lemma frames_psfRZToPSFXYZ σ0 dxy xy_size rv PSF_rz :
  frames σ0 (psfRZToPSFXYZ dxy xy_size rv PSF_rz) (Forall (fresh_ref σ0)).
Proof.
  unfold psfRZToPSFXYZ. cbn zeta.
  do 6 (eapply frames_bind; [frame_op|intros ? ?]).
  eapply frames_bind; [apply frames_h_for; intros i; apply frames_alloc|].
  intros PSF_xyz Hvol.
  eapply frames_bind; [apply frames_h_for; intros i; frame_op|].
  intros _ _. by apply frames_ret.
Qed.

Lemma frames_gLZRScan σ0 mp pz rv zd zv normalize wvl :
  frames σ0 (gLZRScan mp pz rv zd zv normalize wvl) (fresh_ref σ0).
Proof. unfold gLZRScan. frame. Qed.

Lemma frames_default_zd σ0 mp zd : frames σ0 (default_zd mp zd) (λ _, True).
Proof. destruct zd; [by apply frames_ret|apply frames_dict_get]. Qed.

#[local] Hint Resolve frames_psfRZToPSFXYZ frames_gLZRScan frames_default_zd : frames.

Lemma frames_gLZRCameraScan σ0 mp rv zd normalize pz wvl zv :
  frames σ0 (gLZRCameraScan mp rv zd normalize pz wvl zv) (fresh_ref σ0).
Proof. unfold gLZRCameraScan. frame. Qed.

Lemma frames_gLZRFocalScan σ0 mp rv zv normalize pz wvl zd :
  frames σ0 (gLZRFocalScan mp rv zv normalize pz wvl zd) (fresh_ref σ0).
Proof. unfold gLZRFocalScan. frame. Qed.

Lemma frames_gLZRParticleScan σ0 mp rv pz normalize wvl zd zv :
  frames σ0 (gLZRParticleScan mp rv pz normalize wvl zd zv) (fresh_ref σ0).
Proof. unfold gLZRParticleScan. frame. Qed.

#[local] Hint Resolve frames_gLZRCameraScan frames_gLZRFocalScan
  frames_gLZRParticleScan : frames.

Lemma frames_gLXYZCameraScan σ0 mp dxy xy_size zd normalize pz wvl zv :
  frames σ0 (gLXYZCameraScan mp dxy xy_size zd normalize pz wvl zv)
    (Forall (fresh_ref σ0)).
Proof. unfold gLXYZCameraScan. frame. Qed.

Lemma frames_gLXYZFocalScan σ0 mp dxy xy_size zv normalize pz wvl zd :
  frames σ0 (gLXYZFocalScan mp dxy xy_size zv normalize pz wvl zd)
    (Forall (fresh_ref σ0)).
Proof. unfold gLXYZFocalScan. frame. Qed.

Lemma frames_gLXYZParticleScan σ0 mp dxy xy_size pz normalize wvl zd zv :
  frames σ0 (gLXYZParticleScan mp dxy xy_size pz normalize wvl zd zv)
    (Forall (fresh_ref σ0)).
Proof. unfold gLXYZParticleScan. frame. Qed.

Lemma frames_quad σ0 (f : R → M float64) a b :
  (∀ x, frames σ0 (f x) (λ _, True)) → frames σ0 (quad f a b) (λ _, True).
Proof.
  intros Hf. unfold quad. generalize (@nil (R * float64)).
  induction quad_limit as [|n IH]; intros seen; cbn [quad_loop].
  - by apply frames_ret.
  - destruct (quad_next a b seen) as [x|est]; [|by apply frames_ret].
    eapply frames_bind; [apply Hf|]. intros y _. apply IH.
Qed.

Lemma frames_slowGL_t3 σ0 mp k a rv ti pz wvl zd rho :
  frames σ0 (slowGL_t3 mp k a rv ti pz wvl zd rho) (λ _, True).
Proof. unfold slowGL_t3. frame. Qed.

#[local] Hint Resolve frames_slowGL_t3 : frames.

Lemma frames_slowGL σ0 mp max_rho rv zv pz wvl zd :
  frames σ0 (slowGL mp max_rho rv zv pz wvl zd) (λ _, True).
Proof.
  unfold slowGL. cbn zeta.
  do 8 (eapply frames_bind; [frame_op|intros ? ?]).
  eapply frames_bind; [apply frames_quad; intros rho; frame|intros ? ?].
  eapply frames_bind; [apply frames_quad; intros rho; frame|intros ? ?].
  frame.
Qed.


(** C10.  No public operation mutates its inputs.  From any store, a call
    of OPD, gLZRScan, gLZRFocalScan, gLZRParticleScan, gLZRCameraScan,
    gLXYZFocalScan, gLXYZParticleScan, gLXYZCameraScan, psfRZToPSFXYZ or
    slowGL, with any arguments, leaves every object of the store (the
    dictionary mp and every array, so rv, zv, pz, zd and PSF_rz) at its
    location with the value it had, whether the call returns or raises;
    and the array, or every slice of the volume, that the call returns is
    in a buffer that was not in the store: it is freshly allocated. *)
Theorem no_operation_mutates_its_inputs :
  (∀ mp rho ti pz wvl zd,
     keeps_store (OPD mp rho ti pz wvl zd) fresh_value) ∧
  (∀ mp pz rv zd zv normalize wvl,
     keeps_store (gLZRScan mp pz rv zd zv normalize wvl) fresh_ref) ∧
  (∀ mp rv zv normalize pz wvl zd,
     keeps_store (gLZRFocalScan mp rv zv normalize pz wvl zd) fresh_ref) ∧
  (∀ mp rv pz normalize wvl zd zv,
     keeps_store (gLZRParticleScan mp rv pz normalize wvl zd zv) fresh_ref) ∧
  (∀ mp rv zd normalize pz wvl zv,
     keeps_store (gLZRCameraScan mp rv zd normalize pz wvl zv) fresh_ref) ∧
  (∀ mp dxy xy_size zv normalize pz wvl zd,
     keeps_store (gLXYZFocalScan mp dxy xy_size zv normalize pz wvl zd)
       (λ σ, Forall (fresh_ref σ))) ∧
  (∀ mp dxy xy_size pz normalize wvl zd zv,
     keeps_store (gLXYZParticleScan mp dxy xy_size pz normalize wvl zd zv)
       (λ σ, Forall (fresh_ref σ))) ∧
  (∀ mp dxy xy_size zd normalize pz wvl zv,
     keeps_store (gLXYZCameraScan mp dxy xy_size zd normalize pz wvl zv)
       (λ σ, Forall (fresh_ref σ))) ∧
  (∀ dxy xy_size rv PSF_rz,
     keeps_store (psfRZToPSFXYZ dxy xy_size rv PSF_rz)
       (λ σ, Forall (fresh_ref σ))) ∧
  (∀ mp max_rho rv zv pz wvl zd,
     keeps_store (slowGL mp max_rho rv zv pz wvl zd) (λ _ _, True)).
Proof.
  repeat match goal with |- _ ∧ _ => split end;
    intros; apply frames_keeps; intros σ0.
  - apply frames_OPD.
  - apply frames_gLZRScan.
  - apply frames_gLZRFocalScan.
  - apply frames_gLZRParticleScan.
  - apply frames_gLZRCameraScan.
  - apply frames_gLXYZFocalScan.
  - apply frames_gLXYZParticleScan.
  - apply frames_gLXYZCameraScan.
  - apply frames_psfRZToPSFXYZ.
  - apply frames_slowGL.
Qed.


(** The frame is a property of the code, not of the model: an operator
    in place on a reshaped view of an array of the caller, as
    [pz = pz.reshape(-1, 1); pz *= 2] would be, returns and changes the
    caller's array. *)
Lemma in_place_through_a_view_is_seen :
  let σ : store := {[ 1%positive := OArr (np_array [1]) ]} in
  let m := (x <~ h_view VReshapeCol (HArr (Ref 1%positive [])) ;;
            h_iop Mul x (HFloat 2)) in
  (m σ).2 = Ok (HArr (Ref 1%positive [VReshapeCol])) ∧
  ¬ keeps_store m (λ _ _, True).
Proof.
  cbn zeta.
  set (σ := ({[ 1%positive := OArr (np_array [1]) ]} : store)).
  assert (Hl : σ !! 1%positive = Some (OArr (np_array [1])))
    by apply lookup_singleton_eq.
  assert (Hrun : ∃ c, item c 0 0 = Val (1 * 2) ∧
            (x <~ h_view VReshapeCol (HArr (Ref 1%positive [])) ;;
             h_iop Mul x (HFloat 2)) σ
            = (<[1%positive := OArr c]> σ, Ok (HArr (Ref 1%positive [VReshapeCol])))).
  { unfold mbind, h_view, hvar, ret, h_iop, mbind, load, h_val, ret, lift,
      store_through. cbn [base views app].
    clearbody σ. rewrite Hl. cbn. rewrite Hl.
    unfold np_zip. cbn [reshape_col np_array nd1 nd2 nd0 nrows ncols ndim length
                        Nat.mul Nat.add].
    rewrite !bdim_same. cbn [bind].
    rewrite decide_True by done.
    eexists. split; [|reflexivity]. reflexivity. }
  destruct Hrun as (c & Hc & Hrun). split; [by rewrite Hrun|].
  intros Hk. destruct (Hk σ) as [H _]. specialize (H _ _ Hl).
  rewrite Hrun in H. cbn [fst] in H. rewrite lookup_insert_eq in H.
  injection H as H. apply (f_equal (λ a, item a 0 0)) in H.
  rewrite Hc in H. cbn in H. injection H. lra.
Qed.

End Frame.

(* ================================================================= *)
(** * Part IV: the store version computes what the functions compute *)
(* ================================================================= *)

Abbreviation pure_OPD := OPD.
Abbreviation pure_configure := configure.
Abbreviation pure_gLZRScan := gLZRScan.
Abbreviation pure_default_zd := default_zd.
Abbreviation pure_gLZRFocalScan := gLZRFocalScan.
Abbreviation pure_gLZRParticleScan := gLZRParticleScan.
Abbreviation pure_gLZRCameraScan := gLZRCameraScan.
Abbreviation pure_quad := quad.
Abbreviation pure_quad_loop := quad_loop.
Abbreviation pure_slowGL_t3 := slowGL_t3.
Abbreviation pure_slowGL := slowGL.
Abbreviation pure_calcRv := calcRv.
Abbreviation pure_psfRZToPSFXYZ := psfRZToPSFXYZ.
Abbreviation pure_gLXYZFocalScan := gLXYZFocalScan.
Abbreviation pure_gLXYZParticleScan := gLXYZParticleScan.
Abbreviation pure_gLXYZCameraScan := gLXYZCameraScan.

Section Link.
Import Heap.

Lemma holds_mono : stable holds.
Proof.
  intros σ σ' hv v Hs H. destruct hv as [x|h], v as [y|a]; try done.
  destruct H as (b & Hb & Hg). exists b. split; [|done].
  by eapply lookup_weaken.
Qed.

Lemma same_stable {A} : stable (@same A).
Proof. by intros σ σ' a b _ H. Qed.

Lemma holds_h_val σ hv v : holds σ hv v → h_val hv σ = (σ, Ok v).
Proof.
  destruct hv as [x|h], v as [y|a]; try done; cbn.
  - by intros ->.
  - intros (b & Hb & <-). unfold mbind, load. by rewrite Hb.
Qed.

Lemma bind_ret_r {A} (e : result A) : bind e Ok = e.
Proof. by destruct e. Qed.

Lemma get_through_app vs w a :
  get_through (vs ++ [w]) a = view_get w (get_through vs a).
Proof. revert a. induction vs as [|v vs IH]; intros a; [done|]. apply IH. Qed.

Lemma refines_agrees {A B} (rel : store → A → B → Prop) σ1 m e :
  refines rel σ1 m e → agrees rel σ1 m e.
Proof. intros H σ Hσ. by apply H. Qed.

Lemma refines_weaken {A B} (rel rel' : store → A → B → Prop) σ1 m e :
  refines rel σ1 m e → (∀ σ a b, rel σ a b → rel' σ a b) → refines rel' σ1 m e.
Proof.
  intros H Hrel σ Hσ. destruct (H σ Hσ) as [H1 H2]. split; [done|].
  destruct e as [b|err]; [|done]. destruct H2 as (a & Ha & Hr).
  exists a. split; [done|]. by apply Hrel.
Qed.

Lemma owns_mono : stable owns.
Proof. intros σ σ' hv v Hs [H1 H2]. split; [by eapply holds_mono|done]. Qed.

Lemma refines_ret {A B} (rel : store → A → B → Prop) σ1 a b :
  (∀ σ, σ1 ⊆ σ → rel σ a b) → refines rel σ1 (ret a) (Ok b).
Proof. intros H σ Hσ. split; [done|]. exists a. split; [done|]. by apply H. Qed.

Lemma refines_lift {A} σ1 (r : result A) : refines same σ1 (lift r) r.
Proof.
  intros σ Hσ. split; [done|]. destruct r as [a|e]; [|done]. by exists a.
Qed.

Lemma refines_dict_get σ1 mp d key :
  σ1 !! mp = Some (ODict d) → refines same σ1 (dict_get mp key) (getitem d key).
Proof.
  intros Hmp σ Hσ. unfold dict_get.
  rewrite (lookup_weaken _ _ _ _ Hmp Hσ). split; [done|].
  destruct (getitem d key) as [a|e]; [|done]. by exists a.
Qed.

Lemma refines_bind {A A' B B'} (relA : store → A → A' → Prop)
    (relB : store → B → B' → Prop) σ1 m e k k' :
  refines relA σ1 m e →
  (∀ σ2 a a', e = Ok a' → σ1 ⊆ σ2 → relA σ2 a a' →
     refines relB σ2 (k a) (k' a')) →
  refines relB σ1 (mbind m k) (bind e k').
Proof.
  intros Hm Hk σ Hσ. destruct (Hm σ Hσ) as [Hsub Ho]. unfold mbind.
  destruct (m σ) as [σ2 r].
  destruct e as [a'|err]; cbn [outcome bind fst snd] in *.
  - destruct Ho as (a & -> & Hrel).
    destruct (Hk σ2 a a' eq_refl ltac:(by etrans) Hrel σ2 ltac:(done))
      as [Hsub2 Ho2].
    split; [by etrans|done].
  - rewrite Ho. by split.
Qed.

Lemma refines_hlit σ1 x : refines holds σ1 (hlit x) (lit x).
Proof. by apply refines_ret. Qed.

Lemma refines_hvar σ1 hv v : holds σ1 hv v → refines holds σ1 (hvar hv) (var v).
Proof. intros H. apply refines_ret. intros σ Hσ. by eapply holds_mono. Qed.

Lemma refines_h_val σ1 hv v : holds σ1 hv v → refines same σ1 (h_val hv) (Ok v).
Proof.
  intros H σ Hσ. rewrite (holds_h_val σ hv v) by (by eapply holds_mono).
  split; [done|]. by exists v.
Qed.

Lemma refines_alloc σ1 a :
  refines (λ σ h b, owns σ (HArr h) (Np b)) σ1 (alloc a) (Ok a).
Proof.
  intros σ Hσ. unfold alloc. cbn [fst snd]. split.
  - apply insert_subseteq. apply not_elem_of_dom, is_fresh.
  - eexists. split; [done|]. split; [|done]. cbn. eexists.
    by rewrite lookup_insert_eq.
Qed.

Lemma refines_h_new_owns σ1 v : refines owns σ1 (h_new v) (Ok v).
Proof.
  destruct v as [x|a]; [by apply refines_ret|]. unfold h_new.
  change (Ok (Np a)) with (bind (Ok a) (λ b, Ok (Np b))).
  eapply refines_bind; [apply refines_alloc|].
  intros σ2 h b _ _ Hh. apply refines_ret. intros σ Hσ. by eapply owns_mono.
Qed.

Lemma refines_h_new σ1 v : refines holds σ1 (h_new v) (Ok v).
Proof. eapply refines_weaken; [apply refines_h_new_owns|]. by intros ? ? ? []. Qed.

Lemma refines_lift_new σ1 (e : result value) :
  refines owns σ1 (r <~ lift e ;; h_new r) e.
Proof.
  destruct e as [v|err].
  - intros σ Hσ. by apply (refines_h_new_owns σ1 v σ).
  - intros σ Hσ. by split.
Qed.

Lemma refines_val_op σ1 op x y vx vy :
  holds σ1 x vx → holds σ1 y vy →
  refines owns σ1
    (vx <~ h_val x ;; vy <~ h_val y ;; r <~ lift (val_op op vx vy) ;; h_new r)
    (val_op op vx vy).
Proof.
  intros Hx Hy.
  change (val_op op vx vy) with (bind (Ok vx) (λ vx, val_op op vx vy)).
  eapply refines_bind; [by apply refines_h_val|]. intros σ2 ? ? _ Hs2 ->.
  change (val_op op a' vy) with (bind (Ok vy) (λ vy, val_op op a' vy)).
  eapply refines_bind.
  { apply refines_h_val. by eapply holds_mono. }
  intros σ3 ? ? _ Hs3 ->.
  apply refines_lift_new.
Qed.

Lemma refines_h_op_owns σ1 op a b ea eb :
  refines holds σ1 a ea → refines holds σ1 b eb →
  refines owns σ1 (h_op op a b) (expr_op op ea eb).
Proof.
  intros Ha Hb. unfold h_op, expr_op.
  eapply refines_bind; [exact Ha|]. intros σ2 x vx _ Hs2 Hx.
  eapply refines_bind.
  { intros σ Hσ. apply Hb. by etrans. }
  intros σ3 y vy _ Hs3 Hy.
  apply refines_val_op; [by eapply holds_mono|done].
Qed.

Lemma refines_h_op σ1 op a b ea eb :
  refines holds σ1 a ea → refines holds σ1 b eb →
  refines holds σ1 (h_op op a b) (expr_op op ea eb).
Proof.
  intros Ha Hb. eapply refines_weaken; [by apply refines_h_op_owns|].
  by intros ? ? ? [].
Qed.

Lemma refines_map σ1 (f : value → result value) e ee :
  refines holds σ1 e ee →
  refines holds σ1 (x <~ e ;; v <~ h_val x ;; r <~ lift (f v) ;; h_new r)
    (v <- ee ;; f v).
Proof.
  intros He. eapply (refines_weaken owns holds); [|by intros ? ? ? []].
  eapply refines_bind; [exact He|]. intros σ2 x vx _ Hs2 Hx.
  change (f vx) with (bind (Ok vx) (λ vx, f vx)).
  eapply refines_bind; [by apply refines_h_val|]. intros σ3 ? ? _ Hs3 ->.
  apply refines_lift_new.
Qed.

Lemma refines_h_sqrt σ1 e ee :
  refines holds σ1 e ee → refines holds σ1 (h_sqrt e) (np_sqrt ee).
Proof. intros He. by apply (refines_map σ1 (λ v, np_sqrt (Ok v))). Qed.

Lemma refines_h_apply σ1 f e ee :
  refines holds σ1 e ee → refines holds σ1 (h_apply f e) (np_apply f ee).
Proof. intros He. by apply (refines_map σ1 (λ v, np_apply f (Ok v))). Qed.

Lemma refines_h_reshape σ1 e ee :
  refines holds σ1 e ee →
  refines holds σ1 (h_view VReshapeCol e) (expr_reshape_col ee).
Proof.
  intros He. unfold h_view, expr_reshape_col.
  eapply refines_bind; [exact He|]. intros σ2 x vx _ Hs2 Hx.
  destruct x as [x|h], vx as [y|a]; try (by destruct Hx); cbn [as_array bind].
  apply refines_ret. intros σ Hσ.
  destruct (holds_mono _ _ _ _ Hσ Hx) as (b & Hb & <-).
  exists b. split; [done|]. cbn [views]. by rewrite get_through_app.
Qed.


Lemma refines_harr σ1 hv a :
  holds σ1 hv (Np a) → refines holds σ1 (hvar hv) (arr a).
Proof. apply refines_hvar. Qed.

(** A step of the store version that the pure version does not have. *)
Lemma refines_heap_step {A A' B B'} (relA : store → A → A' → Prop)
    (relB : store → B → B' → Prop) σ1 m a' k e :
  refines relA σ1 m (Ok a') →
  (∀ σ2 a, σ1 ⊆ σ2 → relA σ2 a a' → refines relB σ2 (k a) e) →
  refines relB σ1 (mbind m k) e.
Proof.
  intros Hm Hk. change e with (bind (Ok a') (λ _, e)).
  eapply refines_bind; [exact Hm|]. intros σ2 a a'' [= <-] Hs Hrel. by apply Hk.
Qed.

Create HintDb link.

Ltac forward Hs :=
  repeat match goal with
         | H : holds ?s _ _ |- _ =>
             lazymatch type of Hs with
             | s ⊆ _ => apply (holds_mono _ _ _ _ Hs) in H
             end
         | H : ?s !! _ = Some _ |- _ =>
             lazymatch type of Hs with
             | s ⊆ _ => apply (λ H', lookup_weaken _ _ _ _ H' Hs) in H
             end
         end;
  clear Hs.

Ltac link_expr :=
  lazymatch goal with
  | |- refines _ _ (h_op _ _ _) (expr_op _ _ _) =>
      apply refines_h_op; link_expr
  | |- refines _ _ (h_sqrt _) (np_sqrt _) => apply refines_h_sqrt; link_expr
  | |- refines _ _ (h_apply _ _) (np_apply _ _) =>
      apply refines_h_apply; link_expr
  | |- refines _ _ (h_view VReshapeCol _) (expr_reshape_col _) =>
      apply refines_h_reshape; link_expr
  | |- refines _ _ (hlit _) (lit _) => apply refines_hlit
  | |- refines _ _ (hvar _) (var _) => apply refines_hvar; eassumption
  | |- refines _ _ (hvar _) (arr _) => apply refines_harr; eassumption
  | |- refines _ _ (dict_get _ _) (getitem _ _) =>
      apply refines_dict_get; eassumption
  | |- refines _ _ (lift _) _ => apply refines_lift
  | |- _ => eauto with link
  end.

Ltac link_intro :=
  let s := fresh "σ" in
  let Hs := fresh "Hs" in
  let Hr := fresh "Hr" in
  intros s ? ? _ Hs Hr; forward Hs; cbn beta in Hr;
  lazymatch type of Hr with
  | same _ _ _ => red in Hr; subst
  | _ => idtac
  end.

Ltac link_bind :=
  lazymatch goal with
  | |- refines _ _ (mbind _ _) (bind _ _) =>
      eapply refines_bind; [link_expr | link_intro; cbn zeta]
  end.

(** The store version of OPD only adds objects to the store, and returns
    what OPD returns. *)
Lemma OPD_refines σ1 mp d rho ti pz wvl zd vrho vti vpz vzd :
  σ1 !! mp = Some (ODict d) →
  holds σ1 rho vrho → holds σ1 ti vti → holds σ1 pz vpz → holds σ1 zd vzd →
  refines holds σ1 (OPD mp rho ti pz wvl zd) (pure_OPD d vrho vti vpz wvl vzd).
Proof.
  intros Hmp Hrho Hti Hpz Hzd. unfold OPD, pure_OPD.
  repeat link_bind. link_expr.
Qed.


Ltac heap_step rule :=
  eapply refines_heap_step;
  [ rule
  | let s := fresh "σ" in
    let Hs := fresh "Hs" in
    let Hr := fresh "Hr" in
    intros s ? Hs Hr; forward Hs; cbn zeta; cbn beta in Hr ].

Lemma configure_refines σ1 mp d wvl :
  σ1 !! mp = Some (ODict d) →
  refines holds_cfg σ1 (configure mp wvl) (pure_configure d wvl).
Proof.
  intros Hmp. unfold configure, pure_configure. cbn zeta.
  link_bind. heap_step ltac:(apply refines_h_new).
  repeat link_bind.
  apply refines_ret. intros σ' Hσ'. split; [|done]. by eapply holds_mono.
Qed.

(** ** Agreement of the results, through the writes in place *)

Lemma agrees_bind {A A' B B'} (relA : store → A → A' → Prop)
    (relB : store → B → B' → Prop) σ1 m e k k' :
  refines relA σ1 m e →
  (∀ σ2 a a', e = Ok a' → σ1 ⊆ σ2 → relA σ2 a a' →
     agrees relB σ2 (k a) (k' a')) →
  agrees relB σ1 (mbind m k) (bind e k').
Proof.
  intros Hm Hk σ Hσ. destruct (Hm σ Hσ) as [Hsub Ho]. unfold mbind.
  destruct (m σ) as [σ2 r].
  destruct e as [a'|err]; cbn [outcome bind fst snd] in *.
  - destruct Ho as (a & -> & Hrel).
    by apply (Hk σ2 a a' eq_refl ltac:(by etrans) Hrel σ2).
  - by rewrite Ho.
Qed.

Lemma agrees_heap_step {A A' B B'} (relA : store → A → A' → Prop)
    (relB : store → B → B' → Prop) σ1 m a' k e :
  refines relA σ1 m (Ok a') →
  (∀ σ2 a, σ1 ⊆ σ2 → relA σ2 a a' → agrees relB σ2 (k a) e) →
  agrees relB σ1 (mbind m k) e.
Proof.
  intros Hm Hk. change e with (bind (Ok a') (λ _, e)).
  eapply agrees_bind; [exact Hm|]. intros σ2 a a'' [= <-] Hs Hrel. by apply Hk.
Qed.

Lemma agrees_ret {A B} (rel : store → A → B → Prop) σ1 a b :
  (∀ σ, σ1 ⊆ σ → rel σ a b) → agrees rel σ1 (ret a) (Ok b).
Proof. intros H σ Hσ. exists a. split; [done|]. by apply H. Qed.

(** The write in place: after it the reference shows the result through
    its views; what else the store holds is not used again. *)
Lemma agrees_iop {B B'} (relB : store → B → B' → Prop) σ1 op h y a vy k k' :
  holds σ1 (HArr h) (Np a) → holds σ1 y vy →
  (∀ σ2 b c, val_iop op (Np a) vy = Ok (Np c) →
     get_through (views h) b = a →
     σ2 !! base h = Some (OArr (put_through (views h) b c)) →
     agrees relB σ2 (k (HArr h)) (k' (Np c))) →
  agrees relB σ1 (mbind (h_iop op (HArr h) y) k) (bind (val_iop op (Np a) vy) k').
Proof.
  intros Hh Hy Hk σ Hσ.
  destruct (holds_mono _ _ _ _ Hσ Hh) as (b & Hb & Hget).
  pose proof (holds_h_val σ y vy (holds_mono _ _ _ _ Hσ Hy)) as Hval.
  unfold mbind at 1. cbn [h_iop]. unfold mbind at 1, load. rewrite Hb, Hget.
  unfold mbind at 1. rewrite Hval. unfold mbind at 1, lift at 1.
  cbn [val_iop] in *.
  destruct (np_zip (f64_op op) a (to_np vy)) as [c|err]; cbn [bind]; [|done].
  unfold mbind at 1, lift at 1. unfold same_shape.
  destruct (decide (ndim c = ndim a ∧ nrows c = nrows a ∧ ncols c = ncols a))
    as [Hshape|Hshape]; cbn [bind]; [|done].
  unfold mbind at 1, store_through. rewrite Hb. unfold ret.
  pose proof (Hk (<[base h := OArr (put_through (views h) b c)]> σ) b c) as Hk'.
  cbn [bind] in Hk'. rewrite decide_True in Hk' by done.
  apply Hk'; [done|done|by rewrite lookup_insert_eq|done].
Qed.


Lemma refines_load σ1 h a :
  holds σ1 (HArr h) (Np a) → refines same σ1 (load h) (Ok a).
Proof.
  intros H σ Hσ. destruct (holds_mono _ _ _ _ Hσ H) as (b & Hb & <-).
  unfold load. rewrite Hb. split; [done|]. by eexists.
Qed.

Lemma refines_iop_float σ1 op u y vy :
  holds σ1 y vy →
  refines holds σ1 (h_iop op (HFloat u) y) (val_iop op (PyFloat u) vy).
Proof.
  intros Hy. cbn [h_iop val_iop].
  change (val_op op (PyFloat u) vy)
    with (bind (Ok vy) (λ vy, val_op op (PyFloat u) vy)).
  eapply refines_bind; [by apply refines_h_val|]. intros σ2 ? ? _ Hs2 ->.
  eapply refines_weaken; [apply refines_lift_new|]. by intros ? ? ? [].
Qed.

(** The write in place to an array that the module has allocated, or the
    assignment to a float. *)
Lemma agrees_iop_owned {B B'} (relB : store → B → B' → Prop) σ1 op x y vx vy k k' :
  owns σ1 x vx → holds σ1 y vy →
  (∀ σ2 x' v', val_iop op vx vy = Ok v' → holds σ2 x' v' →
     agrees relB σ2 (k x') (k' v')) →
  agrees relB σ1 (mbind (h_iop op x y) k) (bind (val_iop op vx vy) k').
Proof.
  intros [Hx Hp] Hy Hk. destruct x as [u|h], vx as [w|a]; try done.
  - cbn in Hx. subst w.
    eapply agrees_bind; [by apply refines_iop_float|].
    intros σ2 x' v' E _ Hr. by apply Hk.
  - cbn in Hp. apply agrees_iop; [done|done|].
    intros σ2 b c E Hget Hb. pose proof E as E'. cbn [val_iop] in E'.
    destruct (np_zip (f64_op op) a (to_np vy)) as [c'|]; [|done].
    cbn [bind] in E'. destruct (decide _); [|done]. injection E' as ->.
    apply Hk; [done|]. exists (put_through (views h) b c).
    split; [done|]. by rewrite Hp.
Qed.

Lemma np_dot_ndim a b c : np_dot a b = Ok c → ndim c = 2%nat.
Proof. unfold np_dot. destruct (decide _); [|done]. by intros [= <-]. Qed.

Lemma val_iop_scalar op P m :
  val_iop op (Np P) (Np (nd0 m)) =
    Ok (Np (NdArray (Nat.max (ndim P) 0) (nrows P) (ncols P)
              (λ i j, f64_op op (item P (bidx (nrows P) i) (bidx (ncols P) j)) m))).
Proof.
  cbn [val_iop to_np]. unfold np_zip. cbn [nd0 nrows ncols ndim item].
  rewrite !bdim_1_r. cbn [bind].
  rewrite decide_True; [done|]. cbn [ndim nrows ncols]. by rewrite Nat.max_0_r.
Qed.

Lemma holds_view σ h a w :
  holds σ (HArr h) (Np a) →
  holds σ (HArr (Ref (base h) (views h ++ [w]))) (Np (view_get w a)).
Proof.
  intros (b & Hb & <-). exists b. split; [done|]. cbn [views].
  by rewrite get_through_app.
Qed.

Lemma arr_equiv_refl a : arr_equiv a a.
Proof. by repeat split. Qed.

Ltac agree_bind :=
  lazymatch goal with
  | |- agrees _ _ (mbind _ _) (bind _ _) =>
      eapply agrees_bind; [link_expr | link_intro; cbn zeta]
  end.

Ltac agree_heap rule :=
  eapply agrees_heap_step;
  [ rule
  | let s := fresh "σ" in
    let Hs := fresh "Hs" in
    let Hr := fresh "Hr" in
    intros s ? Hs Hr; forward Hs; cbn zeta; cbn beta in Hr;
    lazymatch type of Hr with
    | same _ _ _ => red in Hr; subst
    | _ => idtac
    end ].

#[local] Hint Resolve OPD_refines : link.

(** ** The volume: slices allocated, then written one by one *)

(** [numpy.zeros((n_z, n, n))]: as many new buffers as slices, at
    locations that are new and distinct. *)
Lemma alloc_many z n s σ :
  ∃ σ' hs, h_for (λ _, alloc z) s n σ = (σ', Ok hs) ∧ σ ⊆ σ' ∧ length hs = n ∧
    NoDup (base <$> hs) ∧
    Forall (λ h, (base h ∉ dom σ) ∧ views h = [] ∧ σ' !! base h = Some (OArr z)) hs.
Proof.
  revert s σ. induction n as [|n IH]; intros s σ.
  - exists σ, []. cbn. repeat split; try done. constructor.
  - cbn [h_for]. unfold mbind at 1, alloc at 1.
    set (l := fresh (dom σ)). set (σ1 := <[l := OArr z]> σ).
    assert (Hl : l ∉ dom σ) by apply is_fresh.
    assert (Hs1 : σ ⊆ σ1) by (apply insert_subseteq; by apply not_elem_of_dom).
    destruct (IH (S s) σ1) as (σ' & hs & E & Hs & Hlen & Hnd & Hall).
    unfold mbind at 1. rewrite E. unfold ret.
    exists σ', (Ref l [] :: hs). split; [done|]. split; [by etrans|].
    split; [by cbn; rewrite Hlen|]. split.
    + cbn [fmap list_fmap base]. constructor; [|done].
      intros Hin. apply list_elem_of_fmap in Hin as (h & Hb & Hh).
      rewrite Forall_forall in Hall. destruct (Hall h Hh) as (Hn & _).
      apply Hn. rewrite <- Hb. unfold σ1. rewrite dom_insert.
      apply elem_of_union. left. by apply elem_of_singleton.
    + constructor.
      * cbn [base views]. split; [done|]. split; [done|].
        apply (lookup_weaken σ1); [|done]. unfold σ1. by rewrite lookup_insert_eq.
      * eapply Forall_impl; [exact Hall|]. intros h (Hn & Hv & Hb).
        split; [|done]. intros Hin. apply Hn. by apply (subseteq_dom _ _ Hs1).
Qed.

(** [for i in range(n_z): PSF_xyz[i,:,:] = rhs(i)]: when the right-hand
    sides only read the store σa and the slices are new buffers, the loop
    keeps σa, raises what the first failing right-hand side raises, and
    otherwise leaves in each slice the value of its right-hand side. *)
Lemma fill_slices σa hs (rhs : nat → M (ndarray float64))
    (rhs' : nat → result (ndarray float64)) n s σ :
  (∀ i, refines same σa (rhs i) (rhs' i)) →
  σa ⊆ σ →
  NoDup (base <$> hs) →
  Forall (λ h, (base h ∉ dom σa) ∧ views h = []) hs →
  (∀ h, h ∈ hs → ∃ b, σ !! base h = Some (OArr b)) →
  (s + n = length hs)%nat →
  let run := h_for (λ i, g <~ rhs i ;; slice <~ slice_of hs i ;;
                         store_through slice g) s n σ in
  σa ⊆ run.1 ∧
  (∀ h, h ∈ hs → ∃ b, run.1 !! base h = Some (OArr b)) ∧
  (∀ k h, (k < s)%nat → hs !! k = Some h → run.1 !! base h = σ !! base h) ∧
  match for_range rhs' s n with
  | Ok gs =>
      (∃ us, run.2 = Ok us) ∧ length gs = n ∧
      (∀ k h g, hs !! (s + k)%nat = Some h → gs !! k = Some g →
         run.1 !! base h = Some (OArr g))
  | Raise e => run.2 = Raise e
  end.
Proof.
  intros Hrhs. revert s σ.
  induction n as [|n IH]; intros s σ Hσ Hnd Hall Hex Hlen; cbn zeta.
  { cbn [h_for for_range]. unfold ret. cbn [fst snd].
    do 3 (split; [done|]). split; [by exists []|]. split; [done|].
    intros k h g _ Hg. done. }
  set (body := λ i : nat, g <~ rhs i ;; slice <~ slice_of hs i ;;
                          store_through slice g) in *.
  assert (Hstep : ∀ σ1 u, body s σ = (σ1, Ok u) →
            h_for body s (S n) σ =
              ((h_for body (S s) n σ1).1,
               match (h_for body (S s) n σ1).2 with
               | Ok l => Ok (u :: l)
               | Raise e => Raise e
               end)).
  { intros σ1 u E. cbn [h_for]. unfold mbind at 1. rewrite E.
    unfold mbind, ret. by destruct (h_for body (S s) n σ1) as [? []]. }
  assert (Hfail : ∀ σ1 e, body s σ = (σ1, Raise e) →
            h_for body s (S n) σ = (σ1, Raise e)).
  { intros σ1 e E. cbn [h_for]. unfold mbind at 1. by rewrite E. }
  cbn [for_range].
  destruct (Hrhs s σ Hσ) as [Hs1 Ho].
  remember (rhs s σ) as x eqn:E. destruct x as [σ1 r1]. symmetry in E.
  cbn [fst snd] in *.
  assert (Hex1 : ∀ h, h ∈ hs → ∃ b, σ1 !! base h = Some (OArr b)).
  { intros h Hh. destruct (Hex h Hh) as (b & Hb). exists b.
    by apply (lookup_weaken σ). }
  assert (Hsame1 : ∀ h, h ∈ hs → σ1 !! base h = σ !! base h).
  { intros h Hh. destruct (Hex h Hh) as (b & Hb). rewrite Hb.
    by apply (lookup_weaken σ). }
  destruct (rhs' s) as [g|e]; cbn [outcome bind fst snd] in *.
  2:{ subst r1. rewrite (Hfail σ1 e) by (unfold body, mbind; by rewrite E).
      cbn [fst snd]. split; [by etrans|]. split; [done|].
      split; [|done]. intros k h _ Hk. apply Hsame1.
      by eapply list_elem_of_lookup_2. }
  destruct Ho as (g1 & -> & Hsame). red in Hsame. subst g1.
  destruct (lookup_lt_is_Some_2 hs s) as [h Hh]; [lia|].
  assert (Hin : h ∈ hs) by (by eapply list_elem_of_lookup_2).
  destruct (Hex1 h Hin) as (b & Hb).
  rewrite Forall_forall in Hall. destruct (Hall h Hin) as [Hfresh Hplain].
  set (σ2 := <[base h := OArr g]> σ1).
  assert (Hbody : body s σ = (σ2, Ok ())).
  { unfold body, mbind. rewrite E. unfold slice_of, lift. rewrite Hh.
    unfold store_through. by rewrite Hb, Hplain. }
  rewrite (Hstep _ _ Hbody). clear Hstep Hfail. cbn [fst snd].
  assert (Hσ2 : σa ⊆ σ2).
  { apply insert_subseteq_r; [by apply not_elem_of_dom|by etrans]. }
  assert (Hex2 : ∀ h', h' ∈ hs → ∃ b', σ2 !! base h' = Some (OArr b')).
  { intros h' Hh'. unfold σ2. destruct (decide (base h' = base h)) as [Heq|Hne].
    - exists g. by rewrite Heq, lookup_insert_eq.
    - rewrite lookup_insert_ne by done. by apply Hex1. }
  destruct (IH (S s) σ2 Hσ2 Hnd ltac:(by apply Forall_forall) Hex2 ltac:(lia))
    as (Ha & Hb' & Hc & Hd).
  destruct (h_for body (S s) n σ2) as [σ3 r3]. cbn [fst snd] in *.
  assert (Hother : ∀ k h', k ≠ s → hs !! k = Some h' → base h ≠ base h').
  { intros k h' Hk Hh' Heq. apply Hk.
    apply (NoDup_lookup (base <$> hs) k s (base h)); [done| |].
    - by rewrite list_lookup_fmap, Hh', Heq.
    - by rewrite list_lookup_fmap, Hh. }
  assert (Hkeep : ∀ k h', (k < s)%nat → hs !! k = Some h' →
            σ3 !! base h' = σ !! base h').
  { intros k h' Hk Hh'. rewrite (Hc k h') by (lia || done).
    unfold σ2. rewrite lookup_insert_ne by (apply (Hother k); (lia || done)).
    apply Hsame1. by eapply list_elem_of_lookup_2. }
  do 3 (split; [done|]).
  destruct (for_range rhs' (S s) n) as [gs|e]; cbn [bind].
  - destruct Hd as ((us & ->) & Hlen' & Hitems).
    split; [by eexists|]. split; [by cbn; rewrite Hlen'|].
    intros k h' g' Hh' Hg'. destruct k as [|k].
    + rewrite Nat.add_0_r in Hh'. rewrite Hh in Hh'. injection Hh' as <-.
      cbn in Hg'. injection Hg' as <-.
      rewrite (Hc s h) by (lia || done). unfold σ2. by rewrite lookup_insert_eq.
    + cbn in Hg'. apply (Hitems k); [|done].
      by replace (S s + k)%nat with (s + S k)%nat by lia.
  - by rewrite Hd.
Qed.


Lemma finite_samples_np_array l : finite_samples (row (np_array l) 0) = Some l.
Proof.
  unfold finite_samples. apply mapM_Some. unfold row, np_array. cbn.
  apply Forall2_same_length_lookup_2.
  - by rewrite length_fmap, length_seq.
  - intros i x y Hx Hy. rewrite list_lookup_fmap in Hx.
    destruct (seq 0 (length l) !! i) as [j|] eqn:Hj; [|done].
    apply lookup_seq in Hj as [-> Hlt]. cbn in Hx. injection Hx as <-.
    f_equal. by apply nth_lookup_Some.
Qed.

Lemma for_range_ext {A} (f g : nat → result A) s n :
  (∀ i, (s <= i < s + n)%nat → f i = g i) → for_range f s n = for_range g s n.
Proof.
  revert s. induction n as [|n IH]; intros s H; [done|]. cbn [for_range].
  rewrite (H s) by lia. rewrite (IH (S s)); [done|]. intros i Hi. apply H. lia.
Qed.

Lemma row_arr_equiv a b i :
  arr_equiv a b → (i < nrows a)%nat → row a i = row b i.
Proof.
  intros (_ & _ & Hc & Hitem) Hi. unfold row. rewrite <- Hc.
  apply list_fmap_ext. intros k j Hj. apply lookup_seq in Hj as [-> Hlt].
  by apply Hitem.
Qed.

(** The projection reads of the radial grid its shape and the items
    inside it. *)
Lemma psfRZToPSFXYZ_arr_equiv dxy xy_size rv P P' :
  arr_equiv P' P →
  pure_psfRZToPSFXYZ dxy xy_size rv P' = pure_psfRZToPSFXYZ dxy xy_size rv P.
Proof.
  intros HE. pose proof HE as (Hd & Hr & Hc & _). unfold pure_psfRZToPSFXYZ.
  cbn zeta. rewrite Hd, Hr, Hc.
  destruct (xy_size <? 0)%Z; [done|]. cbn [bind].
  destruct (pixel_radii dxy xy_size) as [rp|]; [|done]. cbn [bind].
  destruct (match ndim P with
            | 0%nat => Raise IndexError
            | 1%nat => Ok (ncols P)
            | _ => Ok (nrows P)
            end) as [n_z|] eqn:En; [|done]. cbn [bind].
  apply for_range_ext. intros i Hi.
  destruct (decide (ndim P = 2%nat)) as [H2|]; [|done]. cbn [bind].
  rewrite H2 in En. injection En as <-.
  rewrite (row_arr_equiv P' P) by (done || lia). done.
Qed.

(** A computation that writes in place but keeps the first store can be
    followed by one that reads the first store. *)
Lemma agrees_frames_bind {A A' B B'} (relA : store → A → A' → Prop)
    (relB : store → B → B' → Prop) σ1 m e k k' Q :
  agrees relA σ1 m e → frames σ1 m Q →
  (∀ σ2 a a', e = Ok a' → σ1 ⊆ σ2 → relA σ2 a a' →
     agrees relB σ2 (k a) (k' a')) →
  agrees relB σ1 (mbind m k) (bind e k').
Proof.
  intros Hm Hf Hk σ Hσ. pose proof (Hm σ Hσ) as Ho.
  destruct (Hf σ Hσ) as [Hsub _]. unfold mbind.
  destruct (m σ) as [σ2 r].
  destruct e as [a'|err]; cbn [outcome bind fst snd] in *.
  - destruct Ho as (a & -> & Hrel).
    by apply (Hk σ2 a a' eq_refl Hsub Hrel σ2).
  - by rewrite Ho.
Qed.

Lemma calcRv_refines σ1 dxy xy_size sampling :
  refines (λ σ h rv, holds σ (HArr h) (Np (np_array rv))) σ1
    (calcRv dxy xy_size sampling) (pure_calcRv dxy xy_size sampling).
Proof.
  unfold calcRv.
  rewrite <- (bind_ret_r (pure_calcRv dxy xy_size sampling)) at 2.
  eapply refines_bind; [apply refines_lift|].
  intros σ2 rv rv' _ _ ->. intros σ Hσ.
  destruct (refines_alloc σ2 (np_array rv') σ Hσ) as [Hsub (h & Hh & Ho & _)].
  split; [done|]. by exists h.
Qed.

Section LinkEngine.
Context {lib : NumLib}.

(** From a store that holds the dictionary and the four input arrays, the
    store version of gLZRScan raises the exception that gLZRScan raises,
    or returns a reference that shows, in the store after the call, the
    grid that gLZRScan returns. *)
Theorem gLZRScan_agrees σ1 mp d hpz hrv hzd hzv pz rv zd zv normalize wvl :
  σ1 !! mp = Some (ODict d) →
  holds σ1 (HArr hpz) (Np (np_array pz)) →
  holds σ1 (HArr hrv) (Np (np_array rv)) →
  holds σ1 (HArr hzd) (Np (np_array zd)) →
  holds σ1 (HArr hzv) (Np (np_array zv)) →
  agrees holds_grid σ1 (gLZRScan mp hpz hrv hzd hzv normalize wvl)
    (pure_gLZRScan d pz rv zd zv normalize wvl).
Proof.
  intros Hmp Hpz Hrv Hzd Hzv. unfold gLZRScan, pure_gLZRScan.
  eapply agrees_bind; [by apply configure_refines|].
  intros σ [sf mr] [sf' mr'] _ Hs [Hsf Hmr]. forward Hs.
  cbn [fst snd] in *. subst mr'. cbn zeta.
  agree_heap ltac:(apply refines_h_new).
  do 7 agree_bind.
  do 3 agree_bind.
  agree_bind.
  agree_heap ltac:(apply refines_h_val; eassumption).
  agree_bind.
  agree_heap ltac:(apply refines_h_val; eassumption).
  agree_bind.
  do 4 agree_bind.
  eapply agrees_bind; [apply refines_h_op_owns; link_expr|].
  intros σa Rt vRt _ Hs HRt. forward Hs.
  eapply agrees_iop_owned; [exact HRt|eassumption|].
  intros σb Rt' vRt' _ HRt'.
  agree_heap ltac:(apply refines_h_val; eassumption).
  eapply agrees_bind; [apply refines_lift|].
  intros σc RC RC' HRC Hs Hsame. forward Hs. red in Hsame. subst RC'.
  apply np_dot_ndim in HRC.
  eapply agrees_heap_step; [apply refines_alloc|].
  intros σd sq Hs [Hsq Hplain]. forward Hs. cbn zeta. cbn in Hplain.
  pose proof (holds_view _ _ _ VTranspose Hsq) as HPSF.
  rewrite Hplain in *. cbn [app view_get] in *.
  rewrite (transpose_2d (nd_map _ RC)) in * by done.
  destruct normalize.
  - agree_heap ltac:(apply refines_load; eassumption).
    eapply agrees_bind; [apply refines_lift|]. link_intro.
    eapply agrees_heap_step; [apply refines_alloc|].
    intros σe m0 Hs [Hm0 _]. forward Hs.
    match goal with
    | |- agrees _ ?s (mbind (h_iop _ (HArr ?h) _) ?k) (Ok ?g) =>
        pose proof (agrees_iop holds_grid s Div h (HArr m0) _ _ k (λ _, Ok g)
                      HPSF Hm0) as Hgoal
    end.
    rewrite val_iop_scalar in Hgoal. cbn [bind] in Hgoal. apply Hgoal. clear Hgoal.
    intros σf b c E Hget Hb. injection E as <-.
    apply agrees_ret. intros σ' Hσ'. eexists. split.
    { eexists. split; [by eapply lookup_weaken|reflexivity]. }
    cbn. repeat split; try done.
    intros i j Hi Hj. cbn in *. by rewrite !bidx_lt.
  - apply agrees_ret. intros σ' Hσ'. eexists. split; [|apply arr_equiv_refl].
    by eapply holds_mono.
Qed.

Lemma default_zd_refines σ1 mp d zd :
  σ1 !! mp = Some (ODict d) →
  refines same σ1 (default_zd mp zd) (pure_default_zd d zd).
Proof.
  intros Hmp. destruct zd as [z|]; [by apply refines_ret|].
  by apply refines_dict_get.
Qed.

Lemma alloc_holds σ1 a :
  refines (λ σ h b, holds σ (HArr h) (Np b)) σ1 (alloc a) (Ok a).
Proof. eapply refines_weaken; [apply refines_alloc|]. by intros ? ? ? []. Qed.

(** The same for the three scans that call gLZRScan. *)
Theorem gLZRFocalScan_agrees σ1 mp d hrv hzv rv zv normalize pz wvl zd :
  σ1 !! mp = Some (ODict d) →
  holds σ1 (HArr hrv) (Np (np_array rv)) →
  holds σ1 (HArr hzv) (Np (np_array zv)) →
  agrees holds_grid σ1 (gLZRFocalScan mp hrv hzv normalize pz wvl zd)
    (pure_gLZRFocalScan d rv zv normalize pz wvl zd).
Proof.
  intros Hmp Hrv Hzv. unfold gLZRFocalScan, pure_gLZRFocalScan.
  eapply agrees_bind; [by apply default_zd_refines|]. link_intro.
  agree_heap ltac:(apply alloc_holds).
  agree_heap ltac:(apply alloc_holds).
  by apply gLZRScan_agrees.
Qed.

Theorem gLZRParticleScan_agrees σ1 mp d hrv hpz rv pz normalize wvl zd zv :
  σ1 !! mp = Some (ODict d) →
  holds σ1 (HArr hrv) (Np (np_array rv)) →
  holds σ1 (HArr hpz) (Np (np_array pz)) →
  agrees holds_grid σ1 (gLZRParticleScan mp hrv hpz normalize wvl zd zv)
    (pure_gLZRParticleScan d rv pz normalize wvl zd zv).
Proof.
  intros Hmp Hrv Hpz. unfold gLZRParticleScan, pure_gLZRParticleScan.
  eapply agrees_bind; [by apply default_zd_refines|]. link_intro.
  agree_heap ltac:(apply alloc_holds).
  agree_heap ltac:(apply alloc_holds).
  by apply gLZRScan_agrees.
Qed.

Theorem gLZRCameraScan_agrees σ1 mp d hrv hzd rv zd normalize pz wvl zv :
  σ1 !! mp = Some (ODict d) →
  holds σ1 (HArr hrv) (Np (np_array rv)) →
  holds σ1 (HArr hzd) (Np (np_array zd)) →
  agrees holds_grid σ1 (gLZRCameraScan mp hrv hzd normalize pz wvl zv)
    (pure_gLZRCameraScan d rv zd normalize pz wvl zv).
Proof.
  intros Hmp Hrv Hzd. unfold gLZRCameraScan, pure_gLZRCameraScan.
  agree_heap ltac:(apply alloc_holds).
  agree_heap ltac:(apply alloc_holds).
  by apply gLZRScan_agrees.
Qed.

Lemma quad_refines σ1 (f : R → M float64) (f' : R → result float64) a b :
  (∀ σ2 x, σ1 ⊆ σ2 → refines same σ2 (f x) (f' x)) →
  refines same σ1 (quad f a b) (pure_quad f' a b).
Proof.
  unfold quad, pure_quad. generalize (@nil (R * float64)). revert σ1.
  induction quad_limit as [|n IH]; intros σ1 seen Hf; cbn [quad_loop pure_quad_loop].
  - by apply refines_ret.
  - destruct (quad_next a b seen) as [x|est]; [|by apply refines_ret].
    eapply refines_bind; [by apply Hf|].
    intros σ2 y y' _ Hs Hr. red in Hr. subst y'. apply IH.
    intros σ3 x' Hs3. apply Hf. by etrans.
Qed.

Lemma slowGL_t3_refines σ1 mp d k a rv ti pz wvl zd rho :
  σ1 !! mp = Some (ODict d) →
  refines same σ1 (slowGL_t3 mp k a rv ti pz wvl zd rho)
    (pure_slowGL_t3 d k a rv ti pz wvl zd rho).
Proof.
  intros Hmp. unfold slowGL_t3, pure_slowGL_t3.
  link_bind.
  eapply refines_bind; [by apply OPD_refines|]. link_intro.
  heap_step ltac:(apply refines_h_val; eassumption).
  red in Hr0. subst. by apply refines_ret.
Qed.

(** The store version of slowGL returns what slowGL returns. *)
Theorem slowGL_refines σ1 mp d max_rho rv zv pz wvl zd :
  σ1 !! mp = Some (ODict d) →
  refines same σ1 (slowGL mp max_rho rv zv pz wvl zd)
    (pure_slowGL d max_rho rv zv pz wvl zd).
Proof.
  intros Hmp. unfold slowGL, pure_slowGL.
  do 8 link_bind.
  eapply refines_bind.
  { apply quad_refines. intros σ' x Hs. forward Hs.
    eapply refines_bind; [by apply slowGL_t3_refines|].
    intros σ'' t3 t3' _ _ ->. by apply refines_ret. }
  link_intro.
  eapply refines_bind.
  { apply quad_refines. intros σ' x Hs. forward Hs.
    eapply refines_bind; [by apply slowGL_t3_refines|].
    intros σ'' t3 t3' _ _ ->. by apply refines_ret. }
  link_intro.
  link_bind. by apply refines_ret.
Qed.

(** ** The projection to a volume and the three volume scans *)

Lemma interp1d_arr_np_array rv y : interp1d_arr (np_array rv) y = interp1d rv y.
Proof.
  unfold interp1d_arr. rewrite decide_True by done.
  by rewrite finite_samples_np_array.
Qed.

(** The right-hand side of the assignment to a slice. *)
Lemma interp_row_refines σa n hrv hP hv rv P rp i :
  holds σa (HArr hrv) (Np (np_array rv)) → holds σa (HArr hP) (Np P) →
  holds σa hv rp →
  refines same σa (interp_row n hrv hP hv i)
    (_ <- (if decide (ndim P = 2%nat) then Ok tt else Raise IndexError) ;;
     psf_rz_interp <- interp1d rv (row P i) ;;
     y <- psf_rz_interp (ravel (to_np rp)) ;;
     Ok (reshape2 n n y)).
Proof.
  intros Hrv HP Hv. unfold interp_row.
  heap_step ltac:(apply refines_load; eassumption). red in Hr. subst.
  link_bind.
  heap_step ltac:(apply refines_load; eassumption). red in Hr. subst.
  heap_step ltac:(apply refines_load; apply holds_view; eassumption).
  red in Hr. subst.
  rewrite interp1d_arr_np_array.
  change (row (view_get (VRow i) P) 0) with (row P i).
  link_bind.
  heap_step ltac:(apply refines_h_val; eassumption). red in Hr. subst.
  link_bind. by apply refines_ret.
Qed.


(** From a store that holds the radii and the radial grid, the store
    version of psfRZToPSFXYZ raises the exception that psfRZToPSFXYZ
    raises, or returns the references of slices that show, in the store
    after the call, the slices that psfRZToPSFXYZ returns. *)
Theorem psfRZToPSFXYZ_agrees σ1 dxy xy_size hrv hP rv P :
  holds σ1 (HArr hrv) (Np (np_array rv)) →
  holds σ1 (HArr hP) (Np P) →
  agrees holds_volume σ1 (psfRZToPSFXYZ dxy xy_size hrv hP)
    (pure_psfRZToPSFXYZ dxy xy_size rv P).
Proof.
  intros Hrv HP. unfold psfRZToPSFXYZ, pure_psfRZToPSFXYZ, pixel_radii.
  cbn zeta.
  agree_bind.
  agree_heap ltac:(apply refines_h_new).
  agree_heap ltac:(apply refines_h_new).
  agree_bind.
  agree_heap ltac:(apply refines_load; eassumption).
  agree_bind.
  intros σb Hσ. forward Hσ.
  match goal with |- context [for_range _ 0 ?k] => set (n_z := k) end.
  set (n := Z.to_nat xy_size).
  destruct (alloc_many (nd2 n n (λ _ _ : nat, Val 0)) n_z 0 σb)
    as (σ' & hs & E & Hsub & Hlen & Hnd & Hall).
  unfold mbind at 1. rewrite E.
  match goal with
  | |- context [for_range ?f 0 n_z] => set (rhs' := f)
  end.
  lazymatch goal with
  | |- context [interp_row _ _ _ ?hv] =>
      pose proof (fill_slices σb hs
        (λ i, interp_row n hrv hP hv i) rhs' n_z 0 σ') as Hfill
  end.
  cbn zeta in Hfill.
  destruct Hfill as (_ & _ & _ & Hrun).
  - intros i. by apply interp_row_refines.
  - done.
  - done.
  - eapply Forall_impl; [exact Hall|]. by intros h (? & ? & ?).
  - intros h Hh. rewrite Forall_forall in Hall.
    destruct (Hall h Hh) as (_ & _ & Hb). by eexists.
  - by rewrite Hlen.
  - unfold mbind at 1.
    destruct (h_for _ 0 n_z σ') as [σ'' r]. cbn [fst snd] in Hrun.
    destruct (for_range rhs' 0 n_z) as [gs|e]; cbn [outcome].
    + destruct Hrun as ((us & ->) & Hlen' & Hitems). unfold ret.
      exists hs. split; [done|]. cbn [fst].
      apply Forall2_same_length_lookup_2; [by rewrite Hlen, Hlen'|].
      intros k h g Hh Hg. exists g. split; [by apply (Hitems k)|].
      rewrite Forall_forall in Hall.
      destruct (Hall h ltac:(by eapply list_elem_of_lookup_2)) as (_ & -> & _).
      done.
    + by rewrite Hrun.
Qed.


Lemma psfRZToPSFXYZ_agrees_grid σ1 dxy xy_size hrv hP rv P :
  holds σ1 (HArr hrv) (Np (np_array rv)) →
  holds_grid σ1 hP P →
  agrees holds_volume σ1 (psfRZToPSFXYZ dxy xy_size hrv hP)
    (pure_psfRZToPSFXYZ dxy xy_size rv P).
Proof.
  intros Hrv (P' & HP & HE). rewrite <- (psfRZToPSFXYZ_arr_equiv _ _ _ _ _ HE).
  by apply psfRZToPSFXYZ_agrees.
Qed.

(** The same for the three volume scans. *)
Theorem gLXYZFocalScan_agrees σ1 mp d hzv zv dxy xy_size normalize pz wvl zd :
  σ1 !! mp = Some (ODict d) →
  holds σ1 (HArr hzv) (Np (np_array zv)) →
  agrees holds_volume σ1 (gLXYZFocalScan mp dxy xy_size hzv normalize pz wvl zd)
    (pure_gLXYZFocalScan d dxy xy_size zv normalize pz wvl zd).
Proof.
  intros Hmp Hzv. unfold gLXYZFocalScan, pure_gLXYZFocalScan.
  eapply agrees_bind; [apply calcRv_refines|]. link_intro.
  eapply agrees_frames_bind;
    [by eapply gLZRFocalScan_agrees|apply frames_gLZRFocalScan|].
  link_intro. by apply psfRZToPSFXYZ_agrees_grid.
Qed.

Theorem gLXYZParticleScan_agrees σ1 mp d hpz pz dxy xy_size normalize wvl zd zv :
  σ1 !! mp = Some (ODict d) →
  holds σ1 (HArr hpz) (Np (np_array pz)) →
  agrees holds_volume σ1
    (gLXYZParticleScan mp dxy xy_size hpz normalize wvl zd zv)
    (pure_gLXYZParticleScan d dxy xy_size pz normalize wvl zd zv).
Proof.
  intros Hmp Hpz. unfold gLXYZParticleScan, pure_gLXYZParticleScan.
  eapply agrees_bind; [apply calcRv_refines|]. link_intro.
  eapply agrees_frames_bind;
    [by eapply gLZRParticleScan_agrees|apply frames_gLZRParticleScan|].
  link_intro. by apply psfRZToPSFXYZ_agrees_grid.
Qed.

Theorem gLXYZCameraScan_agrees σ1 mp d hzd zd dxy xy_size normalize pz wvl zv :
  σ1 !! mp = Some (ODict d) →
  holds σ1 (HArr hzd) (Np (np_array zd)) →
  agrees holds_volume σ1
    (gLXYZCameraScan mp dxy xy_size hzd normalize pz wvl zv)
    (pure_gLXYZCameraScan d dxy xy_size zd normalize pz wvl zv).
Proof.
  intros Hmp Hzd. unfold gLXYZCameraScan, pure_gLXYZCameraScan.
  eapply agrees_bind; [apply calcRv_refines|]. link_intro.
  eapply agrees_frames_bind;
    [by eapply gLZRCameraScan_agrees|apply frames_gLZRCameraScan|].
  link_intro. by apply psfRZToPSFXYZ_agrees_grid.
Qed.

End LinkEngine.

End Link.

(* ================================================================= *)
(** * Part V: errors, edge cases and compositions of the functions *)
(* ================================================================= *)

(** ** The dictionary: the keys that are read, and those that are missing *)

Lemma getitem_Some (mp : gmap string R) key :
  is_Some (mp !! key) → ∃ x, getitem mp key = Ok x.
Proof. intros [x H]. exists x. unfold getitem. by rewrite H. Qed.

Lemma getitem_None (mp : gmap string R) key :
  mp !! key = None → getitem mp key = Raise (KeyError key).
Proof. intros H. unfold getitem. by rewrite H. Qed.

(** X4.  [OPD] reads the keys NA, ns, ng0, ng, ni0, ni, ti0, tg, tg0, zd0
    and M in this order: on a dictionary that lacks some of them it raises
    KeyError for the first one that is missing, whatever the other
    arguments are. *)
Theorem OPD_missing_key mp key rho ti pz wvl zd :
  first_missing mp OPD_keys key →
  OPD mp rho ti pz wvl zd = Raise (KeyError key).
Proof.
  intros H. unfold OPD_keys in H.
  destruct H as (before & after & E & Hall & Hno).
  unfold OPD.
  repeat (destruct before as [|k before];
    [ cbn in E; injection E as <-; intros; subst;
      by rewrite (getitem_None _ _ Hno)
    | cbn in E; injection E as <- E;
      apply Forall_cons in Hall as [[? Hk] Hall];
      unfold getitem at 1; rewrite Hk; clear Hk; cbn [bind] ]).
  destruct before; cbn in E; discriminate.
Qed.

Lemma OPD_missing_key_witness :
  OPD (delete "tg"%string (dict_of example_params)) (PyFloat 0.5) (PyFloat 150)
    (PyFloat 0) 0.6 (PyFloat 150000) = Raise (KeyError "tg").
Proof.
  apply OPD_missing_key.
  exists ["NA"; "ns"; "ng0"; "ng"; "ni0"; "ni"; "ti0"]%string,
         ["tg0"; "zd0"; "M"]%string.
  split; [reflexivity|]. split; [|reflexivity].
  repeat constructor; by eexists.
Defined.

(** The scaling factors, whatever NA and the wavelength are. *)
Lemma scaling_factor_eval (NA wvl : R) :
  ∃ sf,
    (NA * (3 * arr (np_array ((λ i, INR i) <$> seq 1 num_basis)) - 2)
       * 0.436 / wvl)%py = Ok (Np sf) ∧
    ndim sf = 1%nat ∧ nrows sf = 1%nat ∧ ncols sf = num_basis ∧
    ∀ j, (j < num_basis)%nat →
      item sf 0 j = (Val (NA * (3 * INR (1 + j) - 2) * 0.436) / Val wvl)%f64.
Proof.
  lazymatch goal with
  | |- ex (λ sf, ?e = _ ∧ _) => eassert (H : evals _ e _ _ _ _) by eval_expr
  end.
  rewrite ?Nat.max_0_l, ?Nat.max_0_r, ?Nat.max_id in H.
  apply evals_inv in H as (sf & E & Hd & Hr & Hc & Hitem).
  exists sf. split; [exact E|].
  assert (ncols sf = num_basis) as Hc'.
  { rewrite Hc. cbn [np_array nd1 ncols]. by rewrite length_fmap, length_seq. }
  repeat split; try done.
  intros j Hj. rewrite Hitem by (rewrite <- ?Hc, ?Hc'; lia).
  unfold bitem. cbn [np_array nd1 nrows ncols item f64_op].
  rewrite bidx_lt by (by rewrite length_fmap, length_seq).
  by rewrite nth_fmap_seq by done.
Qed.

(** X6.  [configure] reads NA, ng0, ng, ni0, ni and ns in this order: on a
    dictionary that lacks some of them it raises KeyError for the first
    one that is missing, whatever the wavelength is. *)
Theorem configure_missing_key mp key wvl :
  first_missing mp configure_keys key →
  configure mp wvl = Raise (KeyError key).
Proof.
  intros (before & after & E & Hall & Hno). unfold configure_keys in E.
  unfold configure. cbn zeta.
  destruct before as [|k before].
  { cbn in E. injection E as <- _. by rewrite (getitem_None _ _ Hno). }
  cbn in E. injection E as <- E.
  apply Forall_cons in Hall as [[NA HNA] Hall].
  unfold getitem. rewrite HNA. cbn [bind].
  destruct (scaling_factor_eval NA wvl) as (sf & -> & _). cbn [bind].
  repeat (destruct before as [|k before];
    [ cbn in E; injection E as <-; intros; subst; by rewrite Hno
    | cbn in E; injection E as <- E;
      apply Forall_cons in Hall as [[? Hk] Hall];
      rewrite Hk; clear Hk; cbn [bind] ]).
  destruct before; cbn in E; discriminate.
Qed.

Lemma configure_missing_key_witness :
  configure (delete "ni"%string (dict_of example_params)) 0.6
    = Raise (KeyError "ni").
Proof.
  apply configure_missing_key.
  exists ["NA"; "ng0"; "ng"; "ni0"]%string, ["ns"]%string.
  split; [reflexivity|]. split; [|reflexivity].
  repeat constructor; by eexists.
Defined.

(** X7.  [configure] depends on the dictionary through the six keys NA,
    ng0, ng, ni0, ni and ns only: on two dictionaries that agree on these
    keys it gives the same result. *)
Theorem configure_reads_six_keys mp mp' wvl :
  (∀ k, k ∈ configure_keys → mp !! k = mp' !! k) →
  configure mp wvl = configure mp' wvl.
Proof.
  intros H. unfold configure, getitem.
  rewrite !(H "NA"%string), (H "ng0"%string), (H "ng"%string),
    (H "ni0"%string), (H "ni"%string), (H "ns"%string);
    (done || (unfold configure_keys; set_solver)).
Qed.

Lemma configure_reads_six_keys_witness :
  configure (<["tg" := 0]> (dict_of example_params)) 0.6
    = configure (dict_of example_params) 0.6.
Proof.
  apply configure_reads_six_keys. intros k Hk.
  apply lookup_insert_ne. intros <-.
  unfold configure_keys in Hk. rewrite !elem_of_cons, elem_of_nil in Hk.
  destruct Hk as [?|[?|[?|[?|[?|[?|[]]]]]]]; discriminate.
Defined.

Lemma configure_any p wvl :
  ∃ sf,
    configure (dict_of p) wvl
      = (max_rho <- py_op Div (min6 p) (p_NA p) ;; Ok (Np sf, max_rho)) ∧
    ndim sf = 1%nat ∧ nrows sf = 1%nat ∧ ncols sf = num_basis ∧
    ∀ j, (j < num_basis)%nat →
      item sf 0 j
        = (Val (p_NA p * (3 * INR (1 + j) - 2) * 0.436) / Val wvl)%f64.
Proof.
  destruct (scaling_factor_eval (p_NA p) wvl) as (sf & E & H).
  exists sf. split; [|exact H].
  unfold configure. cbn zeta. getitems. rewrite E. cbn [bind]. getitems.
  reflexivity.
Qed.

(** X8.  On a full dictionary [configure] raises exactly when NA is 0, and
    what it raises is ZeroDivisionError; no wavelength makes it raise. *)
Theorem configure_raises_iff p wvl :
  (configure (dict_of p) wvl = Raise ZeroDivisionError ↔ p_NA p = 0) ∧
  (∀ e, configure (dict_of p) wvl = Raise e → e = ZeroDivisionError).
Proof.
  destruct (configure_any p wvl) as (sf & -> & _). unfold py_op.
  destruct (Req_dec_T (p_NA p) 0) as [E|E]; cbn [bind].
  - split; [done|]. by intros e [= <-].
  - split; [|done]. split; [done|]. intros; done.
Qed.

(** X9.  With a wavelength of 0 and an NA that is not 0, [configure]
    returns: max_rho is what it is for any wavelength, and each of the 100
    scaling factors is infinite or not a number, the result of numpy's
    division by zero. *)
Theorem configure_zero_wavelength p :
  p_NA p ≠ 0 →
  ∃ sf, configure (dict_of p) 0 = Ok (Np sf, min6 p / p_NA p) ∧
    ndim sf = 1%nat ∧ nrows sf = 1%nat ∧ ncols sf = 100%nat ∧
    ∀ j, (j < 100)%nat → item sf 0 j = NaNInf.
Proof.
  intros HNA. destruct (configure_any p 0) as (sf & -> & Hd & Hr & Hc & Hitem).
  rewrite py_div_ok by done. cbn [bind]. exists sf.
  repeat split; try done. intros j Hj. rewrite Hitem by done.
  apply f64_div_zero.
Qed.

Lemma configure_zero_wavelength_witness :
  ∃ sf, configure (dict_of example_params) 0
          = Ok (Np sf, min6 example_params / p_NA example_params) ∧
    ndim sf = 1%nat ∧ nrows sf = 1%nat ∧ ncols sf = 100%nat ∧
    ∀ j, (j < 100)%nat → item sf 0 j = NaNInf.
Proof. apply (configure_zero_wavelength example_params). cbn. lra. Defined.

(** X10.  For valid parameters the max_rho of [configure] lies between 0
    and 1, and it is 1 exactly when NA exceeds none of the refractive
    indices ns, ni, ni0, ng and ng0. *)
Theorem max_rho_unit_interval p wvl :
  valid_params p →
  ∃ sf max_rho, configure (dict_of p) wvl = Ok (sf, max_rho) ∧
    0 <= max_rho <= 1 ∧
    (max_rho = 1 ↔
       p_NA p <= p_ns p ∧ p_NA p <= p_ni p ∧ p_NA p <= p_ni0 p ∧
       p_NA p <= p_ng p ∧ p_NA p <= p_ng0 p).
Proof.
  intros (HNA & HM & Hzd0 & Hng0 & Hng & Hni0 & Hni & Hns).
  destruct (configure_any p wvl) as (sf & -> & _).
  rewrite py_div_ok by lra. cbn [bind]. exists (Np sf), (min6 p / p_NA p).
  split; [done|].
  destruct (min6_spec p) as [Hin Hmin]. cbn zeta in Hin, Hmin.
  assert (Hm : ∀ n, n ∈ [p_NA p; p_ng0 p; p_ng p; p_ni0 p; p_ni p; p_ns p] →
               min6 p <= n) by exact Hmin.
  assert (H0 : 0 <= min6 p).
  { unfold min6. repeat apply Rmin_glb; lra. }
  assert (HNA' : min6 p <= p_NA p) by (apply Hm; rewrite !elem_of_cons; tauto).
  assert (Heq : p_NA p * (min6 p / p_NA p) = min6 p) by (field; lra).
  split.
  { split.
    - apply Rmult_le_pos; [done|]. apply Rlt_le, Rinv_0_lt_compat. lra.
    - apply (Rmult_le_reg_l (p_NA p)); [lra|]. rewrite Heq. lra. }
  split.
  - intros E1. rewrite E1, Rmult_1_r in Heq. rewrite Heq.
    repeat split; apply Hm; rewrite !elem_of_cons; tauto.
  - intros (H1 & H2 & H3 & H4 & H5).
    assert (min6 p = p_NA p) as ->; [|field; lra].
    rewrite !elem_of_cons, elem_of_nil in Hin.
    destruct Hin as [E|[E|[E|[E|[E|[E|[]]]]]]]; lra.
Qed.

Lemma max_rho_unit_interval_witness :
  ∃ sf max_rho, configure (dict_of example_params) 0.6 = Ok (sf, max_rho) ∧
    0 <= max_rho <= 1 ∧
    (max_rho = 1 ↔
       p_NA example_params <= p_ns example_params ∧
       p_NA example_params <= p_ni example_params ∧
       p_NA example_params <= p_ni0 example_params ∧
       p_NA example_params <= p_ng example_params ∧
       p_NA example_params <= p_ng0 example_params).
Proof.
  apply (max_rho_unit_interval example_params 0.6).
  unfold valid_params. cbn. repeat split; lra.
Defined.

(** ** The focal offset, and the phase of a matched system *)

Lemma deltaFocus_any p zd :
  deltaFocus (dict_of p) zd =
    (a <- py_op Div (p_NA p * p_zd0 p) (p_M p) ;;
     py_op Div (a * a * (p_zd0 p - zd)) (2.0 * p_zd0 p * zd)).
Proof. unfold deltaFocus. getitems. reflexivity. Qed.

(** X1.  On a full dictionary [deltaFocus] raises exactly when the
    magnification, the design tube length or the camera position is 0; the
    exception is ZeroDivisionError, and it raises no other. *)
Theorem deltaFocus_raises_iff p zd :
  (deltaFocus (dict_of p) zd = Raise ZeroDivisionError
     ↔ p_M p = 0 ∨ p_zd0 p = 0 ∨ zd = 0) ∧
  (∀ e, deltaFocus (dict_of p) zd = Raise e → e = ZeroDivisionError).
Proof.
  rewrite deltaFocus_any. unfold py_op.
  destruct (Req_dec_T (p_M p) 0) as [EM|EM]; cbn [bind].
  { split; [split; [auto|done]|]. by intros e [= <-]. }
  destruct (Req_dec_T (2.0 * p_zd0 p * zd) 0) as [E|E].
  - split; [|by intros e [= <-]]. split; [|done]. intros _.
    assert (p_zd0 p * zd = 0) as H0 by lra.
    destruct (Rmult_integral _ _ H0); auto.
  - split; [|done]. split; [done|]. intros [?|[H|H]]; [done| |];
      exfalso; apply E; rewrite H; lra.
Qed.

(** X2.  With the camera at the design tube length no focal offset is
    needed: [deltaFocus] returns 0. *)
Theorem deltaFocus_design_position p :
  p_M p ≠ 0 → p_zd0 p ≠ 0 → deltaFocus (dict_of p) (p_zd0 p) = Ok 0.
Proof.
  intros HM Hzd0. rewrite deltaFocus_any. rewrite py_div_ok by done.
  cbn [bind]. rewrite py_div_ok.
  - f_equal. field. split; [done|lra].
  - intros E. assert (p_zd0 p * p_zd0 p = 0) as H0 by lra.
    destruct (Rmult_integral _ _ H0); done.
Qed.

Lemma deltaFocus_design_position_witness :
  deltaFocus (dict_of example_params) (p_zd0 example_params) = Ok 0.
Proof. apply deltaFocus_design_position; cbn; lra. Defined.

(** X3.  When the immersion medium and the coverslip are the design ones,
    the coverslip offset is the design thickness ti0 and the particle is on
    the coverslip, the one term of [OPD] that is left is the term of the
    camera position: at a sample rho that is a number the phase is
    k * deltaFocus(zd) * rho^2, with k = 2 pi / wvl, or it is NaN; it is
    the former where the sample is inside the pupil of the media ns, ni and
    ng by the margin. *)
Theorem OPD_matched_is_defocus p wvl zd rho d :
  p_ni p = p_ni0 p → p_ng p = p_ng0 p → p_tg p = p_tg0 p →
  wvl ≠ 0 →
  deltaFocus (dict_of p) zd = Ok d →
  nrows rho = 1%nat →
  ∃ out,
    OPD (dict_of p) (Np rho) (PyFloat (p_ti0 p)) (PyFloat 0) wvl (PyFloat zd)
      = Ok (Np out) ∧
    ndim out = ndim rho ∧ nrows out = 1%nat ∧ ncols out = ncols rho ∧
    ∀ j x, (j < ncols rho)%nat → item rho 0 j = Val x →
      (item out 0 j = Val (2 * PI / wvl * (d * x ^ 2))
       ∨ item out 0 j = NaNInf) ∧
      (inside_pupil (p_NA p) x (p_ns p) → inside_pupil (p_NA p) x (p_ni p) →
       inside_pupil (p_NA p) x (p_ng p) →
       item out 0 j = Val (2 * PI / wvl * (d * x ^ 2))).
Proof.
  intros Hni Hng Htg Hw Hd Hrho.
  rewrite deltaFocus_any in Hd. unfold py_op in Hd.
  destruct (Req_dec_T (p_M p) 0) as [|HM]; [done|]. cbn [bind] in Hd.
  destruct (Req_dec_T (2.0 * p_zd0 p * zd) 0) as [|Hden]; [done|].
  injection Hd as <-.
  destruct (evals_inv _ _ _ _ _
     (OPD_eval p wvl rho (PyFloat (p_ti0 p)) (PyFloat 0) (PyFloat zd) 1 1
        HM Hw Hrho eq_refl eq_refl eq_refl eq_refl eq_refl))
    as (out & E & Hdim & Hr & Hc & Hitem).
  exists out. split; [done|]. split; [rewrite Hdim; cbn; lia|].
  do 2 (split; [done|]). intros j x Hj Ex.
  assert (Ej : item out 0 j
               = OPD_item p wvl (Val x) (Val (p_ti0 p)) (Val 0) (Val zd)).
  { rewrite Hitem by lia. unfold bitem.
    rewrite Hrho, !bidx_1, (bidx_lt (ncols rho) j), Ex by done. reflexivity. }
  rewrite Ej.
  destruct (OPD_item_matched p wvl x zd Hni Hng Htg) as [Hin Hout].
  cbn zeta in Hin, Hout.
  assert (Hval : 2.0 * PI / wvl
                 * (p_NA p * p_zd0 p / p_M p * (p_NA p * p_zd0 p / p_M p)
                    * (p_zd0 p - zd) * x * x / (2.0 * p_zd0 p * zd))
                 = 2 * PI / wvl
                   * (p_NA p * p_zd0 p / p_M p * (p_NA p * p_zd0 p / p_M p)
                      * (p_zd0 p - zd) / (2.0 * p_zd0 p * zd) * x ^ 2)).
  { replace 2.0 with 2 in * by lra. field. repeat split; try done.
    - intros ->. apply Hden. lra.
    - intros E0. apply Hden. rewrite E0. lra. }
  split.
  - destruct (Rlt_dec (p_ns p * p_ns p - p_NA p * p_NA p * x * x) 0);
      [right; apply Hout; tauto|].
    destruct (Rlt_dec (p_ni p * p_ni p - p_NA p * p_NA p * x * x) 0);
      [right; apply Hout; tauto|].
    destruct (Rlt_dec (p_ng p * p_ng p - p_NA p * p_NA p * x * x) 0);
      [right; apply Hout; tauto|].
    left. rewrite Hin by lra. f_equal. exact Hval.
  - intros H1 H2 H3.
    rewrite Hin by (done || by apply inside_pupil_radicand).
    f_equal. exact Hval.
Qed.

Lemma OPD_matched_is_defocus_witness :
  ∃ out,
    OPD (dict_of example_params) (Np (np_array [0; 0.5]))
      (PyFloat (p_ti0 example_params)) (PyFloat 0) 0.6 (PyFloat 200000)
      = Ok (Np out) ∧
    ndim out = 1%nat ∧ nrows out = 1%nat ∧ ncols out = 2%nat ∧
    item out 0 1
      = Val (2 * PI / 0.6 *
             ((1.4 * 150000 / 100) * (1.4 * 150000 / 100)
                * (150000 - 200000) / (2.0 * 150000 * 200000) * 0.5 ^ 2)).
Proof.
  destruct (OPD_matched_is_defocus example_params 0.6 200000
              (np_array [0; 0.5])
              ((1.4 * 150000 / 100) * (1.4 * 150000 / 100)
                 * (150000 - 200000) / (2.0 * 150000 * 200000)))
    as (out & E & Hd & Hr & Hc & H); try first [ reflexivity | cbn; lra ].
  { rewrite deltaFocus_any. cbn [example_params p_NA p_zd0 p_M].
    rewrite py_div_ok by lra. cbn [bind]. rewrite py_div_ok by lra. reflexivity. }
  exists out. do 4 (split; [done|]).
  destruct (H 1%nat 0.5 ltac:(cbn; lia) eq_refl) as [_ Hin].
  pose proof radicand_margin_le as Hm. pose proof radicand_margin_pos as Hm0.
  apply Hin; unfold inside_pupil; cbn; nra.
Defined.

(** ** The phase on the pupil samples *)

(** X5.  [configure] and [OPD] fit together: for valid parameters, a
    wavelength and a camera position that are not 0, the phase at each of
    the pupil samples between 0 and the max_rho of [configure], but for
    the last one, is a finite number: no square root of a negative number,
    no division by zero.  The last of the 1000 samples is max_rho, the
    edge of the pupil, where the radicand is 0 or changes sign. *)
Theorem OPD_finite_on_pupil_samples p wvl ti pz zd :
  valid_params p → wvl ≠ 0 → zd ≠ 0 →
  ∃ sf max_rho out,
    configure (dict_of p) wvl = Ok (sf, max_rho) ∧
    OPD (dict_of p) (Np (np_array (linspace 0.0 max_rho rho_samples)))
      (PyFloat ti) (PyFloat pz) wvl (PyFloat zd) = Ok (Np out) ∧
    nrows out = 1%nat ∧ ncols out = 1000%nat ∧
    ∀ j, (j < 999)%nat → is_finite (item out 0 j).
Proof.
  intros (HNA & HM & Hzd0 & Hng0 & Hng & Hni0 & Hni & Hns) Hw Hzd.
  destruct (configure_eval p wvl ltac:(lra) Hw) as (sf & E & _).
  exists (Np sf), (min6 p / p_NA p).
  set (max_rho := min6 p / p_NA p) in *.
  set (rho := np_array (linspace 0.0 max_rho rho_samples)).
  assert (Hrhoc : ncols rho = rho_samples).
  { unfold rho. cbn [np_array nd1 ncols].
    by rewrite length_linspace by (unfold rho_samples; lia). }
  destruct (evals_inv _ _ _ _ _
     (OPD_eval p wvl rho (PyFloat ti) (PyFloat pz) (PyFloat zd) 1 1
        HM Hw eq_refl eq_refl eq_refl eq_refl eq_refl eq_refl))
    as (out & EO & Hdim & Hr & Hc & Hitem).
  exists out. split; [done|]. split; [done|]. split; [done|].
  split; [by rewrite Hc, Hrhoc|].
  intros j Hj'. assert (Hj : (j < 1000)%nat) by lia.
  rewrite Hitem by (rewrite ?Hrhoc; unfold rho_samples; lia).
  assert (Hmr : 0 <= max_rho).
  { unfold max_rho, Rdiv. apply Rmult_le_pos;
      [unfold min6; repeat apply Rmin_glb; lra
      |apply Rlt_le, Rinv_0_lt_compat; lra]. }
  unfold bitem. rewrite Hrhoc, (bidx_lt _ j) by done.
  cbn [to_np nd0 nrows ncols item bidx rho np_array nd1].
  rewrite ?bidx_1.
  destruct (linspace_range max_rho rho_samples j Hmr
              ltac:(unfold rho_samples; lia) Hj) as [Hx0 Hx1].
  set (x := nth j (linspace 0.0 max_rho rho_samples) 0) in *.
  assert (p_NA p * x <= min6 p) as Hle.
  { unfold max_rho in Hx1. apply (Rmult_le_compat_l (p_NA p)) in Hx1; [|lra].
    replace (p_NA p * (min6 p / p_NA p)) with (min6 p) in Hx1 by (field; lra).
    done. }
  assert (0 <= p_NA p * x) as Hge by (apply Rmult_le_pos; lra).
  assert (Hsq2 : ∀ n, 0 <= n → min6 p <= n → (p_NA p * x) ^ 2 <= n ^ 2).
  { intros n Hn0 Hn. clear -Hle Hge Hn0 Hn. nra. }
  destruct (min6_spec p) as [_ Hmin]. cbn zeta in Hmin.
  assert (Hm : ∀ n, n ∈ [p_NA p; p_ng0 p; p_ng p; p_ni0 p; p_ni p; p_ns p] →
               min6 p <= n) by exact Hmin.
  apply OPD_item_finite; [exact Hw| |apply Hsq2..]; try assumption.
  - intros E0. apply Rmult_integral in E0 as [E0|E0]; [|done].
    apply Rmult_integral in E0 as [E0|E0]; [lra|done].
  - apply Hm. rewrite !elem_of_cons. tauto.
  - apply Hm. rewrite !elem_of_cons. tauto.
  - apply Hm. rewrite !elem_of_cons. tauto.
  - apply Hm. rewrite !elem_of_cons. tauto.
  - apply Hm. rewrite !elem_of_cons. tauto.
Qed.

Lemma OPD_finite_on_pupil_samples_witness :
  ∃ sf max_rho out,
    configure (dict_of example_params) 0.6 = Ok (sf, max_rho) ∧
    OPD (dict_of example_params)
      (Np (np_array (linspace 0.0 max_rho rho_samples)))
      (PyFloat 150) (PyFloat 2) 0.6 (PyFloat 150000) = Ok (Np out) ∧
    nrows out = 1%nat ∧ ncols out = 1000%nat ∧
    ∀ j, (j < 999)%nat → is_finite (item out 0 j).
Proof.
  apply (OPD_finite_on_pupil_samples example_params 0.6 150 2 150000);
    [unfold valid_params; cbn; repeat split; lra|lra|lra].
Defined.

(** ** The volume: interpolation, symmetry, range *)


Lemma for_range_lookup {A} (f : nat → result A) s n l i x :
  for_range f s n = Ok l → l !! i = Some x → f (s + i)%nat = Ok x.
Proof.
  revert s l i. induction n as [|n IH]; intros s l i; cbn [for_range].
  - by intros [= <-].
  - destruct (f s) as [y|] eqn:Ey; [|done]. cbn [bind].
    destruct (for_range f (S s) n) as [l'|] eqn:El; [|done]. cbn [bind].
    intros [= <-]. destruct i as [|i]; cbn.
    + intros [= <-]. by rewrite Nat.add_0_r.
    + intros Hx. rewrite <- (IH (S s) l' i El Hx). f_equal. lia.
Qed.


















(** ** The volume: the inputs that are refused *)

Lemma for_range_raises {A} (f : nat → result A) s n e :
  f s = Raise e → for_range f s (S n) = Raise e.
Proof. intros H. cbn [for_range]. by rewrite H. Qed.

(** X16.  The inputs that [psfRZToPSFXYZ] refuses.  For a number of pixels
    that is not negative: a 0-d grid and a 1-d grid that is not empty raise
    IndexError, a 2-d grid with a row and a number of columns that differs
    from the number of radii raises ValueError.  A negative number of
    pixels raises ValueError for a 1-d and for a 2-d grid. *)
Theorem psfRZToPSFXYZ_input_checks dxy xy_size rv P :
  (ndim P = 0%nat → (0 <= xy_size)%Z →
     psfRZToPSFXYZ dxy xy_size rv P = Raise IndexError) ∧
  (ndim P = 1%nat → (0 < ncols P)%nat → (0 <= xy_size)%Z →
     psfRZToPSFXYZ dxy xy_size rv P = Raise IndexError) ∧
  (ndim P = 2%nat → (0 < nrows P)%nat → (0 <= xy_size)%Z →
     length rv ≠ ncols P →
     psfRZToPSFXYZ dxy xy_size rv P = Raise ValueError) ∧
  (ndim P = 1%nat ∨ ndim P = 2%nat → (xy_size < 0)%Z →
     psfRZToPSFXYZ dxy xy_size rv P = Raise ValueError).
Proof.
  unfold psfRZToPSFXYZ. cbn zeta.
  destruct (pixel_radii_items dxy xy_size) as (rp & Erp & _).
  repeat split.
  - intros Hd Hxy.
    destruct (xy_size <? 0)%Z eqn:E; [apply Z.ltb_lt in E; lia|]. cbn [bind].
    rewrite Erp. cbn [bind]. by rewrite Hd.
  - intros Hd Hn Hxy.
    destruct (xy_size <? 0)%Z eqn:E; [apply Z.ltb_lt in E; lia|]. cbn [bind].
    rewrite Erp. cbn [bind]. rewrite Hd. cbn [bind].
    destruct (ncols P) as [|k]; [lia|]. apply for_range_raises.
    by rewrite decide_False by lia.
  - intros Hd Hn Hxy Hlen.
    destruct (xy_size <? 0)%Z eqn:E; [apply Z.ltb_lt in E; lia|]. cbn [bind].
    rewrite Erp. cbn [bind].
    assert (Hnz : match ndim P with
                  | 0%nat => Raise IndexError
                  | 1%nat => Ok (ncols P)
                  | _ => Ok (nrows P)
                  end = Ok (nrows P)) by (by rewrite Hd).
    rewrite Hnz. cbn [bind].
    destruct (nrows P) as [|k]; [lia|]. apply for_range_raises.
    rewrite decide_True by done. cbn [bind]. unfold interp1d.
    rewrite decide_False; [done|]. unfold row.
    by rewrite length_fmap, length_seq.
  - intros _ Hxy. apply Z.ltb_lt in Hxy. by rewrite Hxy.
Qed.

Lemma psfRZToPSFXYZ_input_checks_witness :
  psfRZToPSFXYZ 0.1 3 [0; 1] (nd0 (Val 1)) = Raise IndexError ∧
  psfRZToPSFXYZ 0.1 3 [0; 1] (np_array [1; 2]) = Raise IndexError ∧
  psfRZToPSFXYZ 0.1 3 [0; 1] (nd2 1 3 (λ _ _, Val 1)) = Raise ValueError ∧
  psfRZToPSFXYZ 0.1 (-1) [0; 1] (nd2 1 2 (λ _ _, Val 1)) = Raise ValueError.
Proof.
  split; [|split; [|split]].
  - destruct (psfRZToPSFXYZ_input_checks 0.1 3 [0; 1] (nd0 (Val 1)))
      as (H & _). apply H; [reflexivity|lia].
  - destruct (psfRZToPSFXYZ_input_checks 0.1 3 [0; 1] (np_array [1; 2]))
      as (_ & H & _). apply H; [reflexivity|cbn; lia|lia].
  - destruct (psfRZToPSFXYZ_input_checks 0.1 3 [0; 1] (nd2 1 3 (λ _ _, Val 1)))
      as (_ & _ & H & _). apply H; [reflexivity|cbn; lia|lia|cbn; lia].
  - destruct (psfRZToPSFXYZ_input_checks 0.1 (-1) [0; 1] (nd2 1 2 (λ _ _, Val 1)))
      as (_ & _ & _ & H). apply H; [by right|lia].
Defined.






(** ** The radial scans: errors and shapes *)

Lemma val_op_rows_raise op a b e :
  is_np a → bdim (nrows (to_np a)) (nrows (to_np b)) = Raise e →
  val_op op a b = Raise e.
Proof.
  intros Ha Hb. destruct a as [x|a]; [done|]. cbn [val_op to_np] in *.
  destruct b as [y|b]; cbn [to_np] in *; unfold np_zip; by rewrite Hb.
Qed.

Lemma bdim_raise n m e : bdim n m = Raise e → e = ValueError.
Proof. unfold bdim. repeat case_decide; by intros [=]. Qed.

(** The axial arguments of OPD that do not broadcast. *)
Lemma OPD_mismatch p wvl rho ti pz zd :
  p_M p ≠ 0 → wvl ≠ 0 →
  nrows rho = 1%nat →
  is_np ti → is_np pz → is_np zd →
  ncols (to_np ti) = 1%nat → ncols (to_np pz) = 1%nat → ncols (to_np zd) = 1%nat →
  (r1 <- bdim (nrows (to_np pz)) (nrows (to_np ti)) ;;
   bdim r1 (nrows (to_np zd))) = Raise ValueError →
  OPD (dict_of p) (Np rho) ti pz wvl zd = Raise ValueError.
Proof.
  intros HM Hw Hrho Kti Kpz Kzd Hti Hpz Hzd Hb.
  unfold OPD. getitems.
  rewrite !py_div_ok by done. cbn [bind].
  change (var (Np rho)) with (arr rho).
  eval_bind H1. eval_bind H2. eval_bind H3. eval_bind H4.
  destruct (evals_var_inv _ _ _ _ _ _ H1) as (K1 & _ & R1 & C1 & _).
  destruct (evals_var_inv _ _ _ _ _ _ H2) as (K2 & _ & R2 & C2 & _).
  destruct (evals_var_inv _ _ _ _ _ _ H3) as (K3 & _ & R3 & C3 & _).
  destruct (evals_var_inv _ _ _ _ _ _ H4) as (K4 & _ & R4 & C4 & _).
  destruct v as [?|a1]; [by destruct K1|]. destruct v0 as [?|a2]; [by destruct K2|].
  destruct v1 as [?|a3]; [by destruct K3|]. destruct v2 as [?|a4]; [by destruct K4|].
  cbn [to_np] in *.
  cbn [expr_op lit var bind val_op to_np]. unfold np_zip.
  cbn [nrows ncols]. rewrite R1, R2, C1, C2.
  destruct (bdim (nrows (to_np pz)) (nrows (to_np ti))) as [r1|e] eqn:E1;
    cbn [bind] in Hb |- *; [|by injection Hb as ->].
  rewrite bdim_same. cbn [expr_op var bind val_op to_np nrows ncols].
  unfold np_zip. cbn [nrows ncols]. rewrite R3, C3, bdim_1_r, bdim_same.
  cbn [expr_op var bind val_op to_np nrows ncols].
  unfold np_zip. cbn [nrows ncols]. rewrite R4, C4, Hb. reflexivity.
Qed.

Section ScanErrors.
Context {lib : NumLib}.

(** X18.  The three axial arguments of [gLZRScan] must broadcast: when the
    lengths of pz, zv and zd do not, it raises ValueError, for valid
    parameters and a wavelength that is not 0. *)
Theorem gLZRScan_axial_mismatch p pz rv zd zv normalize wvl :
  valid_params p → wvl ≠ 0 →
  (r <- bdim (length pz) (length zv) ;; bdim r (length zd)) = Raise ValueError →
  gLZRScan (dict_of p) pz rv zd zv normalize wvl = Raise ValueError.
Proof.
  intros (HNA & HM & Hzd0 & Hng0 & Hng & Hni0 & Hni & Hns) Hw Hb.
  unfold gLZRScan.
  destruct (configure_eval p wvl ltac:(lra) Hw) as (sf & -> & _).
  cbn [bind fst snd]. cbn zeta. getitems.
  assert (0 < sqrt (p_M p * p_M p + p_NA p * p_NA p)) as Hsq.
  { apply sqrt_lt_R0. nra. }
  rewrite math_sqrt_ok by nra. cbn [bind].
  rewrite !py_div_ok by (done || lra). cbn [bind].
  eval_bind Hti. eval_bind Hpz. eval_bind Hzdv.
  cbn [np_array nd1 ncols] in Hti, Hpz, Hzdv.
  destruct (evals_var_inv _ _ _ _ _ _ Hti) as (Kti & _ & Rti & Cti & _).
  destruct (evals_var_inv _ _ _ _ _ _ Hpz) as (Kpz & _ & Rpz & Cpz & _).
  destruct (evals_var_inv _ _ _ _ _ _ Hzdv) as (Kzd & _ & Rzd & Czd & _).
  rewrite OPD_mismatch; try done.
  - by apply Kti.
  - by apply Kpz.
  - by apply Kzd.
  - by rewrite Rti, Rpz, Rzd.
Qed.

(** X19.  With a wavelength of 0 the four radial scans raise
    ZeroDivisionError on every full dictionary, whatever the other
    arguments are. *)
Theorem radial_scans_zero_wavelength p normalize :
  (∀ pz rv zd zv,
     gLZRScan (dict_of p) pz rv zd zv normalize 0 = Raise ZeroDivisionError) ∧
  (∀ rv zv pz zd,
     gLZRFocalScan (dict_of p) rv zv normalize pz 0 zd = Raise ZeroDivisionError) ∧
  (∀ rv pz zd zv,
     gLZRParticleScan (dict_of p) rv pz normalize 0 zd zv = Raise ZeroDivisionError) ∧
  (∀ rv zd pz zv,
     gLZRCameraScan (dict_of p) rv zd normalize pz 0 zv = Raise ZeroDivisionError).
Proof.
  assert (H : ∀ pz rv zd zv,
    gLZRScan (dict_of p) pz rv zd zv normalize 0 = Raise ZeroDivisionError).
  { intros pz rv zd zv. unfold gLZRScan.
    destruct (configure_any p 0) as (sf & -> & _). unfold py_op at 1.
    destruct (Req_dec_T (p_NA p) 0) as [|HNA]; [done|].
    cbn [bind fst snd]. cbn zeta. getitems.
    assert (0 < p_M p * p_M p + p_NA p * p_NA p) as Hpos.
    { pose proof (Rle_0_sqr (p_M p)) as H1. unfold Rsqr in H1.
      assert (0 < p_NA p * p_NA p) by (destruct (Rtotal_order (p_NA p) 0) as [?|[?|?]]; nra).
      lra. }
    rewrite math_sqrt_ok by lra. cbn [bind].
    pose proof (sqrt_lt_R0 _ Hpos) as Hsq.
    rewrite py_div_ok by lra. cbn [bind]. unfold py_op.
    by destruct (Req_dec_T 0 0). }
  assert (Hzd : ∀ zd, ∃ z, default_zd (dict_of p) zd = Ok z).
  { intros [z|]; [by exists z|]. exists (p_zd0 p). apply getitem_zd0. }
  repeat split.
  - exact H.
  - intros rv zv pz zd. unfold gLZRFocalScan.
    destruct (Hzd zd) as (z & ->). apply H.
  - intros rv pz zd zv. unfold gLZRParticleScan.
    destruct (Hzd zd) as (z & ->). apply H.
  - intros rv zd pz zv. apply H.
Qed.

(** X20.  For valid parameters, a wavelength and a camera position that are
    not 0, the focal scan and the particle scan return a 2-d grid with one
    row per axial sample and one column per radius; with normalization the
    samples and the radii must not be empty. *)
Theorem radial_scans_shape p rv normalize wvl zd :
  valid_params p → wvl ≠ 0 → zd ≠ Some 0 →
  (∀ zv pz, (normalize = true → zv ≠ [] ∧ rv ≠ []) →
     ∃ PSF, gLZRFocalScan (dict_of p) rv zv normalize pz wvl zd = Ok PSF ∧
       ndim PSF = 2%nat ∧ nrows PSF = length zv ∧ ncols PSF = length rv) ∧
  (∀ pz zv, (normalize = true → pz ≠ [] ∧ rv ≠ []) →
     ∃ PSF, gLZRParticleScan (dict_of p) rv pz normalize wvl zd zv = Ok PSF ∧
       ndim PSF = 2%nat ∧ nrows PSF = length pz ∧ ncols PSF = length rv).
Proof.
  intros Hp Hw Hzd.
  assert (∃ z, default_zd (dict_of p) zd = Ok z ∧ z ≠ 0) as (z & Ez & Hz).
  { destruct zd as [z|]; cbn [default_zd].
    - exists z. split; [done|]. by intros ->.
    - rewrite getitem_zd0. exists (p_zd0 p). split; [done|]. apply Hp. }
  assert (Hpos : ∀ l : list R, l ≠ [] → rv ≠ [] → (0 < length l * length rv)%nat).
  { intros l Hl Hrv. destruct l; [done|]. destruct rv; [done|]. cbn. lia. }
  split.
  - intros zv pz Hn. unfold gLZRFocalScan. rewrite Ez. cbn [bind].
    apply (gLZRScan_shape p [pz] rv z zv wvl (length zv) normalize Hp Hw Hz).
    + apply bdim_1_l.
    + intros Hnorm. destruct (Hn Hnorm). by apply Hpos.
  - intros pz zv Hn. unfold gLZRParticleScan. rewrite Ez. cbn [bind].
    apply (gLZRScan_shape p pz rv z [zv] wvl (length pz) normalize Hp Hw Hz).
    + apply bdim_1_r.
    + intros Hnorm. destruct (Hn Hnorm). by apply Hpos.
Qed.

(** X26.  For valid parameters, a positive pixel size, one pixel at least,
    a wavelength and a camera position that are not 0, [gLXYZParticleScan]
    returns one xy_size by xy_size slice per particle position; with
    normalization the positions must not be empty. *)
Theorem gLXYZParticleScan_shape p dxy xy_size pz normalize wvl zd zv :
  valid_params p → 0 < dxy → (1 <= xy_size)%Z → wvl ≠ 0 → zd ≠ Some 0 →
  (normalize = true → pz ≠ []) →
  ∃ vol, gLXYZParticleScan (dict_of p) dxy xy_size pz normalize wvl zd zv = Ok vol ∧
    length vol = length pz ∧
    Forall (λ s, ndim s = 2%nat ∧ nrows s = Z.to_nat xy_size ∧
                 ncols s = Z.to_nat xy_size) vol.
Proof.
  intros Hp Hd Hxy Hw Hzd Hn. unfold gLXYZParticleScan.
  rewrite calcRv_eval by lra. cbn [bind]. unfold gLZRParticleScan.
  assert (∃ z, default_zd (dict_of p) zd = Ok z ∧ z ≠ 0) as (z & -> & Hz).
  { destruct zd as [z|]; cbn [default_zd].
    - exists z. split; [done|]. by intros ->.
    - rewrite getitem_zd0. exists (p_zd0 p). split; [done|]. apply Hp. }
  cbn [bind].
  pose proof (rv_size_pos xy_size) as Hpos.
  destruct (gLZRScan_shape p pz
              ((λ i, 0 + INR i * (dxy / 2)) <$> seq 0 (rv_size xy_size))
              z [zv] wvl (length pz) normalize Hp Hw Hz)
    as (PSF & -> & HPd & HPr & HPc).
  { apply bdim_1_r. }
  { intros Hnorm. rewrite length_fmap, length_seq.
    specialize (Hn Hnorm). destruct pz; [done|]. cbn [length]. lia. }
  cbn [bind]. rewrite length_fmap, length_seq in HPc.
  destruct (psfRZToPSFXYZ_ok dxy xy_size PSF Hd Hxy HPd HPc) as (vol & -> & Hl & Hs).
  exists vol. by rewrite Hl, HPr.
Qed.

(** X21.  A focal scan with no axial sample, or with no radius, raises
    ValueError when it normalizes (the greatest value of an empty grid),
    and returns the empty grid when it does not. *)
Theorem normalize_empty_scan p rv zv pz wvl zd :
  valid_params p → wvl ≠ 0 → zd ≠ Some 0 →
  zv = [] ∨ rv = [] →
  gLZRFocalScan (dict_of p) rv zv true pz wvl zd = Raise ValueError ∧
  ∃ PSF, gLZRFocalScan (dict_of p) rv zv false pz wvl zd = Ok PSF ∧
    nrows PSF = length zv ∧ ncols PSF = length rv.
Proof.
  intros Hp Hw Hzd Hempty. unfold gLZRFocalScan.
  assert (∃ z, default_zd (dict_of p) zd = Ok z ∧ z ≠ 0) as (z & -> & Hz).
  { destruct zd as [z|]; cbn [default_zd].
    - exists z. split; [done|]. by intros ->.
    - rewrite getitem_zd0. exists (p_zd0 p). split; [done|]. apply Hp. }
  cbn [bind]. rewrite gLZRScan_normalize.
  destruct (gLZRScan_eval p [pz] rv z zv wvl (length zv) Hp Hw Hz)
    as (C & PSF & -> & _ & Hr & Hc & _); [apply bdim_1_l|].
  cbn [bind]. split; [|by exists PSF].
  rewrite np_max_empty; [done|]. rewrite Hr, Hc.
  destruct Hempty as [-> | ->]; cbn; lia.
Qed.

End ScanErrors.

Lemma gLZRScan_axial_mismatch_witness :
  for_every_lib (λ lib,
    gLZRScan (dict_of example_params) [0; 1] [0; 0.1] [150000] [-1; 0; 1]
      true 0.6 = Raise ValueError).
Proof.
  intros lib. apply gLZRScan_axial_mismatch;
    [unfold valid_params; cbn; lra|lra|reflexivity].
Defined.

Lemma radial_scans_shape_witness :
  for_every_lib (λ lib,
    (∃ PSF, gLZRFocalScan (dict_of example_params) [0; 0.1] [-1; 0; 1] true 0
              0.6 None = Ok PSF ∧
       ndim PSF = 2%nat ∧ nrows PSF = 3%nat ∧ ncols PSF = 2%nat) ∧
    (∃ PSF, gLZRParticleScan (dict_of example_params) [0; 0.1] [0; 1] true
              0.6 None 0 = Ok PSF ∧
       ndim PSF = 2%nat ∧ nrows PSF = 2%nat ∧ ncols PSF = 2%nat)).
Proof.
  intros lib.
  destruct (radial_scans_shape example_params [0; 0.1] true 0.6 None)
    as [H1 H2]; [unfold valid_params; cbn; lra|lra|done|].
  split; [apply (H1 [-1; 0; 1] 0)|apply (H2 [0; 1] 0)]; done.
Defined.

Lemma gLXYZParticleScan_shape_witness :
  for_every_lib (λ lib,
    ∃ vol, gLXYZParticleScan (dict_of example_params) 0.1 3 [0; 1] true 0.6
             None 0 = Ok vol ∧
      length vol = length [0; 1] ∧
      Forall (λ s, ndim s = 2%nat ∧ nrows s = Z.to_nat 3 ∧
                   ncols s = Z.to_nat 3) vol).
Proof.
  intros lib.
  apply (gLXYZParticleScan_shape example_params 0.1 3 [0; 1] true 0.6 None 0);
    [unfold valid_params; cbn; lra|lra|lia|lra|done|done].
Defined.

Lemma normalize_empty_scan_witness :
  for_every_lib (λ lib,
    gLZRFocalScan (dict_of example_params) [0; 0.1] [] true 0 0.6 None
      = Raise ValueError ∧
    ∃ PSF, gLZRFocalScan (dict_of example_params) [0; 0.1] [] false 0 0.6 None
             = Ok PSF ∧
      nrows PSF = length (@nil R) ∧ ncols PSF = length [0; 0.1]).
Proof.
  intros lib.
  apply (normalize_empty_scan example_params [0; 0.1] [] 0 0.6 None);
    [unfold valid_params; cbn; lra|lra|done|by left].
Defined.

(** ** The radial scans: camera positions, and columns *)

Lemma evals_val n e d r c g :
  evals n e d r c g → ∃ v, e = Ok v ∧ evals n (var v) d r c g.
Proof. intros (v & -> & H). exists v. split; [done|]. by exists v. Qed.

(** A bind whose first computation returns. *)
Lemma bind_Ok_eq {A B} (m : result A) (k : A → result B) a :
  m = Ok a → bind m k = k a.
Proof. by intros ->. Qed.

Section ScanColumns.
Context {lib : NumLib}.

(** gLZRScan for any number of camera positions, none of them zero: the
    coefficients C of the fit do not depend on the radii; the radii and
    the camera positions must broadcast; the grid has one row per axial
    sample and one column per sample of the radial transform. *)
Lemma gLZRScan_eval_zd p pz zd zv wvl r1 r :
  valid_params p → wvl ≠ 0 → Forall (λ z, z ≠ 0) zd →
  bdim (length pz) (length zv) = Ok r1 → bdim r1 (length zd) = Ok r →
  ∃ A B C,
    lstsq A B = Ok C ∧
    ndim C = 2%nat ∧ nrows C = num_basis ∧ ncols C = r ∧ c_finite_array C ∧
    ∀ rv,
      match bdim (length rv) (length zd) with
      | Raise e =>
          ∀ normalize,
            gLZRScan (dict_of p) pz rv zd zv normalize wvl = Raise e
      | Ok rr =>
          ∃ PSF,
            gLZRScan (dict_of p) pz rv zd zv false wvl = Ok PSF ∧
            ndim PSF = 2%nat ∧ nrows PSF = r ∧ ncols PSF = rr ∧
            ∀ i j, (i < r)%nat → (j < rr)%nat →
              item PSF i j =
                psf_item
                  (λ m, radial_item (Val (engine_sf p wvl m))
                          (engine_b p wvl (nth (bidx (length zd) j) zd 0)
                             (nth (bidx (length rv) j) rv 0))
                          (min6 p / p_NA p))
                  (λ m, item C m i)
      end.
Proof.
  intros (HNA & HM & Hzd0 & Hng0 & Hng & Hni0 & Hni & Hns) Hw Hzd Hb1 Hb.
  destruct (configure_eval p wvl ltac:(lra) Hw)
    as (sf & Ecfg & Hsfd & Hsfr & Hsfc & Hsf).
  assert (0 < sqrt (p_M p * p_M p + p_NA p * p_NA p)) as Hsq.
  { apply sqrt_lt_R0. nra. }
  set (max_rho := min6 p / p_NA p) in *.
  set (rho := np_array (linspace 0.0 max_rho rho_samples)) in *.
  eassert (Hti : evals _ (expr_reshape_col (arr (np_array zv)) + p_ti0 p)%py
                   _ _ _ _) by eval_expr.
  rewrite ?Nat.max_0_l, ?Nat.max_0_r, ?Nat.max_id in Hti.
  apply evals_val in Hti as (ti & Eti & Hti).
  eassert (Hpz : evals _ (expr_reshape_col (arr (np_array pz))) _ _ _ _)
    by eval_expr.
  apply evals_val in Hpz as (pzc & Epz & Hpz).
  eassert (Hzdv : evals _ (expr_reshape_col (arr (np_array zd))) _ _ _ _)
    by eval_expr.
  apply evals_val in Hzdv as (zdc & Ezd & Hzdv).
  cbn [np_array nd1 ncols] in Hti, Hpz, Hzdv.
  destruct (evals_var_inv _ _ _ _ _ _ Hti) as (_ & Dti & Rti & Cti & Iti).
  destruct (evals_var_inv _ _ _ _ _ _ Hpz) as (_ & Dpz & Rpz & Cpz & Ipz).
  destruct (evals_var_inv _ _ _ _ _ _ Hzdv) as (Kzd & Dzd & Rzd & Czd & Izd).
  assert (Hmr : 0 <= max_rho).
  { unfold max_rho, Rdiv. apply Rmult_le_pos;
      [unfold min6; repeat apply Rmin_glb; lra
      |apply Rlt_le, Rinv_0_lt_compat; lra]. }
  assert (Hrhoc : ncols rho = rho_samples).
  { unfold rho. cbn [np_array nd1 ncols].
    by rewrite length_linspace by (unfold rho_samples; lia). }
  assert (Hrho : ∀ i j, (j < rho_samples)%nat →
            ∃ x, bitem rho i j = Val x ∧ 0 <= x <= max_rho).
  { intros i j Hj. unfold bitem. rewrite Hrhoc, (bidx_lt _ j) by done.
    eexists. split; [reflexivity|].
    apply linspace_range; [done|unfold rho_samples; lia|done]. }
  pose proof (OPD_eval p wvl rho ti pzc zdc r1 r HM Hw eq_refl Cti Cpz Czd
                ltac:(by rewrite Rpz, Rti)
                ltac:(by rewrite Rzd)) as HOPD.
  rewrite Dti, Dpz, Dzd, Hrhoc in HOPD. cbn [Nat.max rho np_array nd1 ndim] in HOPD.
  apply evals_val in HOPD as (opdt & EOPD & Hopdt).
  assert (Hsfev : evals true (var (Np sf)) 1 1 num_basis
            (λ i j, Val (engine_sf p wvl (bidx num_basis j)))).
  { apply (evals_of_array sf 1 1 num_basis (λ _ j, Val (engine_sf p wvl j))); try done.
    intros i j Hi Hj. assert (i = 0%nat) as -> by lia. by apply Hsf. }
  eassert (HJ : evals _ (np_apply j0 (expr_reshape_col (var (Np sf)) * arr rho)%py)
                  _ _ _ _) by eval_expr.
  rewrite ?Nat.max_0_l, ?Nat.max_0_r, ?Nat.max_id in HJ.
  apply evals_val in HJ as (vJ & EJ & HJ).
  destruct (evals_var_inv _ _ _ _ _ _ HJ) as (_ & DJ & RJ & CJ & _).
  destruct (evals_var_inv _ _ _ _ _ _ Hopdt) as (_ & Dop & Rop & Cop & _).
  set (A := transpose (to_np vJ)).
  set (B := transpose
              (nd_map (λ x, c_exp (c_mul (Val 0, Val 1) (c_of_real x)))
                 (to_np opdt))).
  destruct (lstsq_finite A B) as (C & EC & DC & RC & CC & FC).
  { unfold A. by rewrite transpose_2d. }
  { unfold B. by rewrite transpose_2d. }
  { unfold A, B. rewrite !transpose_2d by done. cbn [nd2 nd_map nrows ncols].
    by rewrite CJ, Cop. }
  { unfold A. rewrite transpose_2d by done.
    intros i j Hi Hj. cbn [nd2 nrows ncols item] in *. rewrite CJ in Hi. rewrite RJ in Hj.
    rewrite (evals_var_item _ _ _ _ _ _ _ _ HJ) by done.
    destruct (Hrho j i Hi) as (x & -> & _). cbn [f64_op f64_lift]. by eexists. }
  { unfold B. rewrite transpose_2d by done.
    intros i j Hi Hj. cbn [nd2 nd_map nrows ncols item] in *.
    rewrite Cop in Hi. rewrite Rop in Hj.
    rewrite (evals_var_item _ _ _ _ _ _ _ _ Hopdt) by done.
    destruct (Hrho j i Hi) as (x & -> & Hx0 & Hx1).
    assert (bidx r j < r)%nat as Hj' by (by rewrite bidx_lt).
    destruct (bidx_operand _ _ _ j Hb Hj') as (Hj1 & Hjz & _ & _).
    destruct (bidx_operand _ _ _ j Hb1 Hj1) as (Hjp & Hjv & _ & _).
    rewrite Iti, Ipz, Izd by (rewrite ?bidx_1; done || lia).
    unfold bitem at 1 2 3. cbn [np_array nd1 nrows ncols item f64_op].
    set (zdj := nth (bidx (length zd) j) zd 0).
    assert (Hzdj : zdj ≠ 0).
    { rewrite Forall_forall in Hzd. apply Hzd. unfold zdj.
      apply list_elem_of_In, nth_In. done. }
    assert (Hfin : is_finite (OPD_item p wvl (Val x)
                (Val (nth (bidx (length zv) j) zv 0 + p_ti0 p))
                (Val (nth (bidx (length pz) j) pz 0)) (Val zdj))).
    { assert (p_NA p * x <= min6 p) as Hle.
      { unfold max_rho in Hx1. apply (Rmult_le_compat_l (p_NA p)) in Hx1; [|lra].
        replace (p_NA p * (min6 p / p_NA p)) with (min6 p) in Hx1 by (field; lra).
        done. }
      assert (0 <= p_NA p * x) as Hge by (apply Rmult_le_pos; lra).
      assert (Hsq2 : ∀ n, 0 <= n → min6 p <= n → (p_NA p * x) ^ 2 <= n ^ 2).
      { intros n Hn0 Hn. clear -Hle Hge Hn0 Hn. nra. }
      destruct (min6_spec p) as [_ Hmin]. cbn zeta in Hmin.
      assert (Hm : ∀ n, n ∈ [p_NA p; p_ng0 p; p_ng p; p_ni0 p; p_ni p; p_ns p] →
                   min6 p <= n) by exact Hmin.
      apply OPD_item_finite; [exact Hw| |apply Hsq2..]; try assumption.
      - intros E. apply Rmult_integral in E as [E|E]; [|done].
        apply Rmult_integral in E as [E|E]; [lra|done].
      - apply Hm. rewrite !elem_of_cons. tauto.
      - apply Hm. rewrite !elem_of_cons. tauto.
      - apply Hm. rewrite !elem_of_cons. tauto.
      - apply Hm. rewrite !elem_of_cons. tauto.
      - apply Hm. rewrite !elem_of_cons. tauto. }
    destruct Hfin as (o & ->).
    cbn [c_of_real c_mul c_exp fst snd f64_op f64_lift].
    split; eexists; reflexivity. }
  exists A, B, C. split; [done|].
  assert (RC' : nrows C = num_basis).
  { rewrite RC. unfold A. rewrite transpose_2d by done. cbn [nd2 ncols]. done. }
  assert (CC' : ncols C = r).
  { rewrite CC. unfold B. rewrite transpose_2d by done. cbn [nd2 nd_map ncols nrows]. done. }
  do 4 (split; [done|]).
  intros rv.
  assert (Hpre : ∀ normalize,
    gLZRScan (dict_of p) pz rv zd zv normalize wvl =
      (M <- Ok (p_M p) ;;
       rv <- (arr (np_array rv) * M)%py ;;
       b <- ((2.0 * PI / wvl)%R
             * (p_NA p * p_zd0 p / sqrt (p_M p * p_M p + p_NA p * p_NA p))%R
             * expr_reshape_col rv / zdc)%py ;;
       denom <- (Np sf * Np sf - b * b)%py ;;
       Rt <- (Np sf * np_apply j1 (Np sf * max_rho)
                * np_apply j0 (b * max_rho) * max_rho
              - b * np_apply j0 (Np sf * max_rho)
                * np_apply j1 (b * max_rho) * max_rho)%py ;;
       Rt <- val_iop Div Rt denom ;;
       RC <- np_dot (to_np Rt) C ;;
       let PSF_rz := transpose (nd_map (λ z, (c_abs z * c_abs z)%f64) RC) in
       if normalize then
         m <- np_max PSF_rz ;;
         Ok (nd_map (λ x, (x / m)%f64) PSF_rz)
       else Ok PSF_rz)).
  { intros normalize. unfold gLZRScan. rewrite Ecfg.
    cbn [bind fst snd]. cbn zeta. getitems.
    rewrite math_sqrt_ok by nra. cbn [bind].
    rewrite !py_div_ok by (done || lra). cbn [bind].
    fold max_rho. fold rho.
    rewrite (bind_Ok_eq _ _ _ Eti). cbv beta.
    rewrite (bind_Ok_eq _ _ _ Epz). cbv beta.
    rewrite (bind_Ok_eq _ _ _ Ezd). cbv beta.
    rewrite (bind_Ok_eq _ _ _ EOPD). cbv beta.
    rewrite (bind_Ok_eq _ _ _ EJ). cbv beta. fold A B.
    rewrite (bind_Ok_eq _ _ _ EC). cbv beta.
    getitems. reflexivity. }
  destruct (bdim (length rv) (length zd)) as [rr|e] eqn:Hrr.
  - rewrite Hpre. cbn [bind].
    eval_bind Hrv0. eval_bind Hbb. eval_bind Hden. eval_bind HRn. eval_bind HRt.
    cbn [np_array nd1 ncols nrows] in HRt.
    destruct (evals_var_inv _ _ _ _ _ _ HRt) as (_ & DRt & RRt & CRt & _).
    unfold np_dot. rewrite decide_True by (by rewrite CRt, RC'). cbn [bind].
    eexists. split; [reflexivity|].
    cbn [transpose nd_map nd2 ndim nrows ncols item].
    do 3 (split; [done|]).
    intros i j Hi Hj. unfold psf_item. cbn zeta. rewrite CRt.
    erewrite (fmap_seq_ext _ _ 0 num_basis); [reflexivity|].
    intros l Hl. cbn beta.
    rewrite (evals_var_item _ _ _ _ _ _ j l HRt) by lia.
    rewrite (bidx_lt num_basis l) by lia.
    unfold radial_item, engine_b, engine_k, engine_a, bitem.
    cbn [np_array nd1 nrows ncols item length].
    reflexivity.
  - intros normalize. rewrite Hpre. cbn [bind].
    eval_bind Hrv0.
    lazymatch goal with
    | |- context [expr_op Div ?X (var zdc)] =>
        eassert (HX : evals _ X _ _ _ _) by eval_expr;
        apply evals_val in HX as (num & EX & HX);
        unfold expr_op at 1; rewrite EX
    end.
    destruct (evals_var_inv _ _ _ _ _ _ HX) as (KX & _ & RX & _).
    cbn [bind var].
    rewrite (val_op_rows_raise Div num zdc e); [done|by apply KX|].
    rewrite RX, Rzd. cbn [np_array nd1 ncols]. exact Hrr.
Qed.

(** The radii and the camera positions of a camera scan must broadcast. *)
Lemma gLZRCameraScan_mismatch p rv zd normalize pz wvl zv :
  valid_params p → wvl ≠ 0 → Forall (λ z, z ≠ 0) zd →
  length rv ≠ length zd → length rv ≠ 1%nat → length zd ≠ 1%nat →
  gLZRCameraScan (dict_of p) rv zd normalize pz wvl zv = Raise ValueError.
Proof.
  intros Hp Hw Hzd Hne Hrv1 Hzd1. unfold gLZRCameraScan.
  destruct (gLZRScan_eval_zd p [pz] zd [zv] wvl 1 (length zd) Hp Hw Hzd)
    as (A & B & C & _ & _ & _ & _ & _ & H); [done|apply bdim_1_l|].
  specialize (H rv). unfold bdim in H.
  rewrite !decide_False in H by done. apply H.
Qed.

(** X25.  A camera scan with several camera positions, none of them 0,
    raises ValueError unless there are as many radii as positions, or one
    radius.  So does [gLXYZCameraScan], whose radii are those of [calcRv],
    unless the number of positions is the number of these radii. *)
Theorem camera_scans_length_mismatch p zd normalize pz wvl zv :
  valid_params p → wvl ≠ 0 → Forall (λ z, z ≠ 0) zd → length zd ≠ 1%nat →
  (∀ rv, length rv ≠ length zd → length rv ≠ 1%nat →
     gLZRCameraScan (dict_of p) rv zd normalize pz wvl zv = Raise ValueError) ∧
  (∀ dxy xy_size, 0 < dxy → length zd ≠ rv_size xy_size →
     gLXYZCameraScan (dict_of p) dxy xy_size zd normalize pz wvl zv
       = Raise ValueError).
Proof.
  intros Hp Hw Hzd Hzd1. split.
  - intros rv Hne Hrv1. by apply gLZRCameraScan_mismatch.
  - intros dxy xy_size Hd Hne. unfold gLXYZCameraScan.
    rewrite calcRv_eval by lra. cbn [bind].
    pose proof (rv_size_pos xy_size) as Hpos.
    rewrite gLZRCameraScan_mismatch; try done;
      rewrite length_fmap, length_seq; (done || lia).
Qed.

(** X22.  With one camera position, the column of a radius in the grid of
    [gLZRScan] depends on this radius only: it is the column that the scan
    of this one radius gives. *)
Theorem gLZRScan_radius_by_radius p pz rv zdv zv wvl r j :
  valid_params p → wvl ≠ 0 → zdv ≠ 0 →
  bdim (length pz) (length zv) = Ok r →
  (j < length rv)%nat →
  ∃ PSF PSF1,
    gLZRScan (dict_of p) pz rv [zdv] zv false wvl = Ok PSF ∧
    gLZRScan (dict_of p) pz [nth j rv 0] [zdv] zv false wvl = Ok PSF1 ∧
    nrows PSF = r ∧ nrows PSF1 = r ∧
    ∀ i, (i < r)%nat → item PSF i j = item PSF1 i 0.
Proof.
  intros Hp Hw Hzd Hb Hj.
  destruct (gLZRScan_eval_zd p pz [zdv] zv wvl r r Hp Hw)
    as (A & B & C & _ & _ & _ & _ & _ & H);
    [by repeat constructor|done|apply bdim_1_r|].
  pose proof (H rv) as H1. pose proof (H [nth j rv 0]) as H2.
  cbn [length] in H1, H2. rewrite bdim_1_r in H1. rewrite bdim_same in H2.
  destruct H1 as (PSF & E1 & _ & R1 & _ & I1).
  destruct H2 as (PSF1 & E2 & _ & R2 & _ & I2).
  exists PSF, PSF1. do 4 (split; [done|]).
  intros i Hi. rewrite I1, I2 by (done || lia).
  rewrite (bidx_lt (length rv) j) by done. reflexivity.
Qed.

End ScanColumns.

Lemma camera_scans_length_mismatch_witness :
  for_every_lib (λ lib,
    gLZRCameraScan (dict_of example_params) [0; 0.1; 0.2] [150000; 160000]
      true 0 0.6 0 = Raise ValueError ∧
    gLXYZCameraScan (dict_of example_params) 0.1 3 [150000; 160000]
      true 0 0.6 0 = Raise ValueError).
Proof.
  intros lib.
  destruct (camera_scans_length_mismatch example_params [150000; 160000]
              true 0 0.6 0) as [H1 H2];
    [unfold valid_params; cbn; lra|lra|repeat constructor; lra|cbn; lia|].
  split.
  - apply H1; cbn; lia.
  - apply H2; [lra|]. intros E.
    pose proof (rv_size_lower 3) as H. rewrite <- E in H.
    pose proof (sqrt_lt_R0 (0.5 * 3 * 3) ltac:(lra)). cbn in H. lra.
Defined.

Lemma gLZRScan_radius_by_radius_witness :
  for_every_lib (λ lib,
    ∃ PSF PSF1,
      gLZRScan (dict_of example_params) [0] [0; 0.1; 0.2] [150000] [-1; 0]
        false 0.6 = Ok PSF ∧
      gLZRScan (dict_of example_params) [0] [nth 1 [0; 0.1; 0.2] 0] [150000]
        [-1; 0] false 0.6 = Ok PSF1 ∧
      nrows PSF = 2%nat ∧ nrows PSF1 = 2%nat ∧
      ∀ i, (i < 2)%nat → item PSF i 1 = item PSF1 i 0).
Proof.
  intros lib.
  apply (gLZRScan_radius_by_radius example_params [0] [0; 0.1; 0.2] 150000
           [-1; 0] 0.6 2 1);
    [unfold valid_params; cbn; lra|lra|lra|reflexivity|cbn; lia].
Defined.

(** ** The radial scans: unit height, and sign *)

Lemma bind_Ok_inv {A B} (m : result A) (f : A → result B) b :
  bind m f = Ok b → ∃ a, m = Ok a ∧ f a = Ok b.
Proof. destruct m as [a|]; [|done]. intros H. by exists a. Qed.

(** The greatest of finite numbers. *)
Lemma foldl_f64_max_Val l a m :
  foldl f64_max (Val a) l = Val m →
  a <= m ∧ (∀ v, v ∈ l → ∃ x, v = Val x ∧ x <= m) ∧ (m = a ∨ Val m ∈ l).
Proof.
  revert a. induction l as [|v l IH]; intros a; cbn [foldl].
  - intros [= ->]. split; [lra|]. split; [|by left].
    by intros v ?%elem_of_nil.
  - destruct v as [b|].
    + cbn [f64_max]. intros H. destruct (IH _ H) as (H1 & H2 & H3).
      pose proof (Rmax_l a b). pose proof (Rmax_r a b).
      split; [lra|]. split.
      * intros v [->|Hv]%elem_of_cons; [exists b; split; [done|lra]|by apply H2].
      * destruct H3 as [->|H3].
        -- unfold Rmax. destruct (Rle_dec a b); [right; by left; apply elem_of_cons|by left].
        -- right. apply elem_of_cons. by right.
    + cbn [f64_max]. rewrite foldl_f64_max_nan; [done|]. apply elem_of_cons. by left.
Qed.

Lemma foldl_f64_max_scale l a m c :
  0 < c → foldl f64_max (Val a) l = Val m →
  foldl f64_max (Val (a / c)) ((λ x, (x / Val c)%f64) <$> l) = Val (m / c).
Proof.
  intros Hc. revert a. induction l as [|v l IH]; intros a; cbn [foldl fmap list_fmap].
  - by intros [= ->].
  - destruct v as [b|].
    + cbn [f64_max f64_op]. destruct (Req_dec_T c 0) as [|_]; [lra|].
      cbn [f64_max]. intros H. rewrite <- (IH _ H). do 2 f_equal.
      unfold Rmax. destruct (Rle_dec a b), (Rle_dec (a / c) (b / c)); try done.
      * exfalso. apply n. unfold Rdiv. apply Rmult_le_compat_r; [|done].
        apply Rlt_le, Rinv_0_lt_compat. lra.
      * exfalso. apply n. apply (Rmult_le_reg_r (/ c)); [by apply Rinv_0_lt_compat|done].
    + cbn [f64_max]. rewrite foldl_f64_max_nan; [done|]. apply elem_of_cons. by left.
Qed.

Lemma ravel_nd_map {A B} (f : A → B) (a : ndarray A) :
  ravel (nd_map f a) = f <$> ravel a.
Proof.
  unfold ravel, row. cbn [nd_map nrows ncols item].
  induction (seq 0 (nrows a)) as [|i l IH]; [done|].
  cbn [fmap list_fmap concat]. rewrite fmap_app, IH. f_equal.
  by rewrite <- list_fmap_compose.
Qed.

Lemma c_abs_sq_nonneg z :
  (c_abs z * c_abs z)%f64 = NaNInf ∨ ∃ x, (c_abs z * c_abs z)%f64 = Val x ∧ 0 <= x.
Proof.
  unfold c_abs. destruct (z.1 * z.1 + z.2 * z.2)%f64 as [q|]; [|by left].
  unfold f64_sqrt. destruct (Rlt_dec q 0); [by left|]. right.
  eexists. split; [reflexivity|]. pose proof (sqrt_pos q). nra.
Qed.

(** The division of a grid by its greatest value, when this is a number
    that is not 0 and no value is negative: unit height. *)
Lemma normalize_unit_height g m :
  np_max g = Ok (Val m) → m ≠ 0 →
  (∀ i j, item g i j = NaNInf ∨ ∃ x, item g i j = Val x ∧ 0 <= x) →
  let g' := nd_map (λ x, (x / Val m)%f64) g in
  (∀ i j, (i < nrows g)%nat → (j < ncols g)%nat →
     ∃ x, item g i j = Val x ∧ item g' i j = Val (x / m) ∧ 0 <= x / m <= 1) ∧
  np_max g' = Ok (Val 1).
Proof.
  intros Hmax Hm Hpos g'. unfold np_max in Hmax.
  destruct (ravel g) as [|x0 l] eqn:Er; [done|]. injection Hmax as Hmax.
  destruct x0 as [a|]; [|by rewrite foldl_f64_max_nan in Hmax by (apply elem_of_cons; by left)].
  destruct (foldl_f64_max_Val _ _ _ Hmax) as (Ha & Hl & Hat).
  assert (Hin : ∀ v, v ∈ ravel g → ∃ x, v = Val x ∧ 0 <= x <= m).
  { intros v Hv. pose proof Hv as Hv'.
    apply elem_of_ravel in Hv' as (i & j & _ & _ & ->).
    rewrite Er in Hv. apply elem_of_cons in Hv as [Hv|Hv].
    - exists a. split; [done|]. destruct (Hpos i j) as [E|(x & E & Hx)];
        rewrite E in Hv; [done|]. injection Hv as <-. lra.
    - destruct (Hl _ Hv) as (x & E & Hx). exists x. split; [done|].
      destruct (Hpos i j) as [E'|(x' & E' & Hx')]; rewrite E' in E; [done|].
      injection E as <-. lra. }
  assert (Hm0 : 0 < m).
  { assert (Val m ∈ ravel g) as Hmin.
    { rewrite Er. destruct Hat as [->|Hat]; apply elem_of_cons; [by left|by right]. }
    destruct (Hin _ Hmin) as (x & [= <-] & Hx). lra. }
  split.
  - intros i j Hi Hj.
    destruct (Hin _ (item_in_ravel g i j Hi Hj)) as (x & E & Hx0 & Hx1).
    exists x. split; [done|]. unfold g'. cbn [nd_map item]. rewrite E.
    cbn [f64_op]. destruct (Req_dec_T m 0) as [|_]; [done|]. split; [done|].
    split.
    + apply Rmult_le_pos; [done|]. apply Rlt_le, Rinv_0_lt_compat. lra.
    + apply (Rmult_le_reg_r m); [done|]. unfold Rdiv.
      rewrite Rmult_assoc, Rinv_l by done. lra.
  - unfold np_max, g'. rewrite ravel_nd_map, Er. cbn [fmap list_fmap f64_op].
    destruct (Req_dec_T m 0) as [|_]; [done|].
    rewrite (foldl_f64_max_scale l a m m Hm0 Hmax). do 2 f_equal. by field.
Qed.

Section UnitHeight.
Context {lib : NumLib}.

(** No intensity that gLZRScan computes is negative. *)
Lemma gLZRScan_nonneg mp pz rv zd zv wvl g :
  gLZRScan mp pz rv zd zv false wvl = Ok g →
  ∀ i j, item g i j = NaNInf ∨ ∃ x, item g i j = Val x ∧ 0 <= x.
Proof.
  intros H. unfold gLZRScan in H.
  repeat (apply bind_Ok_inv in H as (? & _ & H); cbn zeta in H).
  injection H as <-. intros i j. unfold transpose.
  destruct (ndim _) as [|[|[|?]]]; cbn [nd_map nd2 item]; apply c_abs_sq_nonneg.
Qed.

(** X23.  Normalization gives unit height: when the grid that [gLZRScan]
    returns without normalization has a greatest value that is a number and
    is not 0, the normalized scan returns the grid of the same shape with
    every item divided by it; the items lie between 0 and 1 and the
    greatest is 1. *)
Theorem gLZRScan_unit_height mp pz rv zd zv wvl g m :
  gLZRScan mp pz rv zd zv false wvl = Ok g →
  np_max g = Ok (Val m) → m ≠ 0 →
  ∃ g', gLZRScan mp pz rv zd zv true wvl = Ok g' ∧
    ndim g' = ndim g ∧ nrows g' = nrows g ∧ ncols g' = ncols g ∧
    (∀ i j, (i < nrows g)%nat → (j < ncols g)%nat →
       ∃ x, item g i j = Val x ∧ item g' i j = Val (x / m) ∧ 0 <= x / m <= 1) ∧
    np_max g' = Ok (Val 1).
Proof.
  intros Hg Hmax Hm.
  rewrite gLZRScan_normalize, Hg. cbn [bind]. rewrite Hmax. cbn [bind].
  eexists. split; [reflexivity|]. do 3 (split; [done|]).
  apply normalize_unit_height; [done|done|]. by eapply gLZRScan_nonneg.
Qed.

End UnitHeight.

Lemma foldl_c_add_zeros l a b :
  Forall (λ z, z = c_zero) l → 
  ∃ a' b', foldl c_add (Val a, Val b) l = (Val a', Val b') ∧ a' = a ∧ b' = b.
Proof.
  intros H. revert a b. induction H as [|x l -> _ IH]; intros a b.
  - by exists a, b.
  - cbn [foldl]. unfold c_add at 2, c_zero. cbn [fst snd f64_op].
    destruct (IH (a + 0) (b + 0)) as (a' & b' & E & -> & ->).
    exists (a + 0), (b + 0). split; [done|]. split; lra.
Qed.

(** With the second library, on the axis, the example objective gives an
    intensity that is a number and is not 0. *)
Lemma unit_lib_example :
  ∃ g m,
    @gLZRScan unit_lib (dict_of example_params) [0] [0] [150000] [0] false 0.6
      = Ok g ∧
    np_max g = Ok (Val m) ∧ m ≠ 0.
Proof.
  assert (Hp : valid_params example_params) by (unfold valid_params; cbn; lra).
  destruct (@gLZRScan_eval_zd unit_lib example_params [0] [150000] [0] 0.6 1 1 Hp)
    as (A & B & C & EC & _ & RC & CC & _ & H);
    [lra|repeat constructor; lra|reflexivity|reflexivity|].
  specialize (H [0]). cbn [length] in H. rewrite bdim_same in H.
  destruct H as (g & Eg & _ & Rg & Cg & Ig).
  exists g. specialize (Ig 0%nat 0%nat ltac:(lia) ltac:(lia)).
  rewrite (np_max_single g Rg Cg), Ig.
  cbn in EC. unfold first_row_lstsq in EC. injection EC as <-.
  cbn [nd2 item nrows ncols] in *.
  set (mr := min6 example_params / p_NA example_params).
  assert (Hmr : mr ≠ 0).
  { unfold mr, min6. cbn [example_params p_NA p_ng0 p_ng p_ni0 p_ni p_ns].
    unfold Rmin. repeat destruct (Rle_dec _ _); try lra;
      apply Rmult_integral_contrapositive; split; try lra;
      apply Rinv_neq_0_compat; lra. }
  change (nth (bidx 1 0) [150000] 0) with 150000.
  change (nth (bidx 1 0) [0] 0) with 0.
  assert (HR : ∀ l, ∃ ρ,
    @radial_item unit_lib (Val (engine_sf example_params 0.6 l))
      (engine_b example_params 0.6 150000 0) mr = Val ρ ∧ ρ ≠ 0).
  { intros l. pose proof (engine_sf_pos example_params 0.6 l Hp ltac:(lra)) as Hsf.
    set (sf := engine_sf example_params 0.6 l) in *.
    rewrite engine_b_val by lra.
    set (bv := engine_b_real example_params 0.6 150000 0).
    assert (bv = 0) as Hbv by (unfold bv, engine_b_real, Rdiv; ring).
    unfold radial_item. cbn [f64_op f64_lift j0 j1 unit_lib].
    destruct (Req_dec_T (sf * sf - bv * bv) 0) as [E|_]; [rewrite Hbv in E; nra|].
    eexists. split; [reflexivity|]. rewrite Hbv.
    replace (sf * 1 * 1 * mr - 0 * 1 * 1 * mr) with (sf * mr) by ring.
    replace (sf * sf - 0 * 0) with (sf * sf) by ring.
    apply Rmult_integral_contrapositive. split.
    - apply Rmult_integral_contrapositive. split; lra.
    - apply Rinv_neq_0_compat. nra. }
  unfold psf_item. cbn zeta. unfold num_basis.
  change (seq 0 100) with (0%nat :: seq 1 99). cbn [fmap list_fmap foldl].
  destruct (HR 0%nat) as (ρ0 & -> & Hρ0).
  lazymatch goal with |- context [c_abs ?z] => set (zz := z) end.
  assert (Hz : ∃ a' b', zz = (Val a', Val b') ∧ a' = ρ0 ∧ b' = 0).
  { unfold zz. rewrite decide_True by done.
    change (c_add (Val 0, Val 0) (c_mul (c_of_real (Val ρ0)) (Val 1, Val 0)))
      with (Val (0 + (ρ0 * 1 - 0 * 0)), Val (0 + (ρ0 * 0 + 0 * 1))).
    lazymatch goal with
    | |- context [foldl c_add (Val ?a, Val ?b) ?l] =>
        destruct (foldl_c_add_zeros l a b) as (a' & b' & -> & Ha & Hb)
    end.
    { apply Forall_fmap, Forall_forall. intros l Hl%elem_of_seq. unfold compose. cbn beta.
      destruct (HR l) as (ρ & -> & _). rewrite decide_False by lia.
      unfold c_mul, c_of_real, c_zero. cbn [fst snd f64_op]. f_equal; f_equal; lra. }
    exists a', b'. split; [done|]. split; lra. }
  destruct Hz as (a' & b' & -> & -> & ->).
  unfold c_abs. cbn [fst snd f64_op f64_sqrt].
  assert (0 < ρ0 * ρ0 + 0 * 0) as Hq by nra.
  destruct (Rlt_dec (ρ0 * ρ0 + 0 * 0) 0) as [|_]; [lra|]. cbn [f64_op].
  eexists. split; [done|]. split; [reflexivity|].
  pose proof (sqrt_lt_R0 _ Hq). nra.
Qed.

Lemma gLZRScan_unit_height_witness :
  ∃ g m g',
    @gLZRScan unit_lib (dict_of example_params) [0] [0] [150000] [0] false 0.6
      = Ok g ∧
    np_max g = Ok (Val m) ∧ m ≠ 0 ∧
    @gLZRScan unit_lib (dict_of example_params) [0] [0] [150000] [0] true 0.6
      = Ok g' ∧
    ndim g' = ndim g ∧ nrows g' = nrows g ∧ ncols g' = ncols g ∧
    (∀ i j, (i < nrows g)%nat → (j < ncols g)%nat →
       ∃ x, item g i j = Val x ∧ item g' i j = Val (x / m) ∧ 0 <= x / m <= 1) ∧
    np_max g' = Ok (Val 1).
Proof.
  destruct unit_lib_example as (g & m & Eg & Hmax & Hm).
  destruct (@gLZRScan_unit_height unit_lib _ _ _ _ _ _ g m Eg Hmax Hm)
    as (g' & H).
  exists g, m, g'. by repeat (split; [done|]).
Defined.

(** ** The scans by integration *)

(** The division by the greatest value keeps the sign. *)
Lemma normalize_nonneg g m :
  np_max g = Ok m →
  (∀ i j, item g i j = NaNInf ∨ ∃ x, item g i j = Val x ∧ 0 <= x) →
  ∀ i j, item (nd_map (λ x, (x / m)%f64) g) i j = NaNInf ∨
         ∃ x, item (nd_map (λ x, (x / m)%f64) g) i j = Val x ∧ 0 <= x.
Proof.
  intros Hmax Hpos i j. cbn [nd_map item].
  destruct m as [mv|]; [|left; apply f64_div_nan].
  destruct (Hpos i j) as [->|(x & -> & Hx)]; [by left|].
  cbn [f64_op]. destruct (Req_dec_T mv 0) as [|Hm]; [by left|]. right.
  eexists. split; [reflexivity|].
  unfold np_max in Hmax. destruct (ravel g) as [|x0 l] eqn:Er; [done|].
  injection Hmax as Hmax.
  destruct x0 as [a|];
    [|by rewrite foldl_f64_max_nan in Hmax by (apply elem_of_cons; by left)].
  destruct (foldl_f64_max_Val _ _ _ Hmax) as (Ha & Hl & Hat).
  assert (Val mv ∈ ravel g) as Hmin.
  { rewrite Er. destruct Hat as [->|Hat]; apply elem_of_cons; [by left|by right]. }
  apply elem_of_ravel in Hmin as (i' & j' & _ & _ & E).
  destruct (Hpos i' j') as [E'|(y & E' & Hy)]; rewrite E' in E; [done|].
  injection E as ->.
  apply Rmult_le_pos; [done|]. apply Rlt_le, Rinv_0_lt_compat. lra.
Qed.

Lemma quad_total `{NumLib} (f : R → result float64) a b :
  (∀ x, ∃ y, f x = Ok y) → ∃ v, quad f a b = Ok v.
Proof.
  intros Hf. unfold quad. generalize (@nil (R * float64)).
  induction quad_limit as [|n IH]; intros seen; cbn [quad_loop].
  - by eexists.
  - destruct (quad_next a b seen) as [x|est]; [|by eexists].
    destruct (Hf x) as (y & ->). cbn [bind]. apply IH.
Qed.

Lemma quad_raises_only `{NumLib} (f : R → result float64) a b e :
  (∀ x, f x = Raise e) → quad f a b = Raise e ∨ ∃ v, quad f a b = Ok v.
Proof.
  intros Hf. unfold quad. generalize (@nil (R * float64)).
  destruct quad_limit as [|n]; intros seen; cbn [quad_loop].
  - right. by eexists.
  - destruct (quad_next a b seen) as [x|est]; [|right; by eexists].
    rewrite Hf. by left.
Qed.

(** OPD of Python floats: the division of the defocus term is Python's. *)
Lemma OPD_scalar p rho ti pz wvl zd :
  p_M p ≠ 0 → wvl ≠ 0 → p_zd0 p ≠ 0 → zd ≠ 0 →
  ∃ v, OPD (dict_of p) (PyFloat rho) (PyFloat ti) (PyFloat pz) wvl (PyFloat zd)
         = Ok v.
Proof.
  intros HM Hw Hzd0 Hzd. unfold OPD. getitems.
  rewrite !py_div_ok by done. cbn [bind].
  cbn [expr_op lit var bind val_op py_op np_sqrt to_np].
  destruct (Req_dec_T (2.0 * p_zd0 p * zd) 0) as [E|_].
  { exfalso. assert (p_zd0 p * zd = 0) as H0 by lra.
    destruct (Rmult_integral _ _ H0); done. }
  cbn [bind val_op to_np]. unfold np_zip.
  cbn [nd0 nd_map nrows ncols bdim bind]. by eexists.
Qed.

Section SlowScans.
Context {lib : NumLib}.

(** X24.  No intensity that [gLZRScan] returns is negative: an item of the
    grid is a number that is not negative, or it is not a number. *)
Theorem gLZRScan_never_negative mp pz rv zd zv normalize wvl g :
  gLZRScan mp pz rv zd zv normalize wvl = Ok g →
  ∀ i j, item g i j = NaNInf ∨ ∃ x, item g i j = Val x ∧ 0 <= x.
Proof.
  destruct normalize; [|apply gLZRScan_nonneg].
  rewrite gLZRScan_normalize. intros H.
  apply bind_Ok_inv in H as (g0 & Hg0 & H).
  apply bind_Ok_inv in H as (m & Hm & H). injection H as <-.
  apply normalize_nonneg; [done|]. by eapply gLZRScan_nonneg.
Qed.

Lemma slowGL_t3_total p k a rv ti pz wvl zd rho :
  p_M p ≠ 0 → wvl ≠ 0 → p_zd0 p ≠ 0 → zd ≠ 0 →
  ∃ t, slowGL_t3 (dict_of p) k a rv ti pz wvl zd rho = Ok t.
Proof.
  intros HM Hw Hzd0 Hzd. unfold slowGL_t3. rewrite py_div_ok by done.
  cbn [bind]. destruct (OPD_scalar p rho ti pz wvl zd HM Hw Hzd0 Hzd) as (v & ->).
  cbn [bind]. by eexists.
Qed.

(** slowGL returns, and what it returns is not negative. *)
Lemma slowGL_returns p max_rho rv zv pz wvl zd :
  valid_params p → wvl ≠ 0 → zd ≠ 0 →
  ∃ v, slowGL (dict_of p) max_rho rv zv pz wvl zd = Ok v ∧
    (0 < wvl → v = NaNInf ∨ ∃ x, v = Val x ∧ 0 <= x).
Proof.
  intros (HNA & HM & Hzd0 & _) Hw Hzd. unfold slowGL. getitems.
  assert (0 < sqrt (p_M p * p_M p + p_NA p * p_NA p)) as Hsq.
  { apply sqrt_lt_R0. nra. }
  rewrite math_sqrt_ok by nra. cbn [bind].
  rewrite !py_div_ok by (done || lra). cbn [bind]. getitems. cbn zeta.
  lazymatch goal with
  | |- context [quad ?f 0.0 max_rho] =>
      destruct (quad_total f 0.0 max_rho) as (vi & ->)
  end.
  { intros x. lazymatch goal with
    | |- context [slowGL_t3 ?mp ?k ?a ?rv ?ti ?pz ?wvl ?zd x] =>
        destruct (slowGL_t3_total p k a rv ti pz wvl zd x) as (t & ->)
    end; try done. by eexists. }
  cbn [bind].
  lazymatch goal with
  | |- context [quad ?f 0.0 max_rho] =>
      destruct (quad_total f 0.0 max_rho) as (vr & ->)
  end.
  { intros x. lazymatch goal with
    | |- context [slowGL_t3 ?mp ?k ?a ?rv ?ti ?pz ?wvl ?zd x] =>
        destruct (slowGL_t3_total p k a rv ti pz wvl zd x) as (t & ->)
    end; try done. by eexists. }
  cbn [bind]. rewrite py_div_ok by (apply Rmult_integral_contrapositive; done).
  cbn [bind]. eexists. split; [reflexivity|].
  intros Hw0. destruct vr as [xr|], vi as [xi|]; try by left.
  right. cbn [f64_op]. eexists. split; [reflexivity|].
  set (a := p_NA p * p_zd0 p / sqrt (p_M p * p_M p + p_NA p * p_NA p)).
  assert (0 < 2.0 * PI / wvl) as Hk.
  { apply Rdiv_lt_0_compat; [|done]. pose proof PI_RGT_0. lra. }
  assert (0 < / (zd * zd)) as Hz.
  { apply Rinv_0_lt_compat. destruct (Rtotal_order zd 0) as [?|[?|?]]; [nra|done|nra]. }
  set (k := 2.0 * PI / wvl) in *. unfold Rdiv at 1.
  generalize dependent (/ (zd * zd)). intros q Hq.
  pose proof (Rle_0_sqr a) as Ha. pose proof (Rle_0_sqr xr) as Hr.
  pose proof (Rle_0_sqr xi) as Hi. unfold Rsqr in *.
  apply Rmult_le_pos; [|lra].
  apply Rmult_le_pos; [|lra].
  rewrite Rmult_assoc. apply Rmult_le_pos; lra.
Qed.

(** X27.  [slowGL] raises ZeroDivisionError when the wavelength or the
    camera position is 0, on every full dictionary. *)
Theorem slowGL_zero_division p max_rho rv zv pz wvl zd :
  wvl = 0 ∨ zd = 0 →
  slowGL (dict_of p) max_rho rv zv pz wvl zd = Raise ZeroDivisionError.
Proof.
  intros H0. unfold slowGL. getitems.
  assert (0 <= p_M p * p_M p + p_NA p * p_NA p) as Hpos.
  { pose proof (Rle_0_sqr (p_M p)) as H1. pose proof (Rle_0_sqr (p_NA p)) as H2.
    unfold Rsqr in *. lra. }
  rewrite math_sqrt_ok by done. cbn [bind]. unfold py_op at 1.
  destruct (Req_dec_T _ 0) as [|_]; [done|]. cbn [bind]. unfold py_op at 1.
  destruct (Req_dec_T wvl 0) as [|Hw]; [done|]. cbn [bind].
  destruct H0 as [?| ->]; [done|]. getitems. cbn zeta.
  assert (Ht3 : ∀ k a rv ti rho,
            slowGL_t3 (dict_of p) k a rv ti pz wvl 0 rho = Raise ZeroDivisionError).
  { intros. unfold slowGL_t3, py_op. by destruct (Req_dec_T 0 0). }
  lazymatch goal with
  | |- context [quad ?f 0.0 max_rho] =>
      destruct (quad_raises_only f 0.0 max_rho ZeroDivisionError) as [->|(vi & ->)]
  end; [intros x; by rewrite Ht3|done|].
  cbn [bind].
  lazymatch goal with
  | |- context [quad ?f 0.0 max_rho] =>
      destruct (quad_raises_only f 0.0 max_rho ZeroDivisionError) as [->|(vr & ->)]
  end; [intros x; by rewrite Ht3|done|].
  cbn [bind]. unfold py_op. destruct (Req_dec_T (0 * 0) 0) as [|Hn]; [done|].
  exfalso. apply Hn. ring.
Qed.

(** X28.  For valid parameters, a positive wavelength and a camera
    position that is not 0, [slowGL] returns, and the intensity it returns
    is not negative (or is not a number). *)
Theorem slowGL_returns_nonnegative p max_rho rv zv pz wvl zd :
  valid_params p → 0 < wvl → zd ≠ 0 →
  ∃ v, slowGL (dict_of p) max_rho rv zv pz wvl zd = Ok v ∧
    (v = NaNInf ∨ ∃ x, v = Val x ∧ 0 <= x).
Proof.
  intros Hp Hw Hzd.
  destruct (slowGL_returns p max_rho rv zv pz wvl zd Hp ltac:(lra) Hzd)
    as (v & E & H).
  exists v. split; [done|]. by apply H.
Qed.

Lemma slow_grid_shape n_z n_r f normalize :
  (∀ i j, ∃ v, f i j = Ok v) →
  (normalize = true → (0 < n_z * n_r)%nat) →
  ∃ PSF,
    (psf_rz <- slow_grid n_z n_r f ;;
     if normalize then
       m <- np_max psf_rz ;;
       Ok (nd_map (λ x, (x / m)%f64) psf_rz)
     else Ok psf_rz) = Ok PSF ∧
    ndim PSF = 2%nat ∧ nrows PSF = n_z ∧ ncols PSF = n_r.
Proof.
  intros Hf Hn. unfold slow_grid.
  destruct (for_range_ok (λ i, for_range (λ j, f i j) 0 n_r) (λ _, True) 0 n_z)
    as (rows & -> & _).
  { intros i _.
    destruct (for_range_ok (λ j, f i j) (λ _, True) 0 n_r) as (l & -> & _).
    - intros j _. destruct (Hf i j) as (v & ->). by exists v.
    - by eexists. }
  cbn [bind]. destruct normalize; [|by eexists].
  lazymatch goal with
  | |- context [np_max ?g] =>
      destruct (np_max_nonempty g) as (m & ->); [by apply Hn|]
  end.
  cbn [bind]. by eexists.
Qed.

(** X29.  For valid parameters, a wavelength and a camera position that are
    not 0, the two scans by integration return a 2-d grid with one row per
    axial sample and one column per radius; with normalization the samples
    and the radii must not be empty. *)
Theorem slow_scans_shape p rv normalize wvl zd :
  valid_params p → wvl ≠ 0 → zd ≠ Some 0 →
  (∀ zv pz, (normalize = true → zv ≠ [] ∧ rv ≠ []) →
     ∃ PSF, gLZRFocalScanSlow (dict_of p) rv zv normalize pz wvl zd = Ok PSF ∧
       ndim PSF = 2%nat ∧ nrows PSF = length zv ∧ ncols PSF = length rv) ∧
  (∀ pz zv, (normalize = true → pz ≠ [] ∧ rv ≠ []) →
     ∃ PSF, gLZRParticleScanSlow (dict_of p) rv pz normalize wvl zd zv = Ok PSF ∧
       ndim PSF = 2%nat ∧ nrows PSF = length pz ∧ ncols PSF = length rv).
Proof.
  intros Hp Hw Hzd.
  assert (∃ z, default_zd (dict_of p) zd = Ok z ∧ z ≠ 0) as (z & Ez & Hz).
  { destruct zd as [z|]; cbn [default_zd].
    - exists z. split; [done|]. by intros ->.
    - rewrite getitem_zd0. exists (p_zd0 p). split; [done|]. apply Hp. }
  assert (Hpos : ∀ l : list R, l ≠ [] → rv ≠ [] → (0 < length l * length rv)%nat).
  { intros l Hl Hrv. destruct l; [done|]. destruct rv; [done|]. cbn. lia. }
  destruct (configure_eval p wvl) as (sf & Ecfg & _); [destruct Hp; lra|done|].
  split.
  - intros zv pz Hn. unfold gLZRFocalScanSlow. rewrite Ez. cbn [bind].
    rewrite Ecfg. cbn [bind snd]. cbn zeta.
    apply slow_grid_shape.
    + intros i j.
      destruct (slowGL_returns p (min6 p / p_NA p) (nth j rv 0) (nth i zv 0)
                  pz wvl z Hp Hw Hz) as (v & E & _). by exists v.
    + intros Hnorm. destruct (Hn Hnorm). by apply Hpos.
  - intros pz zv Hn. unfold gLZRParticleScanSlow. rewrite Ez. cbn [bind].
    rewrite Ecfg. cbn [bind snd]. cbn zeta.
    apply slow_grid_shape.
    + intros i j.
      destruct (slowGL_returns p (min6 p / p_NA p) (nth j rv 0) zv (nth i pz 0)
                  wvl z Hp Hw Hz) as (v & E & _). by exists v.
    + intros Hnorm. destruct (Hn Hnorm). by apply Hpos.
Qed.

End SlowScans.

Lemma gLZRScan_never_negative_witness :
  for_every_lib (λ lib,
    ∃ g, gLZRScan (dict_of example_params) [0] [0; 0.1] [150000] [-1; 0; 1]
           true 0.6 = Ok g ∧
      ∀ i j, item g i j = NaNInf ∨ ∃ x, item g i j = Val x ∧ 0 <= x).
Proof.
  intros lib.
  destruct (gLZRScan_shape example_params [0] [0; 0.1] 150000 [-1; 0; 1] 0.6 3 true)
    as (g & E & _);
    [unfold valid_params; cbn; lra|lra|lra|reflexivity|cbn; lia|].
  exists g. split; [exact E|]. exact (gLZRScan_never_negative _ _ _ _ _ _ _ g E).
Defined.

Lemma slowGL_zero_division_witness :
  for_every_lib (λ lib,
    slowGL (dict_of example_params) 0.95 0.1 0 0 0.6 0 = Raise ZeroDivisionError).
Proof. intros lib. apply slowGL_zero_division. by right. Defined.

Lemma slowGL_returns_nonnegative_witness :
  for_every_lib (λ lib,
    ∃ v, slowGL (dict_of example_params) 0.95 0.1 0 0 0.6 150000 = Ok v ∧
      (v = NaNInf ∨ ∃ x, v = Val x ∧ 0 <= x)).
Proof.
  intros lib. apply slowGL_returns_nonnegative;
    [unfold valid_params; cbn; lra|lra|lra].
Defined.

Lemma slow_scans_shape_witness :
  for_every_lib (λ lib,
    (∃ PSF, gLZRFocalScanSlow (dict_of example_params) [0; 0.1] [-1; 0; 1] true 0
              0.6 None = Ok PSF ∧
       ndim PSF = 2%nat ∧ nrows PSF = 3%nat ∧ ncols PSF = 2%nat) ∧
    (∃ PSF, gLZRParticleScanSlow (dict_of example_params) [0; 0.1] [0; 1] true
              0.6 None 0 = Ok PSF ∧
       ndim PSF = 2%nat ∧ nrows PSF = 2%nat ∧ ncols PSF = 2%nat)).
Proof.
  intros lib.
  destruct (slow_scans_shape example_params [0; 0.1] true 0.6 None)
    as [H1 H2]; [unfold valid_params; cbn; lra|lra|done|].
  split; [apply (H1 [-1; 0; 1] 0)|apply (H2 [0; 1] 0)]; done.
Defined.

Lemma py_div_inv x y z : py_op Div x y = Ok z → y ≠ 0 ∧ z = x / y.
Proof. unfold py_op. destruct (Req_dec_T y 0); [done|]. by intros [= <-]. Qed.

Section SlowUnitHeight.
Context {lib : NumLib}.

(** For a positive wavelength no value that slowGL returns is negative. *)
Lemma slowGL_nonneg mp max_rho rv zv pz wvl zd v :
  0 < wvl → slowGL mp max_rho rv zv pz wvl zd = Ok v →
  v = NaNInf ∨ ∃ x, v = Val x ∧ 0 <= x.
Proof.
  intros Hw H. unfold slowGL in H.
  apply bind_Ok_inv in H as (NA & _ & H).
  apply bind_Ok_inv in H as (zd0 & _ & H).
  apply bind_Ok_inv in H as (M & _ & H).
  apply bind_Ok_inv in H as (s & _ & H).
  apply bind_Ok_inv in H as (a & _ & H).
  apply bind_Ok_inv in H as (k & Hk & H).
  apply bind_Ok_inv in H as (ti0 & _ & H).
  apply bind_Ok_inv in H as (M' & _ & H). cbn zeta in H.
  apply bind_Ok_inv in H as (vi & _ & H).
  apply bind_Ok_inv in H as (vr & _ & H).
  apply bind_Ok_inv in H as (t1 & Ht1 & H). injection H as <-.
  apply py_div_inv in Hk as [_ ->]. apply py_div_inv in Ht1 as [Hzz ->].
  destruct vr as [xr|], vi as [xi|]; try by left.
  right. cbn [f64_op]. eexists. split; [reflexivity|].
  assert (0 < 2.0 * PI / wvl) as Hk.
  { apply Rdiv_lt_0_compat; [|done]. pose proof PI_RGT_0. lra. }
  assert (0 < / (zd * zd)) as Hz.
  { apply Rinv_0_lt_compat. destruct (Rtotal_order zd 0) as [?|[?|?]]; [nra| |nra].
    subst. exfalso. apply Hzz. ring. }
  set (k := 2.0 * PI / wvl) in *. unfold Rdiv at 1.
  generalize dependent (/ (zd * zd)). intros q Hq.
  pose proof (Rle_0_sqr a) as Ha. pose proof (Rle_0_sqr xr) as Hr.
  pose proof (Rle_0_sqr xi) as Hi. unfold Rsqr in *.
  apply Rmult_le_pos; [|lra].
  apply Rmult_le_pos; [|lra].
  rewrite Rmult_assoc. apply Rmult_le_pos; lra.
Qed.

Lemma slow_grid_items n_z n_r f g (Q : float64 → Prop) :
  slow_grid n_z n_r f = Ok g → Q NaNInf →
  (∀ i j v, f i j = Ok v → Q v) →
  ∀ i j, Q (item g i j).
Proof.
  intros H HQ Hf. unfold slow_grid in H.
  apply bind_Ok_inv in H as (rows & Hrows & H). injection H as <-.
  intros i j. cbn [nd2 item]. rewrite (nth_lookup rows).
  destruct (rows !! i) as [rw|] eqn:Ei; cbn [default]; [|by destruct j].
  pose proof (for_range_lookup _ _ _ _ _ _ Hrows Ei) as Hrow. cbn [Nat.add] in Hrow.
  rewrite (nth_lookup rw).
  destruct (rw !! j) as [v|] eqn:Ej; cbn [default]; [|done].
  pose proof (for_range_lookup _ _ _ _ _ _ Hrow Ej) as Hv. by eapply Hf.
Qed.

(** X30.  Normalization gives unit height in the focal scan by integration
    too: for a positive wavelength, when the grid without normalization has
    a greatest value that is a number and is not 0, the normalized grid is
    this grid divided by it, with items between 0 and 1 and the greatest
    equal to 1. *)
Theorem gLZRFocalScanSlow_unit_height mp rv zv pz wvl zd g m :
  0 < wvl →
  gLZRFocalScanSlow mp rv zv false pz wvl zd = Ok g →
  np_max g = Ok (Val m) → m ≠ 0 →
  ∃ g', gLZRFocalScanSlow mp rv zv true pz wvl zd = Ok g' ∧
    ndim g' = ndim g ∧ nrows g' = nrows g ∧ ncols g' = ncols g ∧
    (∀ i j, (i < nrows g)%nat → (j < ncols g)%nat →
       ∃ x, item g i j = Val x ∧ item g' i j = Val (x / m) ∧ 0 <= x / m <= 1) ∧
    np_max g' = Ok (Val 1).
Proof.
  intros Hw Hg Hmax Hm.
  rewrite gLZRFocalScanSlow_normalize, Hg. cbn [bind]. rewrite Hmax. cbn [bind].
  eexists. split; [reflexivity|]. do 3 (split; [done|]).
  apply normalize_unit_height; [done|done|].
  unfold gLZRFocalScanSlow in Hg.
  apply bind_Ok_inv in Hg as (z & _ & Hg).
  apply bind_Ok_inv in Hg as (cfg & _ & Hg). cbn zeta in Hg.
  apply bind_Ok_inv in Hg as (g0 & Hg0 & Hg). injection Hg as <-.
  apply (slow_grid_items _ _ _ _
           (λ v, v = NaNInf ∨ ∃ x, v = Val x ∧ 0 <= x) Hg0); [by left|].
  intros i j v Hv. by eapply slowGL_nonneg.
Qed.

End SlowUnitHeight.

Lemma unit_lib_slow_example :
  ∃ g m,
    @gLZRFocalScanSlow unit_lib (dict_of example_params) [0] [0] false 0 0.6 None
      = Ok g ∧
    np_max g = Ok (Val m) ∧ m ≠ 0.
Proof.
  destruct (configure_eval example_params 0.6) as (sf & Ecfg & _); [cbn; lra|lra|].
  unfold gLZRFocalScanSlow. cbn [default_zd]. rewrite getitem_zd0. cbn [bind].
  rewrite Ecfg. cbn [bind snd]. cbn zeta.
  unfold slow_grid. cbn [length for_range nth].
  unfold slowGL. getitems.
  assert (0 < sqrt (p_M example_params * p_M example_params
                    + p_NA example_params * p_NA example_params)) as Hsq.
  { apply sqrt_lt_R0. cbn. lra. }
  rewrite math_sqrt_ok by (cbn; lra). cbn [bind].
  rewrite py_div_ok by lra. cbn [bind]. rewrite py_div_ok by lra. cbn [bind].
  getitems. cbn zeta. unfold quad.
  cbn [quad_limit unit_lib quad_loop quad_finish bind].
  rewrite py_div_ok by (cbn [example_params p_zd0]; lra). cbn [bind f64_op].
  eexists. eexists. split; [reflexivity|]. rewrite np_max_single by done.
  cbn [nd2 item nth]. split; [reflexivity|].
  set (s := sqrt _) in *. cbn [example_params p_NA p_zd0 p_M].
  pose proof PI_RGT_0 as Hpi.
  assert (0 < 2.0 * PI / 0.6) as Hk by (apply Rdiv_lt_0_compat; lra).
  assert (0 < 1.4 * 150000 / s) as Ha by (apply Rdiv_lt_0_compat; lra).
  assert (0 < 2.0 * PI / 0.6 * (1.4 * 150000 / s) * (1.4 * 150000 / s)
              / (150000 * 150000)) as Ht.
  { apply Rdiv_lt_0_compat; [|lra]. apply Rmult_lt_0_compat; [|done].
    apply Rmult_lt_0_compat; done. }
  lra.
Qed.

Lemma gLZRFocalScanSlow_unit_height_witness :
  ∃ g m g',
    @gLZRFocalScanSlow unit_lib (dict_of example_params) [0] [0] false 0 0.6 None
      = Ok g ∧
    np_max g = Ok (Val m) ∧ m ≠ 0 ∧
    @gLZRFocalScanSlow unit_lib (dict_of example_params) [0] [0] true 0 0.6 None
      = Ok g' ∧
    ndim g' = ndim g ∧ nrows g' = nrows g ∧ ncols g' = ncols g ∧
    (∀ i j, (i < nrows g)%nat → (j < ncols g)%nat →
       ∃ x, item g i j = Val x ∧ item g' i j = Val (x / m) ∧ 0 <= x / m <= 1) ∧
    np_max g' = Ok (Val 1).
Proof.
  destruct unit_lib_slow_example as (g & m & Eg & Hmax & Hm).
  destruct (@gLZRFocalScanSlow_unit_height unit_lib (dict_of example_params)
              [0] [0] 0 0.6 None g m ltac:(lra) Eg Hmax Hm) as (g' & H).
  exists g, m, g'. by repeat (split; [done|]).
Defined.
